(** * otlpxy: the asynchronous OTLP forwarding proxy

    A shallow embedding of the Go sources

      - internal/handler/http/proxy/proxy_handler.go  (ingress adapter)
      - internal/worker/pool.go                       (pooled forwarder)
      - internal/forwarder/pool_forwarder.go          (pool adapter)
      - internal/forwarder/semaphore_forwarder.go     (semaphore forwarder)
      - internal/forwarder/hybrid_forwarder.go        (hybrid forwarder)

    Header collections are finite maps from field names to value lists.
    Goroutines are explicit components of a forwarder's state, and a
    history of the forwarder is a list of labels run by an executable step
    function. One step is a call of [Start] or [Submit], the part of
    [Stop] before its wait, the return of [Stop], or the run of a worker or
    sender goroutine from one blocking point to the next; the collector's
    answer to a send is carried by the label that ends the send. The
    histories of [SemaphoreCalls] and [HybridCalls] add the calls of
    [Submit] that pause between their read of the [stopped] flag and what
    they do next, so that [Stop] can overtake them. *)

From Stdlib Require Import ZArith Ascii String List Lia Bool DecimalString.
From stdpp Require Import base option list gmap strings fin_maps.

(** ** Go strings

    The functions of Go's [strings] package the handler calls, on byte
    strings. They agree with Go's on ASCII input, which is what header
    field names are: net/http accepts only token characters in them. *)

Module GoStrings.

Definition byte_in (lo hi : nat) (c : ascii) : bool :=
  (lo <=? nat_of_ascii c)%nat && (nat_of_ascii c <=? hi)%nat.

Definition is_lower (c : ascii) : bool := byte_in 97 122 c.
Definition is_upper (c : ascii) : bool := byte_in 65 90 c.
Definition is_digit (c : ascii) : bool := byte_in 48 57 c.

Definition lower_byte (c : ascii) : ascii :=
  if is_upper c then ascii_of_nat (nat_of_ascii c + 32) else c.

Definition upper_byte (c : ascii) : ascii :=
  if is_lower c then ascii_of_nat (nat_of_ascii c - 32) else c.

(** strings.ToLower, on ASCII strings. *)
Fixpoint ToLower (s : string) : string :=
  match s with
  | EmptyString => EmptyString
  | String c s' => String (lower_byte c) (ToLower s')
  end.

(** strings.EqualFold, on ASCII strings. *)
Definition EqualFold (s t : string) : bool :=
  String.eqb (ToLower s) (ToLower t).

(** strings.HasPrefix *)
Definition HasPrefix (s p : string) : bool := String.prefix p s.

End GoStrings.

(** ** net/textproto and net/http headers

    [http.Header] and its methods, from Go's standard library. *)

Module GoHeader.
Import GoStrings.

(** [http.Header] is [map[string][]string]. *)
Abbreviation Header := (gmap string (list string)).

(** net/textproto: the bytes allowed in a header field name (RFC 7230
    token characters). *)
Definition validHeaderFieldByte (c : ascii) : bool :=
  is_lower c || is_upper c || is_digit c ||
  existsb (Ascii.eqb c)
    (list_ascii_of_string "!#$%&'*+-.^_`|~").

Fixpoint all_valid (s : string) : bool :=
  match s with
  | EmptyString => true
  | String c s' => validHeaderFieldByte c && all_valid s'
  end.

(** The canonicalising loop of [canonicalMIMEHeaderKey]: upper case for
    the first letter and for every letter after a dash, lower case for
    the rest. *)
Fixpoint canon_loop (upper : bool) (s : string) : string :=
  match s with
  | EmptyString => EmptyString
  | String c s' =>
      let c' := if upper then upper_byte c else lower_byte c in
      String c' (canon_loop (Ascii.eqb c' "-"%char) s')
  end.

(** [textproto.CanonicalMIMEHeaderKey]: a key holding a byte that is not a
    token character is returned unchanged. *)
Definition CanonicalMIMEHeaderKey (s : string) : string :=
  if all_valid s then canon_loop true s else s.

(** [Header.Add]: append under the canonical key. *)
Definition Add (h : Header) (key value : string) : Header :=
  let k := CanonicalMIMEHeaderKey key in
  <[k := default [] (h !! k) ++ [value]]> h.

(** [Header.Set]: replace every value under the canonical key. *)
Definition Set_ (h : Header) (key value : string) : Header :=
  <[CanonicalMIMEHeaderKey key := [value]]> h.

(** [Header.Get]: the first value under the canonical key, or the empty
    string. *)
Definition Get (h : Header) (key : string) : string :=
  match h !! CanonicalMIMEHeaderKey key with
  | Some (v :: _) => v
  | _ => ""%string
  end.

(** What the net/http server and client hand to a handler: every field
    name is a token in canonical form and carries at least one value. *)
Definition parsed_field (k : string) (vals : list string) : Prop :=
  all_valid k = true ∧ CanonicalMIMEHeaderKey k = k ∧ vals ≠ [].

Definition parsed (h : Header) : Prop :=
  map_Forall parsed_field h.

(** A [range] over a Go map visits every entry once, in an order the
    language leaves open. *)
Definition range_order (h : Header) (order : list (string * list string)) : Prop :=
  order ≡ₚ map_to_list h.

End GoHeader.

Import GoStrings GoHeader.

(** ** Data shared by the ingress adapter and the forwarders *)

Abbreviation bytes := (list Byte.byte).

(** Go's [int] on a 64-bit platform. *)
Definition int_wrap (z : Z) : Z := ((z + 2 ^ 63) mod 2 ^ 64 - 2 ^ 63)%Z.
Definition int_add (a b : Z) : Z := int_wrap (a + b).
Definition int_mul (a b : Z) : Z := int_wrap (a * b).

Definition StatusAccepted : Z := 202.
Definition StatusBadRequest : Z := 400.
Definition StatusBadGateway : Z := 502.
Definition StatusServiceUnavailable : Z := 503.

(** A response body is a stream: the bytes not read yet, and whether
    [Close] was called. *)
Record BodyReader := mkBody { unread : bytes; consumed : bytes; body_closed : bool }.

Definition fresh_body (b : bytes) : BodyReader :=
  {| unread := b; consumed := []; body_closed := false |}.

Definition Body_Close (r : BodyReader) : BodyReader :=
  {| unread := unread r; consumed := consumed r; body_closed := true |}.

(** Reading a body to its end ([io.Copy], [io.ReadAll]) yields the unread
    bytes and leaves none. *)
Definition Body_ReadAll (r : BodyReader) : bytes * BodyReader :=
  (unread r,
   {| unread := []; consumed := consumed r ++ unread r; body_closed := body_closed r |}).

Record Response := mkResponse {
  StatusCode : Z;
  RespHeader : Header;
  RespBody : BodyReader
}.

(** What the environment answers to one send: [http.NewRequest] fails,
    [client.Do] fails, or the collector responds. *)
Inductive SendOutcome :=
  | NewRequestError
  | DoError
  | Responded (resp : Response).

(** The collector answered with a status in [200, 300). *)
Definition is_2xx (o : SendOutcome) : bool :=
  match o with
  | Responded resp => (200 <=? StatusCode resp)%Z && (StatusCode resp <? 300)%Z
  | _ => false
  end.

(** worker.Job and forwarder.hybridJob *)
Record Job := mkJob {
  Body : bytes;
  TargetURL : string;
  Headers : Header
}.

(** The request a sender hands to [client.Do]. *)
Record UpstreamRequest := mkUpstreamRequest {
  up_method : string;
  up_url : string;
  up_body : bytes;
  up_header : Header
}.

(** [for k, values := range headers { for _, v := range values { req.Header.Add(k, v) } }] *)
Definition add_all (h : Header) (kv : string * list string) : Header :=
  foldl (λ acc v, Add acc kv.1 v) h kv.2.

(** The request built by every sender (pool worker, semaphore unit, hybrid
    sender): [http.NewRequest("POST", url, bytes.NewReader(body))] followed
    by the copy of the job's headers. *)
Definition sender_request (j : Job) (order : list (string * list string)) : UpstreamRequest :=
  {| up_method := "POST";
     up_url := TargetURL j;
     up_body := Body j;
     up_header := foldl add_all ∅ order |}.

(** internal/metrics: the process-wide gauge and counters. *)
Record Metrics := mkMetrics {
  ActiveWorkersGauge : Z;
  JobsProcessedCounter : nat;
  JobsFailedCounter : nat
}.

Definition metrics0 : Metrics :=
  {| ActiveWorkersGauge := 0; JobsProcessedCounter := 0; JobsFailedCounter := 0 |}.

Definition ActiveWorkers_Inc (m : Metrics) : Metrics :=
  {| ActiveWorkersGauge := ActiveWorkersGauge m + 1;
     JobsProcessedCounter := JobsProcessedCounter m;
     JobsFailedCounter := JobsFailedCounter m |}.

Definition ActiveWorkers_Dec (m : Metrics) : Metrics :=
  {| ActiveWorkersGauge := ActiveWorkersGauge m - 1;
     JobsProcessedCounter := JobsProcessedCounter m;
     JobsFailedCounter := JobsFailedCounter m |}.

Definition JobsProcessed_Inc (m : Metrics) : Metrics :=
  {| ActiveWorkersGauge := ActiveWorkersGauge m;
     JobsProcessedCounter := S (JobsProcessedCounter m);
     JobsFailedCounter := JobsFailedCounter m |}.

Definition JobsFailed_Inc (m : Metrics) : Metrics :=
  {| ActiveWorkersGauge := ActiveWorkersGauge m;
     JobsProcessedCounter := JobsProcessedCounter m;
     JobsFailedCounter := S (JobsFailedCounter m) |}.

(** ** Channels *)

Module GoChan.

(** A buffered channel: its buffer (oldest first), capacity and whether
    it was closed. *)
Record Chan (A : Type) := mkChan { buf : list A; cap : Z; closed : bool }.
Arguments mkChan {A}.
Arguments buf {A}.
Arguments cap {A}.
Arguments closed {A}.

(** [make(chan A, n)] panics for a negative size. *)
Definition make {A} (n : Z) : option (Chan A) :=
  if (n <? 0)%Z then None else Some (mkChan [] n false).

Definition len {A} (c : Chan A) : Z := Z.of_nat (length (buf c)).

Definition has_room {A} (c : Chan A) : bool := (len c <? cap c)%Z.

Definition push {A} (c : Chan A) (x : A) : Chan A :=
  mkChan (buf c ++ [x]) (cap c) (closed c).

Definition pop {A} (c : Chan A) : Chan A :=
  mkChan (tail (buf c)) (cap c) (closed c).

Definition close {A} (c : Chan A) : Chan A :=
  mkChan (buf c) (cap c) true.

End GoChan.

Import GoChan.

(** ** The forwarder interface (internal/forwarder/forwarder.go) *)

(** How a call of [Submit] ends: it returns its error value, it panics, or
    the caller stays blocked inside it. An error is represented by its
    message, without the capacity that [fmt.Errorf] formats into it. *)
Inductive SubmitResult :=
  | Returns (err : option string)
  | Panics (msg : string)
  | Blocks.

Class Forwarder (F : Type) := {
  Start : F → F;
  (** the part of [Stop] that runs before it waits *)
  Stop : F → F;
  Submit : bytes → string → Header → F → SubmitResult * F;
  GetQueueDepth : F → Z
}.

(** ** internal/worker: the pooled forwarder *)

Module WorkerPool.

(** A worker goroutine waits in [for job := range p.jobQueue], is between
    the receipt of a job and the release of its permit, or has left the
    loop. *)
Inductive WorkerState :=
  | Idle
  | Busy (j : Job)
  | Exited.

Record Pool := mkPool {
  workerCount : Z;
  jobQueue : Chan Job;
  permits : Chan unit;
  shutdownTimeout : Z;
  startOnce : bool;
  stopOnce : bool;
  (** the goroutines spawned by [Start]; [wg] counts those not exited *)
  workers : list WorkerState;
  (** callers of [SubmitJob] blocked in [p.jobQueue <- job] *)
  senders : list Job;
  (** a caller of [Stop] is waiting in its [select] *)
  stopWait : bool
}.

Definition set_jobQueue (q : Chan Job) (p : Pool) : Pool :=
  mkPool (workerCount p) q (permits p) (shutdownTimeout p) (startOnce p)
         (stopOnce p) (workers p) (senders p) (stopWait p).
Definition set_permits (c : Chan unit) (p : Pool) : Pool :=
  mkPool (workerCount p) (jobQueue p) c (shutdownTimeout p) (startOnce p)
         (stopOnce p) (workers p) (senders p) (stopWait p).
Definition set_workers (w : list WorkerState) (p : Pool) : Pool :=
  mkPool (workerCount p) (jobQueue p) (permits p) (shutdownTimeout p) (startOnce p)
         (stopOnce p) w (senders p) (stopWait p).
Definition set_senders (l : list Job) (p : Pool) : Pool :=
  mkPool (workerCount p) (jobQueue p) (permits p) (shutdownTimeout p) (startOnce p)
         (stopOnce p) (workers p) l (stopWait p).
Definition set_stopWait (b : bool) (p : Pool) : Pool :=
  mkPool (workerCount p) (jobQueue p) (permits p) (shutdownTimeout p) (startOnce p)
         (stopOnce p) (workers p) (senders p) b.

(** [NewPool]; [numCPU] is [runtime.NumCPU()]. *)
Definition NewPool (numCPU : Z) (workerCount jobQueueSize shutdownTimeout : Z)
  : option Pool :=
  let workerCount :=
    if (workerCount <=? 0)%Z then int_mul 50 numCPU else workerCount in
  let jobQueueSize :=
    if (jobQueueSize <=? 0)%Z then 10000%Z else jobQueueSize in
  q ← make jobQueueSize;
  pm ← make (int_add workerCount jobQueueSize);
  Some (mkPool workerCount q pm shutdownTimeout false false [] [] false).

(** [Start]: under [startOnce], one goroutine per worker. *)
Definition Start (p : Pool) : Pool :=
  if startOnce p then p
  else mkPool (workerCount p) (jobQueue p) (permits p) (shutdownTimeout p) true
              (stopOnce p) (replicate (Z.to_nat (workerCount p)) Idle)
              (senders p) (stopWait p).

(** [Stop] up to its [select]: under [stopOnce], close the job queue.
    Every sender blocked on the queue panics at the close; the permit it
    acquired is not given back. *)
Definition Stop (p : Pool) : Pool :=
  if stopOnce p then p
  else mkPool (workerCount p) (close (jobQueue p)) (permits p) (shutdownTimeout p)
              (startOnce p) true (workers p) [] true.

Definition GetQueueDepth (p : Pool) : Z := len (jobQueue p).

(** [SubmitJob]: a non-blocking acquire of one permit, then a blocking
    send of the job. *)
Definition SubmitJob (job : Job) (p : Pool) : SubmitResult * Pool :=
  if has_room (permits p) then
    let p := set_permits (push (permits p) tt) p in
    if closed (jobQueue p) then (Panics "send on closed channel", p)
    else if has_room (jobQueue p) then
      (Returns None, set_jobQueue (push (jobQueue p) job) p)
    else (Blocks, set_senders (senders p ++ [job]) p)
  else (Returns (Some "worker pool queue full"%string), p).

(** One receive from the job queue. The first blocked sender, if any,
    completes its send into the freed slot. *)
Definition receive (p : Pool) : option (Job * Pool) :=
  match buf (jobQueue p) with
  | [] => None
  | j :: _ =>
      let q := pop (jobQueue p) in
      match senders p with
      | s :: rest => Some (j, set_senders rest (set_jobQueue (push q s) p))
      | [] => Some (j, set_jobQueue q p)
      end
  end.

(** The body of the worker loop after the send has ended with outcome
    [o]: the response body when there is one, and the metrics. *)
Definition worker_after_send (o : SendOutcome) (m : Metrics)
  : Metrics * option BodyReader :=
  match o with
  | NewRequestError => (ActiveWorkers_Dec (JobsFailed_Inc m), None)
  | DoError => (ActiveWorkers_Dec (JobsFailed_Inc m), None)
  | Responded resp =>
      let body := Body_Close (RespBody resp) in
      let m :=
        if (StatusCode resp <? 200)%Z || (StatusCode resp >=? 300)%Z
        then JobsFailed_Inc m else JobsProcessed_Inc m in
      (ActiveWorkers_Dec m, Some body)
  end.

Record State := mkState { pool : Pool; metrics : Metrics }.

Inductive Label :=
  | LStart
  | LSubmit (j : Job)
  | LTake (i : nat)
  | LFinish (i : nat) (o : SendOutcome)
  | LExit (i : nat)
  | LStop
  | LStopReturn (timedOut : bool).

Definition all_exited (ws : list WorkerState) : bool :=
  forallb (λ w, match w with Exited => true | _ => false end) ws.

Definition step (l : Label) (s : State) : option State :=
  let p := pool s in
  match l with
  | LStart => Some (mkState (Start p) (metrics s))
  | LSubmit j => Some (mkState (SubmitJob j p).2 (metrics s))
  | LTake i =>
      match workers p !! i with
      | Some Idle =>
          '(j, p') ← receive p;
          Some (mkState (set_workers (<[i := Busy j]> (workers p')) p')
                        (ActiveWorkers_Inc (metrics s)))
      | _ => None
      end
  | LFinish i o =>
      match workers p !! i, buf (permits p) with
      | Some (Busy j), _ :: _ =>
          Some (mkState
                  (set_workers (<[i := Idle]> (workers p))
                               (set_permits (pop (permits p)) p))
                  (worker_after_send o (metrics s)).1)
      | _, _ => None
      end
  | LExit i =>
      match workers p !! i, buf (jobQueue p) with
      | Some Idle, [] =>
          if closed (jobQueue p)
          then Some (mkState (set_workers (<[i := Exited]> (workers p)) p) (metrics s))
          else None
      | _, _ => None
      end
  | LStop => Some (mkState (Stop p) (metrics s))
  | LStopReturn timedOut =>
      if stopWait p && (timedOut || all_exited (workers p))
      then Some (mkState (set_stopWait false p) (metrics s))
      else None
  end.

Fixpoint run (t : list Label) (s : State) : option State :=
  match t with
  | [] => Some s
  | l :: t' => s' ← step l s; run t' s'
  end.

Definition init (p : Pool) : State := mkState p metrics0.

Definition is_busy (w : WorkerState) : bool :=
  match w with Busy _ => true | _ => false end.

Definition busy (ws : list WorkerState) : nat :=
  length (List.filter is_busy ws).

(** The tasks that were accepted and have not reached a terminal state:
    held by a caller still inside [SubmitJob], queued, or with a worker. *)
Definition outstanding (p : Pool) : Z :=
  Z.of_nat (length (senders p) + length (buf (jobQueue p)) + busy (workers p)).


(** The outcomes of the sends that ended along a history, oldest first. *)
Definition finished (t : list Label) : list SendOutcome :=
  omap (λ l, match l with LFinish _ o => Some o | _ => None end) t.

(** Two labels are the same action up to what the collector answered. *)
Definition same_action (l1 l2 : Label) : Prop :=
  match l1, l2 with
  | LFinish i _, LFinish i' _ => i = i'
  | _, _ => l1 = l2
  end.

End WorkerPool.

(** ** internal/forwarder: the semaphore forwarder *)

Module Semaphore.

(** The goroutine spawned by one [Submit] waits for a token, holds a
    token and sends, or has returned. *)
Inductive UnitState :=
  | Waiting (j : Job)
  | Sending (j : Job)
  | Done.

Record SemaphoreForwarder := mkSemaphoreForwarder {
  maxConcurrent : Z;
  tokens : Chan unit;
  waiters : Z;
  startOnce : bool;
  stopOnce : bool;
  stopped : bool;
  shutdownTimeout : Z;
  (** the goroutines spawned by [Submit]; [wg] counts those not done *)
  units : list UnitState;
  stopWait : bool
}.

Definition NewSemaphoreForwarder (maxConcurrent shutdownTimeout : Z)
  : option SemaphoreForwarder :=
  let maxConcurrent :=
    if (maxConcurrent <=? 0)%Z then 10000%Z else maxConcurrent in
  tk ← make maxConcurrent;
  Some (mkSemaphoreForwarder maxConcurrent tk 0 false false false
                             shutdownTimeout [] false).

Definition Start (s : SemaphoreForwarder) : SemaphoreForwarder :=
  mkSemaphoreForwarder (maxConcurrent s) (tokens s) (waiters s) true
    (stopOnce s) (stopped s) (shutdownTimeout s) (units s) (stopWait s).

(** [Stop] up to its [select]. *)
Definition Stop (s : SemaphoreForwarder) : SemaphoreForwarder :=
  if stopOnce s then s
  else mkSemaphoreForwarder (maxConcurrent s) (tokens s) (waiters s)
         (startOnce s) true true (shutdownTimeout s) (units s) true.

(** [Submit]: nothing once stopped; otherwise [wg.Add(1)] and a new
    goroutine, which starts with [waiters.Inc()]. *)
Definition Submit (body : bytes) (targetURL : string) (headers : Header)
    (s : SemaphoreForwarder) : SubmitResult * SemaphoreForwarder :=
  if stopped s then (Returns None, s)
  else
    (Returns None,
     mkSemaphoreForwarder (maxConcurrent s) (tokens s) (waiters s + 1)
       (startOnce s) (stopOnce s) (stopped s) (shutdownTimeout s)
       (units s ++ [Waiting (mkJob body targetURL headers)]) (stopWait s)).

Definition max_int : Z := (2 ^ 63 - 1)%Z.

Definition GetQueueDepth (s : SemaphoreForwarder) : Z :=
  let v := waiters s in
  if (v <? 0)%Z then 0%Z
  else if (v >? max_int)%Z then max_int
  else v.

(** The goroutine after [s.httpClient.Do] or [http.NewRequest] has ended
    with outcome [o]; the deferred gauge decrement runs on every return. *)
Definition unit_after_send (o : SendOutcome) (m : Metrics)
  : Metrics * option BodyReader :=
  match o with
  | NewRequestError => (ActiveWorkers_Dec (JobsFailed_Inc m), None)
  | DoError => (ActiveWorkers_Dec (JobsFailed_Inc m), None)
  | Responded resp =>
      let body := Body_Close (RespBody resp) in
      let m :=
        if (StatusCode resp <? 200)%Z || (StatusCode resp >=? 300)%Z
        then JobsFailed_Inc m else JobsProcessed_Inc m in
      (ActiveWorkers_Dec m, Some body)
  end.

Record State := mkState { fwd : SemaphoreForwarder; metrics : Metrics }.

Inductive Label :=
  | LStart
  | LSubmit (j : Job)
  | LAcquire (i : nat)
  | LFinish (i : nat) (o : SendOutcome)
  | LStop
  | LStopReturn (timedOut : bool).

Definition set_units (u : list UnitState) (s : SemaphoreForwarder) :=
  mkSemaphoreForwarder (maxConcurrent s) (tokens s) (waiters s)
    (startOnce s) (stopOnce s) (stopped s) (shutdownTimeout s) u (stopWait s).

Definition all_done (us : list UnitState) : bool :=
  forallb (λ u, match u with Done => true | _ => false end) us.

Definition step (l : Label) (s : State) : option State :=
  let f := fwd s in
  match l with
  | LStart => Some (mkState (Start f) (metrics s))
  | LSubmit j =>
      Some (mkState (Submit (Body j) (TargetURL j) (Headers j) f).2 (metrics s))
  | LAcquire i =>
      match units f !! i with
      | Some (Waiting j) =>
          if has_room (tokens f) then
            Some (mkState
                    (mkSemaphoreForwarder (maxConcurrent f) (push (tokens f) tt)
                       (waiters f - 1) (startOnce f) (stopOnce f) (stopped f)
                       (shutdownTimeout f) (<[i := Sending j]> (units f))
                       (stopWait f))
                    (ActiveWorkers_Inc (metrics s)))
          else None
      | _ => None
      end
  | LFinish i o =>
      match units f !! i, buf (tokens f) with
      | Some (Sending j), _ :: _ =>
          Some (mkState
                  (mkSemaphoreForwarder (maxConcurrent f) (pop (tokens f))
                     (waiters f) (startOnce f) (stopOnce f) (stopped f)
                     (shutdownTimeout f) (<[i := Done]> (units f)) (stopWait f))
                  (unit_after_send o (metrics s)).1)
      | _, _ => None
      end
  | LStop => Some (mkState (Stop f) (metrics s))
  | LStopReturn timedOut =>
      if stopWait f && (timedOut || all_done (units f))
      then Some (mkState
                   (mkSemaphoreForwarder (maxConcurrent f) (tokens f) (waiters f)
                      (startOnce f) (stopOnce f) (stopped f) (shutdownTimeout f)
                      (units f) false)
                   (metrics s))
      else None
  end.

Fixpoint run (t : list Label) (s : State) : option State :=
  match t with
  | [] => Some s
  | l :: t' => s' ← step l s; run t' s'
  end.

Definition init (f : SemaphoreForwarder) : State := mkState f metrics0.

Definition is_post (l : Label) : bool :=
  match l with LAcquire _ => true | _ => false end.

(** The outcomes of the sends that ended along a history, oldest first. *)
Definition finished (t : list Label) : list SendOutcome :=
  omap (λ l, match l with LFinish _ o => Some o | _ => None end) t.

Definition same_action (l1 l2 : Label) : Prop :=
  match l1, l2 with
  | LFinish i _, LFinish i' _ => i = i'
  | _, _ => l1 = l2
  end.

End Semaphore.

(** ** internal/forwarder: the hybrid forwarder *)

Module Hybrid.

(** A dispatcher waits in [for job := range h.jobQueue], holds a job
    while it acquires a token, or has left the loop. *)
Inductive WorkerState :=
  | Idle
  | Holding (j : Job)
  | Exited.

Record HybridForwarder := mkHybridForwarder {
  workerCount : Z;
  jobQueue : Chan Job;
  tokens : Chan unit;
  startOnce : bool;
  stopOnce : bool;
  stopped : bool;
  shutdownTimeout : Z;
  (** the dispatchers spawned by [Start]; [wg] counts those not exited *)
  workers : list WorkerState;
  (** the detached senders; [sendWG] counts those still running *)
  sends : list (option Job);
  stopWait : bool
}.

Definition NewHybridForwarder (workerCount jobQueueSize maxConcurrent shutdownTimeout : Z)
  : option HybridForwarder :=
  let workerCount := if (workerCount <=? 0)%Z then 1%Z else workerCount in
  let jobQueueSize := if (jobQueueSize <=? 0)%Z then 10000%Z else jobQueueSize in
  let maxConcurrent := if (maxConcurrent <=? 0)%Z then 10000%Z else maxConcurrent in
  q ← make jobQueueSize;
  tk ← make maxConcurrent;
  Some (mkHybridForwarder workerCount q tk false false false shutdownTimeout
                          [] [] false).

Definition Start (h : HybridForwarder) : HybridForwarder :=
  if startOnce h then h
  else mkHybridForwarder (workerCount h) (jobQueue h) (tokens h) true
         (stopOnce h) (stopped h) (shutdownTimeout h)
         (replicate (Z.to_nat (workerCount h)) Idle) (sends h) (stopWait h).

(** [Stop] up to its [select]: set the flag, close the job queue. *)
Definition Stop (h : HybridForwarder) : HybridForwarder :=
  if stopOnce h then h
  else mkHybridForwarder (workerCount h) (close (jobQueue h)) (tokens h)
         (startOnce h) true true (shutdownTimeout h) (workers h) (sends h) true.

(** [Submit]: an error once stopped; otherwise enqueue or reject. *)
Definition Submit (body : bytes) (targetURL : string) (headers : Header)
    (h : HybridForwarder) : SubmitResult * HybridForwarder :=
  if stopped h then (Returns (Some "hybrid forwarder stopped"%string), h)
  else
    let job := mkJob body targetURL headers in
    if closed (jobQueue h) then (Panics "send on closed channel", h)
    else if has_room (jobQueue h) then
      (Returns None,
       mkHybridForwarder (workerCount h) (push (jobQueue h) job) (tokens h)
         (startOnce h) (stopOnce h) (stopped h) (shutdownTimeout h)
         (workers h) (sends h) (stopWait h))
    else (Returns (Some "hybrid queue full"%string), h).

Definition GetQueueDepth (h : HybridForwarder) : Z := len (jobQueue h).

(** The detached sender after the send has ended with outcome [o]. *)
Definition sender_after_send (o : SendOutcome) (m : Metrics)
  : Metrics * option BodyReader :=
  match o with
  | NewRequestError => (ActiveWorkers_Dec (JobsFailed_Inc m), None)
  | DoError => (ActiveWorkers_Dec (JobsFailed_Inc m), None)
  | Responded resp =>
      let body := Body_Close (RespBody resp) in
      let m :=
        if (StatusCode resp <? 200)%Z || (StatusCode resp >=? 300)%Z
        then JobsFailed_Inc m else JobsProcessed_Inc m in
      (ActiveWorkers_Dec m, Some body)
  end.

Record State := mkState { fwd : HybridForwarder; metrics : Metrics }.

Inductive Label :=
  | LStart
  | LSubmit (j : Job)
  | LTake (i : nat)
  | LDispatch (i : nat)
  | LFinish (k : nat) (o : SendOutcome)
  | LExit (i : nat)
  | LStop
  | LStopReturn (timedOut : bool).

Definition set_workers (w : list WorkerState) (h : HybridForwarder) :=
  mkHybridForwarder (workerCount h) (jobQueue h) (tokens h) (startOnce h)
    (stopOnce h) (stopped h) (shutdownTimeout h) w (sends h) (stopWait h).

Definition all_exited (ws : list WorkerState) : bool :=
  forallb (λ w, match w with Exited => true | _ => false end) ws.

Definition all_sent (l : list (option Job)) : bool :=
  forallb (λ x, match x with None => true | Some _ => false end) l.

Definition step (l : Label) (s : State) : option State :=
  let h := fwd s in
  match l with
  | LStart => Some (mkState (Start h) (metrics s))
  | LSubmit j =>
      Some (mkState (Submit (Body j) (TargetURL j) (Headers j) h).2 (metrics s))
  | LTake i =>
      match workers h !! i, buf (jobQueue h) with
      | Some Idle, j :: _ =>
          Some (mkState
                  (mkHybridForwarder (workerCount h) (pop (jobQueue h)) (tokens h)
                     (startOnce h) (stopOnce h) (stopped h) (shutdownTimeout h)
                     (<[i := Holding j]> (workers h)) (sends h) (stopWait h))
                  (metrics s))
      | _, _ => None
      end
  | LDispatch i =>
      match workers h !! i with
      | Some (Holding j) =>
          if has_room (tokens h) then
            Some (mkState
                    (mkHybridForwarder (workerCount h) (jobQueue h)
                       (push (tokens h) tt) (startOnce h) (stopOnce h) (stopped h)
                       (shutdownTimeout h) (<[i := Idle]> (workers h))
                       (sends h ++ [Some j]) (stopWait h))
                    (ActiveWorkers_Inc (metrics s)))
          else None
      | _ => None
      end
  | LFinish k o =>
      match sends h !! k, buf (tokens h) with
      | Some (Some j), _ :: _ =>
          Some (mkState
                  (mkHybridForwarder (workerCount h) (jobQueue h) (pop (tokens h))
                     (startOnce h) (stopOnce h) (stopped h) (shutdownTimeout h)
                     (workers h) (<[k := None]> (sends h)) (stopWait h))
                  (sender_after_send o (metrics s)).1)
      | _, _ => None
      end
  | LExit i =>
      match workers h !! i, buf (jobQueue h) with
      | Some Idle, [] =>
          if closed (jobQueue h)
          then Some (mkState (set_workers (<[i := Exited]> (workers h)) h) (metrics s))
          else None
      | _, _ => None
      end
  | LStop => Some (mkState (Stop h) (metrics s))
  | LStopReturn timedOut =>
      if stopWait h && (timedOut || (all_exited (workers h) && all_sent (sends h)))
      then Some (mkState
                   (mkHybridForwarder (workerCount h) (jobQueue h) (tokens h)
                      (startOnce h) (stopOnce h) (stopped h) (shutdownTimeout h)
                      (workers h) (sends h) false)
                   (metrics s))
      else None
  end.

Fixpoint run (t : list Label) (s : State) : option State :=
  match t with
  | [] => Some s
  | l :: t' => s' ← step l s; run t' s'
  end.

Definition init (h : HybridForwarder) : State := mkState h metrics0.

Definition is_post (l : Label) : bool :=
  match l with LDispatch _ => true | _ => false end.

(** The outcomes of the sends that ended along a history, oldest first. *)
Definition finished (t : list Label) : list SendOutcome :=
  omap (λ l, match l with LFinish _ o => Some o | _ => None end) t.

Definition same_action (l1 l2 : Label) : Prop :=
  match l1, l2 with
  | LFinish k _, LFinish k' _ => k = k'
  | _, _ => l1 = l2
  end.

(** The accepted tasks no sender has picked up: queued, or held by a
    dispatcher that waits for a token. *)
Definition pending (h : HybridForwarder) : list Job :=
  omap (λ w, match w with Holding j => Some j | _ => None end) (workers h)
  ++ buf (jobQueue h).

End Hybrid.

(** ** internal/forwarder/pool_forwarder.go *)

Module PoolAdapter.

Record PoolForwarder := mkPoolForwarder { pool : option WorkerPool.Pool }.

Definition NewPoolForwarder (p : option WorkerPool.Pool) : PoolForwarder :=
  mkPoolForwarder p.

Definition Start (pf : PoolForwarder) : PoolForwarder :=
  match pool pf with
  | Some p => mkPoolForwarder (Some (WorkerPool.Start p))
  | None => pf
  end.

Definition Stop (pf : PoolForwarder) : PoolForwarder :=
  match pool pf with
  | Some p => mkPoolForwarder (Some (WorkerPool.Stop p))
  | None => pf
  end.

Definition Submit (body : bytes) (targetURL : string) (headers : Header)
    (pf : PoolForwarder) : SubmitResult * PoolForwarder :=
  match pool pf with
  | None => (Returns None, pf)
  | Some p =>
      let job := mkJob body targetURL headers in
      let '(r, p') := WorkerPool.SubmitJob job p in
      (r, mkPoolForwarder (Some p'))
  end.

Definition GetQueueDepth (pf : PoolForwarder) : Z :=
  match pool pf with
  | None => 0%Z
  | Some p => WorkerPool.GetQueueDepth p
  end.

End PoolAdapter.

#[export] Instance pool_forwarder : Forwarder PoolAdapter.PoolForwarder := {
  Start := PoolAdapter.Start;
  Stop := PoolAdapter.Stop;
  Submit := PoolAdapter.Submit;
  GetQueueDepth := PoolAdapter.GetQueueDepth
}.

#[export] Instance semaphore_forwarder : Forwarder Semaphore.SemaphoreForwarder := {
  Start := Semaphore.Start;
  Stop := Semaphore.Stop;
  Submit := Semaphore.Submit;
  GetQueueDepth := Semaphore.GetQueueDepth
}.

#[export] Instance hybrid_forwarder : Forwarder Hybrid.HybridForwarder := {
  Start := Hybrid.Start;
  Stop := Hybrid.Stop;
  Submit := Hybrid.Submit;
  GetQueueDepth := Hybrid.GetQueueDepth
}.

(** ** internal/handler/http/proxy: the ingress adapter *)

Module Proxy.

Record ProxyHandler := mkProxyHandler {
  targetURL : string;
  apiKey : string;
  syncLogs : bool
}.

(** [io.ReadAll(c.Request().Body)] *)
Inductive ReadResult :=
  | ReadOk (body : bytes)
  | ReadFailed.

(** What the handler uses of [echo.Context]: the request and the headers
    already set on the response by the middleware before it. *)
Record Context := mkContext {
  ReqHeader : Header;
  ReqBody : ReadResult;
  ResponseHeader : Header
}.

Record ClientResponse := mkClientResponse {
  status : Z;
  header : Header;
  body : bytes
}.

Inductive HandlerResult :=
  | Reply (r : ClientResponse)
  | HandlerPanics (msg : string)
  | HandlerBlocked.

Definition NoContent (c : Context) (code : Z) : ClientResponse :=
  mkClientResponse code (ResponseHeader c) [].

Definition isHopByHop (name : string) : bool :=
  match ToLower name with
  | "connection" | "keep-alive" | "proxy-authenticate" | "proxy-authorization"
  | "te" | "trailer" | "transfer-encoding" | "upgrade" | "proxy-connection" => true
  | _ => false
  end%string.

(** One iteration of [for k, vals := range c.Request().Header]. *)
Definition copy_field (headers : Header) (kv : string * list string) : Header :=
  if (length kv.2 =? 0)%nat then headers
  else if EqualFold kv.1 "Host" || isHopByHop kv.1 then headers
  else foldl (λ acc v, Add acc kv.1 v) headers kv.2.

(** The outbound header set, built the same way by [handleAsync] and by
    the synchronous branch of [HandleLogs]; [order] is the order in which
    the [range] visits the request headers. *)
Definition forward_headers (h : ProxyHandler) (reqHeader : Header)
    (order : list (string * list string)) : Header :=
  let contentType := Get reqHeader "Content-Type" in
  let contentType :=
    if String.eqb contentType "" then "application/x-protobuf"%string
    else contentType in
  let headers := foldl copy_field ∅ order in
  let headers :=
    if String.eqb (Get headers "Content-Type") ""
    then Set_ headers "Content-Type" contentType else headers in
  if negb (String.eqb (apiKey h) "")
  then Set_ headers "Authorization" (apiKey h) else headers.

Definition handleAsync {F} `{Forwarder F} (h : ProxyHandler) (c : Context)
    (order : list (string * list string)) (path : string) (fw : F)
  : HandlerResult * F :=
  match ReqBody c with
  | ReadFailed => (Reply (NoContent c StatusBadRequest), fw)
  | ReadOk body =>
      let headers := forward_headers h (ReqHeader c) order in
      match Submit body (targetURL h ++ path)%string headers fw with
      | (Returns (Some _), fw') => (Reply (NoContent c StatusServiceUnavailable), fw')
      | (Returns None, fw') => (Reply (NoContent c StatusAccepted), fw')
      | (Panics msg, fw') => (HandlerPanics msg, fw')
      | (Blocks, fw') => (HandlerBlocked, fw')
      end
  end.

Definition HandleTraces {F} `{Forwarder F} (h : ProxyHandler) (c : Context)
    (order : list (string * list string)) (fw : F) : HandlerResult * F :=
  handleAsync h c order "/v1/traces" fw.

(** The [switch] over the lower-cased name of an upstream response
    header. *)
Definition skip_response_header (k : string) : bool :=
  let lowerKey := ToLower k in
  HasPrefix lowerKey "access-control-"
  || String.eqb lowerKey "vary"
  || String.eqb lowerKey "content-length"
  || String.eqb lowerKey "transfer-encoding"
  || String.eqb lowerKey "connection".

(** One iteration of [for k, values := range resp.Header]. *)
Definition copy_response_field (out : Header) (kv : string * list string) : Header :=
  if skip_response_header kv.1 then out
  else foldl (λ acc v, Add acc kv.1 v) out kv.2.

(** The synchronous branch of [HandleLogs]; [upstream] is the collector
    behind [h.httpClient], [resp_order] the order in which the [range]
    visits the response headers. *)
Definition handleSync (h : ProxyHandler) (c : Context)
    (order : list (string * list string))
    (upstream : UpstreamRequest → SendOutcome)
    (resp_order : list (string * list string)) : ClientResponse :=
  match ReqBody c with
  | ReadFailed => NoContent c StatusBadRequest
  | ReadOk body =>
      let headers := forward_headers h (ReqHeader c) order in
      let req := mkUpstreamRequest "POST" (targetURL h ++ "/v1/logs")%string
                                   body headers in
      match upstream req with
      | NewRequestError => NoContent c StatusBadRequest
      | DoError => NoContent c StatusBadGateway
      | Responded resp =>
          let out := foldl copy_response_field (ResponseHeader c) resp_order in
          mkClientResponse (StatusCode resp) out (Body_ReadAll (RespBody resp)).1
      end
  end.

Definition HandleLogs {F} `{Forwarder F} (h : ProxyHandler) (c : Context)
    (order : list (string * list string))
    (upstream : UpstreamRequest → SendOutcome)
    (resp_order : list (string * list string)) (fw : F)
  : HandlerResult * F :=
  if negb (syncLogs h) then handleAsync h c order "/v1/logs" fw
  else (Reply (handleSync h c order upstream resp_order), fw).

(** The job [handleAsync] passes to the forwarder once the body is read. *)
Definition async_job (h : ProxyHandler) (c : Context)
    (order : list (string * list string)) (path : string) (body : bytes) : Job :=
  mkJob body (targetURL h ++ path)%string (forward_headers h (ReqHeader c) order).

End Proxy.

(** ** Concrete requests and configurations used in the examples *)

Module Demo.
Import Proxy.

Definition hello : bytes := list_byte_of_string "hello".
Definition teapot : bytes := list_byte_of_string "teapot".

Definition handler_no_key : ProxyHandler :=
  mkProxyHandler "http://collector:4318" "" false.

Definition handler_key : ProxyHandler :=
  mkProxyHandler "http://collector:4318" "k" false.

Definition handler_sync : ProxyHandler :=
  mkProxyHandler "http://collector:4318" "k" true.

Definition plain_headers : Header :=
  <["Content-Type"%string := ["application/json"%string]]>
    (<["X-Trace"%string := ["a"%string; "b"%string]]>
       (<["Connection"%string := ["close"%string]]> ∅)).

Definition plain_request : Context :=
  mkContext plain_headers (ReadOk hello) ∅.

(** A client that sends its own [Authorization] field. *)
Definition client_auth_headers : Header :=
  <["Authorization"%string := ["Bearer client"%string]]>
    (<["Content-Type"%string := ["application/json"%string]]> ∅).

Definition client_auth_request : Context :=
  mkContext client_auth_headers (ReadOk hello) ∅.

(** A client that sends two [Content-Type] field lines, the first one
    with an empty value. *)
Definition empty_content_type_headers : Header :=
  <["Content-Type"%string := [""%string; "application/json"%string]]> ∅.

Definition empty_content_type_request : Context :=
  mkContext empty_content_type_headers (ReadOk hello) ∅.

(** The request a sender builds for a POST to /v1/logs, with the [range]
    loops visiting the fields in the order of [map_to_list]. *)
Definition upstream_of (h : ProxyHandler) (c : Context) : UpstreamRequest :=
  let job := async_job h c (map_to_list (ReqHeader c)) "/v1/logs" hello in
  sender_request job (map_to_list (Headers job)).

Definition job0 : Job := mkJob hello "http://collector:4318/v1/logs" ∅.
Definition job1 : Job := mkJob teapot "http://collector:4318/v1/traces" ∅.

Definition ok_response : Response :=
  mkResponse 200 ∅ (fresh_body (list_byte_of_string "ok")).

Definition teapot_headers : Header :=
  <["Content-Type"%string := ["text/plain"%string]]>
    (<["Access-Control-Allow-Origin"%string := ["*"%string]]>
       (<["Vary"%string := ["Origin"%string]]> ∅)).

Definition teapot_response : Response :=
  mkResponse 418 teapot_headers (fresh_body teapot).

(** [NewPool(1, 1, 1s)], [NewSemaphoreForwarder(1, 1s)] and
    [NewHybridForwarder(1, 1, 1, 1s)], timeouts in nanoseconds. *)
Definition pool_1_1 : WorkerPool.Pool :=
  WorkerPool.mkPool 1 (mkChan [] 1 false) (mkChan [] 2 false) 1000000000
                    false false [] [] false.

Definition semaphore_1 : Semaphore.SemaphoreForwarder :=
  Semaphore.mkSemaphoreForwarder 1 (mkChan [] 1 false) 0 false false false
                                 1000000000 [] false.

Definition hybrid_1_1_1 : Hybrid.HybridForwarder :=
  Hybrid.mkHybridForwarder 1 (mkChan [] 1 false) (mkChan [] 1 false)
                           false false false 1000000000 [] [] false.

(** One task is with the worker and one is queued when [Stop] is called
    and gives up waiting. *)
Definition pool_stop_times_out : list WorkerPool.Label :=
  [WorkerPool.LStart; WorkerPool.LSubmit job0; WorkerPool.LTake 0;
   WorkerPool.LSubmit job1; WorkerPool.LStop; WorkerPool.LStopReturn true].

(** Afterwards the worker ends the first send and goes on with the
    queued task. *)
Definition pool_after_timeout : list WorkerPool.Label :=
  [WorkerPool.LFinish 0 (Responded ok_response); WorkerPool.LTake 0;
   WorkerPool.LFinish 0 (Responded ok_response)].

(** The same with the semaphore forwarder and a single token. *)
Definition semaphore_stop_times_out : list Semaphore.Label :=
  [Semaphore.LStart; Semaphore.LSubmit job0; Semaphore.LAcquire 0;
   Semaphore.LSubmit job1; Semaphore.LStop; Semaphore.LStopReturn true].

Definition semaphore_after_timeout : list Semaphore.Label :=
  [Semaphore.LFinish 0 (Responded ok_response); Semaphore.LAcquire 1;
   Semaphore.LFinish 1 (Responded ok_response)].

(** Two submits fill the pool with one worker and one queue slot. *)
Definition pool_saturated : list WorkerPool.Label :=
  [WorkerPool.LStart; WorkerPool.LSubmit job0; WorkerPool.LTake 0;
   WorkerPool.LSubmit job1].

Definition pool_saturated_state : WorkerPool.State :=
  WorkerPool.mkState
    (WorkerPool.mkPool 1 (mkChan [job1] 1 false) (mkChan [(); ()] 2 false)
                       1000000000 true false [WorkerPool.Busy job0] [] false)
    (mkMetrics 1 0 0).


End Demo.

(** ** Predicates used to state the properties *)

(** The values of Go's [int]. *)
Definition is_int (z : Z) : Prop := (- 2 ^ 63 ≤ z < 2 ^ 63)%Z.

(** The lower-cased names of the upstream response fields the synchronous
    path leaves out, besides those that start with access-control-. *)
Definition dropped_response_names : list string :=
  ["vary"; "content-length"; "transfer-encoding"; "connection"]%string.

Definition processed_of (os : list SendOutcome) : nat :=
  length (List.filter is_2xx os).

Definition failed_of (os : list SendOutcome) : nat :=
  length (List.filter (λ o, negb (is_2xx o)) os).

(** One ended send adds its outcome to the counters. *)
Definition counts_one (o : SendOutcome) (m m' : Metrics) : Prop :=
  JobsProcessedCounter m' = (JobsProcessedCounter m + processed_of [o])%nat ∧
  JobsFailedCounter m' = (JobsFailedCounter m + failed_of [o])%nat.

Definition counted (os : list SendOutcome) (m m' : Metrics) : Prop :=
  JobsProcessedCounter m' = (JobsProcessedCounter m + processed_of os)%nat ∧
  JobsFailedCounter m' = (JobsFailedCounter m + failed_of os)%nat.

(** Exactly one of the two counters grows, by one, chosen by the outcome. *)
Definition moves_one_counter (o : SendOutcome) (m m' : Metrics) : Prop :=
  if is_2xx o
  then JobsProcessedCounter m' = S (JobsProcessedCounter m) ∧
       JobsFailedCounter m' = JobsFailedCounter m
  else JobsProcessedCounter m' = JobsProcessedCounter m ∧
       JobsFailedCounter m' = S (JobsFailedCounter m).

(** The admission budget of a pool. *)
Definition capacity (p : WorkerPool.Pool) : Z :=
  (WorkerPool.workerCount p + cap (WorkerPool.jobQueue p))%Z.

(** The invariant of the pool: the permits in use cover the outstanding
    tasks, never exceed the budget, and match the outstanding tasks exactly
    until [Stop] is called. *)
Record pool_inv (p : WorkerPool.Pool) : Prop := {
  inv_cap : cap (WorkerPool.permits p) = capacity p;
  inv_held : (WorkerPool.outstanding p ≤ len (WorkerPool.permits p))%Z;
  inv_room : (len (WorkerPool.permits p) ≤ cap (WorkerPool.permits p))%Z;
  inv_open : WorkerPool.stopOnce p = false →
             closed (WorkerPool.jobQueue p) = false ∧
             len (WorkerPool.permits p) = WorkerPool.outstanding p;
  inv_new : WorkerPool.startOnce p = false → WorkerPool.workers p = []
}.





(** ** Observations on histories of the forwarders *)

Module PoolHistory.
Import WorkerPool.

(** The tasks the pool has accepted and no worker has taken, oldest
    first: the queued ones, then those whose submitter waits for a slot. *)
Definition pending (p : Pool) : list Job := buf (jobQueue p) ++ senders p.

(** The task a step makes the pool accept: a submit that got a permit and
    did not hit a closed queue. *)
Definition accepted_by (l : Label) (s : State) : list Job :=
  match l with
  | LSubmit j =>
      match (SubmitJob j (pool s)).1 with
      | Returns None | Blocks => [j]
      | _ => []
      end
  | _ => []
  end.

(** The task a step hands to a worker. *)
Definition taken_by (l : Label) (s : State) : list Job :=
  match l with
  | LTake i =>
      match workers (pool s) !! i, receive (pool s) with
      | Some Idle, Some (j, _) => [j]
      | _, _ => []
      end
  | _ => []
  end.

Fixpoint accepted (t : list Label) (s : State) : list Job :=
  match t with
  | [] => []
  | l :: t' =>
      match step l s with
      | Some s' => accepted_by l s ++ accepted t' s'
      | None => []
      end
  end.

Fixpoint taken (t : list Label) (s : State) : list Job :=
  match t with
  | [] => []
  | l :: t' =>
      match step l s with
      | Some s' => taken_by l s ++ taken t' s'
      | None => []
      end
  end.

(** What holds of the queue, the workers and the gauge in every state a
    pool built by [NewPool] can reach. *)
Record shape (s : State) : Prop := {
  shape_depth : (0 ≤ len (jobQueue (pool s)) ≤ cap (jobQueue (pool s)))%Z;
  shape_wait : senders (pool s) ≠ [] →
               len (jobQueue (pool s)) = cap (jobQueue (pool s)) ∧
               closed (jobQueue (pool s)) = false;
  shape_new : startOnce (pool s) = false → workers (pool s) = [];
  shape_workers : (length (workers (pool s)) ≤ Z.to_nat (workerCount (pool s)))%nat;
  shape_gauge : ActiveWorkersGauge (metrics s) = Z.of_nat (busy (workers (pool s)))
}.

End PoolHistory.

Module SemaphoreHistory.
Import Semaphore.

Definition is_waiting (u : UnitState) : bool :=
  match u with Waiting _ => true | _ => false end.

Definition is_sending (u : UnitState) : bool :=
  match u with Sending _ => true | _ => false end.

Definition waiting (us : list UnitState) : nat := length (List.filter is_waiting us).
Definition sending (us : list UnitState) : nat := length (List.filter is_sending us).

Record shape (s : State) : Prop := {
  shape_waiters : waiters (fwd s) = Z.of_nat (waiting (units (fwd s)));
  shape_tokens : len (tokens (fwd s)) = Z.of_nat (sending (units (fwd s)));
  shape_ceiling : (len (tokens (fwd s)) ≤ cap (tokens (fwd s)))%Z;
  shape_gauge : ActiveWorkersGauge (metrics s) = Z.of_nat (sending (units (fwd s)))
}.

End SemaphoreHistory.

Module HybridHistory.
Import Hybrid.

Definition is_running (x : option Job) : bool :=
  match x with Some _ => true | None => false end.

Definition running (l : list (option Job)) : nat := length (List.filter is_running l).

Record shape (s : State) : Prop := {
  shape_depth : (0 ≤ len (jobQueue (fwd s)) ≤ cap (jobQueue (fwd s)))%Z;
  shape_tokens : len (tokens (fwd s)) = Z.of_nat (running (sends (fwd s)));
  shape_ceiling : (len (tokens (fwd s)) ≤ cap (tokens (fwd s)))%Z;
  shape_gauge : ActiveWorkersGauge (metrics s) = Z.of_nat (running (sends (fwd s)));
  shape_stop : stopped (fwd s) = closed (jobQueue (fwd s))
}.

End HybridHistory.

(** ** More histories *)

Module Scenarios.

(** The semaphore forwarder with one token: the first goroutine sends,
    the second waits for the token. *)
Definition semaphore_one_waiting : list Semaphore.Label :=
  [Semaphore.LStart; Semaphore.LSubmit Demo.job0; Semaphore.LAcquire 0;
   Semaphore.LSubmit Demo.job1].

Definition semaphore_one_waiting_state : Semaphore.State :=
  Semaphore.mkState
    (Semaphore.mkSemaphoreForwarder 1 (mkChan [()] 1 false) 1 true false false
       1000000000 [Semaphore.Sending Demo.job0; Semaphore.Waiting Demo.job1]
       false)
    (mkMetrics 1 0 0).

(** The hybrid forwarder with one dispatcher, one queue slot and one
    token: the first task is with a detached sender, the second fills the
    queue. *)
Definition hybrid_full : list Hybrid.Label :=
  [Hybrid.LStart; Hybrid.LSubmit Demo.job0; Hybrid.LTake 0;
   Hybrid.LDispatch 0; Hybrid.LSubmit Demo.job1].

Definition hybrid_full_state : Hybrid.State :=
  Hybrid.mkState
    (Hybrid.mkHybridForwarder 1 (mkChan [Demo.job1] 1 false)
       (mkChan [()] 1 false) true false false 1000000000 [Hybrid.Idle]
       [Some Demo.job0] false)
    (mkMetrics 1 0 0).

End Scenarios.

(** ** Properties of header sets *)

(** What holds of every field of a header set built by [Add] and [Set]
    alone: a property of the name, and at least one value. *)
Definition fields_satisfy (P : string → Prop) (h : Header) : Prop :=
  ∀ k vals, h !! k = Some vals → P k ∧ vals ≠ [].

(** The names the ingress adapter lets through: canonical, not [Host],
    not hop-by-hop. *)
Definition forwardable (k : string) : Prop :=
  CanonicalMIMEHeaderKey k = k ∧
  EqualFold k "Host" = false ∧
  Proxy.isHopByHop k = false.

(** ** Accounting of accepted tasks *)

Module Accounting.

(** A submit to the semaphore forwarder spawns a goroutine unless the
    forwarder is stopped. *)
Definition semaphore_spawns (l : Semaphore.Label) (s : Semaphore.State) : nat :=
  match l with
  | Semaphore.LSubmit _ =>
      if Semaphore.stopped (Semaphore.fwd s) then 0 else 1
  | _ => 0
  end.

Fixpoint semaphore_spawned (t : list Semaphore.Label) (s : Semaphore.State) : nat :=
  match t with
  | [] => 0
  | l :: t' =>
      match Semaphore.step l s with
      | Some s' => semaphore_spawns l s + semaphore_spawned t' s'
      | None => 0
      end
  end.

(** The submits the semaphore forwarder answered with nil without
    spawning anything. *)
Fixpoint semaphore_dropped (t : list Semaphore.Label) (s : Semaphore.State) : nat :=
  match t with
  | [] => 0
  | l :: t' =>
      match Semaphore.step l s with
      | Some s' =>
          match l with
          | Semaphore.LSubmit _ =>
              if Semaphore.stopped (Semaphore.fwd s) then 1 else 0
          | _ => 0
          end + semaphore_dropped t' s'
      | None => 0
      end
  end.

Definition is_done (u : Semaphore.UnitState) : bool :=
  match u with Semaphore.Done => true | _ => false end.

(** A submit the hybrid forwarder answered with nil. *)
Definition hybrid_accepts (l : Hybrid.Label) (s : Hybrid.State) : nat :=
  match l with
  | Hybrid.LSubmit j =>
      match (Hybrid.Submit (Body j) (TargetURL j) (Headers j) (Hybrid.fwd s)).1 with
      | Returns None => 1
      | _ => 0
      end
  | _ => 0
  end.

Fixpoint hybrid_accepted (t : list Hybrid.Label) (s : Hybrid.State) : nat :=
  match t with
  | [] => 0
  | l :: t' =>
      match Hybrid.step l s with
      | Some s' => hybrid_accepts l s + hybrid_accepted t' s'
      | None => 0
      end
  end.

Definition is_holding (w : Hybrid.WorkerState) : bool :=
  match w with Hybrid.Holding _ => true | _ => false end.

(** The dispatchers that hold a task while they wait for a token. *)
Definition holding (ws : list Hybrid.WorkerState) : nat :=
  length (List.filter is_holding ws).

(** The tasks counted as processed or failed. *)
Definition ended (m : Metrics) : nat :=
  JobsProcessedCounter m + JobsFailedCounter m.

End Accounting.

(** ** Configuration (internal/config/config.go) *)

Module Config.

Record Config := mkConfig {
  OtelCollectorTargetURL : string;
  OtelCollectorAPIKey : string;
  ShutdownDrainSeconds : Z;
  ShutdownTimeoutSeconds : Z;
  ServerPort : Z;
  WorkerPoolSize : Z;
  JobQueueSize : Z;
  AllowedOrigins : list string;
  MaxRequestSizeMB : Z;
  ForwardingMode : string;
  SemaphoreMaxConcurrent : Z;
  SyncLogsDebug : bool
}.

(** What viper hands to [Load]: [ReadInConfig] fails, [Unmarshal] fails,
    or the struct filled from the file and the defaults. *)
Inductive ViperResult :=
  | ReadInConfigError (err : string)
  | UnmarshalError (err : string)
  | Unmarshalled (c : Config).

Inductive LoadResult :=
  | Loaded (c : Config)
  | LoadError (msg : string).

Definition set_ForwardingMode (m : string) (c : Config) : Config :=
  mkConfig (OtelCollectorTargetURL c) (OtelCollectorAPIKey c)
    (ShutdownDrainSeconds c) (ShutdownTimeoutSeconds c) (ServerPort c)
    (WorkerPoolSize c) (JobQueueSize c) (AllowedOrigins c)
    (MaxRequestSizeMB c) m (SemaphoreMaxConcurrent c) (SyncLogsDebug c).

Definition set_SemaphoreMaxConcurrent (n : Z) (c : Config) : Config :=
  mkConfig (OtelCollectorTargetURL c) (OtelCollectorAPIKey c)
    (ShutdownDrainSeconds c) (ShutdownTimeoutSeconds c) (ServerPort c)
    (WorkerPoolSize c) (JobQueueSize c) (AllowedOrigins c)
    (MaxRequestSizeMB c) (ForwardingMode c) n (SyncLogsDebug c).

(** [Load], after viper has read and unmarshalled the file. The [switch]
    on the forwarding mode compares with its cases from top to bottom. *)
Definition Load (v : ViperResult) : LoadResult :=
  match v with
  | ReadInConfigError err => LoadError ("failed to read config file: " ++ err)
  | UnmarshalError err => LoadError ("failed to unmarshal config: " ++ err)
  | Unmarshalled config =>
      if String.eqb (OtelCollectorTargetURL config) ""
      then LoadError "otel_collector_target_url is required in config file"
      else
        let config :=
          if String.eqb (ForwardingMode config) "pool"
             || String.eqb (ForwardingMode config) "semaphore"
             || String.eqb (ForwardingMode config) "hybrid"
          then config
          else if String.eqb (ForwardingMode config) ""
          then set_ForwardingMode "pool" config
          else set_ForwardingMode "pool" config in
        let config :=
          if (SemaphoreMaxConcurrent config <=? 0)%Z
          then set_SemaphoreMaxConcurrent 10000 config
          else config in
        Loaded config
  end.

End Config.

(** ** The application (internal/app/app.go) *)

Module App.
Import Config.

(** The value behind the [forwarder.Forwarder] interface. *)
Inductive ForwarderImpl :=
  | PoolFwd (pf : PoolAdapter.PoolForwarder)
  | SemaphoreFwd (f : Semaphore.SemaphoreForwarder)
  | HybridFwd (h : Hybrid.HybridForwarder).

Definition impl_Start (f : ForwarderImpl) : ForwarderImpl :=
  match f with
  | PoolFwd pf => PoolFwd (PoolAdapter.Start pf)
  | SemaphoreFwd s => SemaphoreFwd (Semaphore.Start s)
  | HybridFwd h => HybridFwd (Hybrid.Start h)
  end.

Definition impl_Stop (f : ForwarderImpl) : ForwarderImpl :=
  match f with
  | PoolFwd pf => PoolFwd (PoolAdapter.Stop pf)
  | SemaphoreFwd s => SemaphoreFwd (Semaphore.Stop s)
  | HybridFwd h => HybridFwd (Hybrid.Stop h)
  end.

Definition impl_Submit (body : bytes) (targetURL : string) (headers : Header)
    (f : ForwarderImpl) : SubmitResult * ForwarderImpl :=
  match f with
  | PoolFwd pf =>
      let '(r, pf') := PoolAdapter.Submit body targetURL headers pf in
      (r, PoolFwd pf')
  | SemaphoreFwd s =>
      let '(r, s') := Semaphore.Submit body targetURL headers s in
      (r, SemaphoreFwd s')
  | HybridFwd h =>
      let '(r, h') := Hybrid.Submit body targetURL headers h in
      (r, HybridFwd h')
  end.

Definition impl_GetQueueDepth (f : ForwarderImpl) : Z :=
  match f with
  | PoolFwd pf => PoolAdapter.GetQueueDepth pf
  | SemaphoreFwd s => Semaphore.GetQueueDepth s
  | HybridFwd h => Hybrid.GetQueueDepth h
  end.

(** The part of [App] the lifecycle hooks set: the forwarder and the
    proxy handler among [httpHandlers]. [workerPool] is the pool inside
    the [PoolForwarder] and is read nowhere. *)
Record App := mkApp {
  config : Config;
  readiness : bool;
  forwarder : option ForwarderImpl;
  proxyHandler : option Proxy.ProxyHandler
}.

Definition NewApp (cfg : Config) : App := mkApp cfg false None None.

(** [time.Second], in nanoseconds. *)
Definition Second : Z := 1000000000.

(** [injectDependency]; [None] when a constructor panics in [make]. *)
Definition injectDependency (numCPU : Z) (a : App) : option App :=
  let cfg := config a in
  let shutdownTimeout := int_mul (ShutdownTimeoutSeconds cfg) Second in
  fw ← (if String.eqb (ForwardingMode cfg) "semaphore" then
          SemaphoreFwd <$>
            Semaphore.NewSemaphoreForwarder (SemaphoreMaxConcurrent cfg)
                                            shutdownTimeout
        else if String.eqb (ForwardingMode cfg) "hybrid" then
          HybridFwd <$>
            Hybrid.NewHybridForwarder (WorkerPoolSize cfg) (JobQueueSize cfg)
                                      (SemaphoreMaxConcurrent cfg) shutdownTimeout
        else
          (λ p, PoolFwd (PoolAdapter.NewPoolForwarder (Some p))) <$>
            WorkerPool.NewPool numCPU (WorkerPoolSize cfg) (JobQueueSize cfg)
                               shutdownTimeout);
  Some (mkApp cfg (readiness a) (Some fw)
          (Some (Proxy.mkProxyHandler (OtelCollectorTargetURL cfg)
                   (OtelCollectorAPIKey cfg) (SyncLogsDebug cfg)))).

(** [preProcess]: start the forwarder, when there is one. *)
Definition preProcess (a : App) : App :=
  match forwarder a with
  | Some fw => mkApp (config a) (readiness a) (Some (impl_Start fw)) (proxyHandler a)
  | None => a
  end.

End App.

#[export] Instance impl_forwarder : Forwarder App.ForwarderImpl := {
  Start := App.impl_Start;
  Stop := App.impl_Stop;
  Submit := App.impl_Submit;
  GetQueueDepth := App.impl_GetQueueDepth
}.

(** A configuration file that spells the mode in capitals and gives no
    concurrency ceiling, and what [Load] makes of it. *)
Module WiringDemo.
Import Config.

Definition from_file : Config :=
  mkConfig "http://collector:4318" "k" 2 10 8080 0 10000 ["*"%string] 1
           "SEMAPHORE" 0 false.

Definition loaded : Config :=
  mkConfig "http://collector:4318" "k" 2 10 8080 0 10000 ["*"%string] 1
           "pool" 10000 false.

Definition semaphore_mode : Config :=
  mkConfig "http://collector:4318" "k" 2 10 8080 0 10000 ["*"%string] 1
           "semaphore" 64 false.

End WiringDemo.

(** ** The load generator (cmd/loadtest/loadtest.go) *)

Module LoadTest.

(** What one request of the load test came to. *)
Record Result := mkResult {
  statusCode : Z;
  latency : Z;
  err : option string;
  errorBodySnippet : string
}.

(** [truncateForPrint]: [s[:max] + "..."] for a string longer than a
    positive [max]. *)
Definition truncateForPrint (s : string) (max : Z) : string :=
  if (max <=? 0)%Z || (Z.of_nat (String.length s) <=? max)%Z then s
  else (String.substring 0 (Z.to_nat max) s ++ "...")%string.

(** [fmt.Sprintf("%d", n)] *)
Definition itoa (n : Z) : string := NilZero.string_of_int (Z.to_int n).

(** The variables of the summary loop in [main]. *)
Record Tally := mkTally {
  latencies : list Z;
  successCount : nat;
  errorCount : nat;
  statusCounters : gmap Z nat;
  errorKinds : gmap string nat
}.

Definition tally0 : Tally := mkTally [] 0 0 ∅ ∅.

(** [m[k]++] on a map of counts. *)
Definition bump `{Countable K} (m : gmap K nat) (k : K) : gmap K nat :=
  <[k := S (default 0%nat (m !! k))]> m.

(** One iteration of [for r := range results]. *)
Definition tally_one (t : Tally) (r : Result) : Tally :=
  match err r with
  | Some e =>
      mkTally (latencies t ++ [latency r]) (successCount t) (S (errorCount t))
              (statusCounters t) (bump (errorKinds t) e)
  | None =>
      let counters := bump (statusCounters t) (statusCode r) in
      if (statusCode r >=? 200)%Z && (statusCode r <? 400)%Z then
        mkTally (latencies t ++ [latency r]) (S (successCount t)) (errorCount t)
                counters (errorKinds t)
      else
        let key := ("HTTP " ++ itoa (statusCode r))%string in
        let key :=
          if negb (String.eqb (errorBodySnippet r) "")
          then (key ++ ": " ++ truncateForPrint (errorBodySnippet r) 120)%string
          else key in
        mkTally (latencies t ++ [latency r]) (successCount t) (S (errorCount t))
                counters (bump (errorKinds t) key)
  end.

(** The loop over the results, in the order they are received. *)
Definition tally (results : list Result) : Tally :=
  foldl tally_one tally0 results.

(** The sum of the counts in a map. *)
Definition total `{Countable K} (m : gmap K nat) : nat :=
  sum_list (snd <$> map_to_list m).

Definition answered (r : Result) : bool :=
  match err r with None => true | Some _ => false end.

Definition succeeded (r : Result) : bool :=
  answered r && (200 <=? statusCode r)%Z && (statusCode r <? 400)%Z.

Definition sample : list Result :=
  [mkResult 202 5 None ""; mkResult 503 7 None "queue full";
   mkResult 0 9 (Some "timeout"%string) ""].

End LoadTest.

(** ** Calls of Submit that Stop overtakes

    [Submit] reads the [stopped] flag and then acts. In the histories
    above a call runs from the read to its return in one step. In the
    histories below a call may also pause between the two, so that any
    step of the forwarder, [Stop] and its return included, can fall in
    the gap. [Stop] itself stays one step: between its store to the flag
    and what follows a call sees the flag set and returns at once. *)

Module SemaphoreCalls.

(** What [Submit] does once it has read [stopped] as false: [wg.Add(1)]
    and the new goroutine, up to its wait for a token. *)
Definition spawn (j : Job) (s : Semaphore.SemaphoreForwarder)
  : Semaphore.SemaphoreForwarder :=
  Semaphore.mkSemaphoreForwarder (Semaphore.maxConcurrent s)
    (Semaphore.tokens s) (Semaphore.waiters s + 1) (Semaphore.startOnce s)
    (Semaphore.stopOnce s) (Semaphore.stopped s) (Semaphore.shutdownTimeout s)
    (Semaphore.units s ++ [Semaphore.Waiting j]) (Semaphore.stopWait s).

(** A forwarder and the calls of [Submit] that have read [stopped] as
    false: [Some j] until the goroutine is spawned, [None] from then on. *)
Record State := mkState {
  base : Semaphore.State;
  calls : list (option Job)
}.

Inductive Label :=
  | LStep (l : Semaphore.Label)
  | LSubmitCheck (j : Job)
  | LSubmitSpawn (k : nat).

Definition step (l : Label) (s : State) : option State :=
  match l with
  | LStep l0 => b ← Semaphore.step l0 (base s); Some (mkState b (calls s))
  | LSubmitCheck j =>
      if Semaphore.stopped (Semaphore.fwd (base s)) then Some s
      else Some (mkState (base s) (calls s ++ [Some j]))
  | LSubmitSpawn k =>
      match calls s !! k with
      | Some (Some j) =>
          Some (mkState
                  (Semaphore.mkState (spawn j (Semaphore.fwd (base s)))
                                     (Semaphore.metrics (base s)))
                  (<[k := None]> (calls s)))
      | _ => None
      end
  end.

Fixpoint run (t : list Label) (s : State) : option State :=
  match t with
  | [] => Some s
  | l :: t' => s' ← step l s; run t' s'
  end.

Definition init (f : Semaphore.SemaphoreForwarder) : State :=
  mkState (Semaphore.init f) [].

Definition is_post (l : Label) : bool :=
  match l with LStep l0 => Semaphore.is_post l0 | _ => false end.


End SemaphoreCalls.

Module HybridCalls.

(** The [select] of [Submit], which follows its read of [stopped]. *)
Definition send (job : Job) (h : Hybrid.HybridForwarder)
  : SubmitResult * Hybrid.HybridForwarder :=
  if closed (Hybrid.jobQueue h) then (Panics "send on closed channel", h)
  else if has_room (Hybrid.jobQueue h) then
    (Returns None,
     Hybrid.mkHybridForwarder (Hybrid.workerCount h)
       (push (Hybrid.jobQueue h) job) (Hybrid.tokens h) (Hybrid.startOnce h)
       (Hybrid.stopOnce h) (Hybrid.stopped h) (Hybrid.shutdownTimeout h)
       (Hybrid.workers h) (Hybrid.sends h) (Hybrid.stopWait h))
  else (Returns (Some "hybrid queue full"%string), h).

(** A forwarder and the calls of [Submit] that have read [stopped] as
    false: [Some j] until the [select] has run, [None] from then on. *)
Record State := mkState {
  base : Hybrid.State;
  calls : list (option Job)
}.

Inductive Label :=
  | LStep (l : Hybrid.Label)
  | LSubmitCheck (j : Job)
  | LSubmitSend (k : nat).

Definition step (l : Label) (s : State) : option State :=
  match l with
  | LStep l0 => b ← Hybrid.step l0 (base s); Some (mkState b (calls s))
  | LSubmitCheck j =>
      if Hybrid.stopped (Hybrid.fwd (base s)) then Some s
      else Some (mkState (base s) (calls s ++ [Some j]))
  | LSubmitSend k =>
      match calls s !! k with
      | Some (Some j) =>
          Some (mkState
                  (Hybrid.mkState (send j (Hybrid.fwd (base s))).2
                                  (Hybrid.metrics (base s)))
                  (<[k := None]> (calls s)))
      | _ => None
      end
  end.

Fixpoint run (t : list Label) (s : State) : option State :=
  match t with
  | [] => Some s
  | l :: t' => s' ← step l s; run t' s'
  end.

Definition init (h : Hybrid.HybridForwarder) : State :=
  mkState (Hybrid.init h) [].

Definition is_post (l : Label) : bool :=
  match l with LStep l0 => Hybrid.is_post l0 | _ => false end.

End HybridCalls.

(** What [handleAsync] makes of the result of [Submit]. *)
Definition reply_of (c : Proxy.Context) (r : SubmitResult) : Proxy.HandlerResult :=
  match r with
  | Returns (Some _) => Proxy.Reply (Proxy.NoContent c StatusServiceUnavailable)
  | Returns None => Proxy.Reply (Proxy.NoContent c StatusAccepted)
  | Panics msg => Proxy.HandlerPanics msg
  | Blocks => Proxy.HandlerBlocked
  end.

(** Histories in which [Stop] returns with its wait completed and a task
    is sent afterwards. *)
Module StopRaces.




(** A call of [Submit] on the hybrid forwarder reads the flag and [Stop]
    runs before the call sends. *)
Definition hybrid_overtaken : list HybridCalls.Label :=
  [HybridCalls.LStep Hybrid.LStart;
   HybridCalls.LSubmitCheck Demo.job0;
   HybridCalls.LStep Hybrid.LStop].

Definition hybrid_overtaken_state : HybridCalls.State :=
  HybridCalls.mkState
    (Hybrid.mkState
       (Hybrid.mkHybridForwarder 1 (mkChan [] 1 true) (mkChan [] 1 false)
          true true true 1000000000 [Hybrid.Idle] [] true)
       metrics0)
    [Some Demo.job0].



End StopRaces.

(** * Verified properties *)

Example canon_content_type : CanonicalMIMEHeaderKey "content-type" = "Content-Type"%string.
Proof. reflexivity. Qed.

Example canon_invalid : CanonicalMIMEHeaderKey "x y" = "x y"%string.
Proof. reflexivity. Qed.

Example canon_trace_header : CanonicalMIMEHeaderKey "x-b3-TRACEID" = "X-B3-Traceid"%string.
Proof. reflexivity. Qed.

Example hop_by_hop_names :
  map Proxy.isHopByHop
      ["Connection"; "keep-alive"; "Proxy-Authenticate"; "Proxy-Authorization";
       "TE"; "Trailer"; "Transfer-Encoding"; "UPGRADE"; "Proxy-Connection";
       "Authorization"; "Content-Type"; "Host"; "X-Trace"]%string
  = [true; true; true; true; true; true; true; true; true;
     false; false; false; false].
Proof. reflexivity. Qed.

Example host_any_case :
  map (λ k, EqualFold k "Host") ["Host"; "host"; "HOST"; "Hosts"; "X-Host"]%string
  = [true; true; true; false; false].
Proof. reflexivity. Qed.

Example skipped_response_names :
  map Proxy.skip_response_header
      ["Access-Control-Allow-Origin"; "access-control-max-age"; "Vary";
       "Content-Length"; "Transfer-Encoding"; "Connection";
       "Content-Type"; "X-Request-Id"; "Access-Control"]%string
  = [true; true; true; true; true; true; false; false; false].
Proof. reflexivity. Qed.

(** Scenario: POST /v1/logs with body "hello" and credential "k"; the
    request for the collector carries the body, the credential and the
    client's fields except the hop-by-hop Connection. *)
Example upstream_of_plain_request :
  Demo.upstream_of Demo.handler_key Demo.plain_request
  = mkUpstreamRequest "POST" "http://collector:4318/v1/logs" Demo.hello
      (<["Authorization"%string := ["k"%string]]>
         (<["Content-Type"%string := ["application/json"%string]]>
            (<["X-Trace"%string := ["a"%string; "b"%string]]> ∅))).
Proof. vm_compute. reflexivity. Qed.

(** ** The pooled forwarder: permits bound the outstanding tasks *)

Section PoolInvariant.
Import WorkerPool.

Lemma int_wrap_range z : is_int (int_wrap z).
Proof.
  unfold is_int, int_wrap.
  pose proof (Z.mod_pos_bound (z + 2 ^ 63) (2 ^ 64) eq_refl) as Hm.
  change (2 ^ 64)%Z with (2 * 2 ^ 63)%Z in *.
  revert Hm. generalize (2 ^ 63)%Z as k. intros k Hm. lia.
Qed.

Lemma int_wrap_nonneg a b :
  is_int a → is_int b → (0 ≤ b)%Z →
  (0 ≤ int_wrap (a + b))%Z → int_wrap (a + b) = (a + b)%Z.
Proof.
  unfold is_int, int_wrap.
  change (2 ^ 64)%Z with (2 * 2 ^ 63)%Z.
  assert (0 < 2 ^ 63)%Z as Hk by reflexivity.
  revert Hk. generalize (2 ^ 63)%Z as k.
  intros k Hk Ha Hb Hb0 Hs.
  destruct (Z_lt_ge_dec (a + b) k) as [Hlt | Hge].
  - rewrite Z.mod_small by lia. lia.
  - replace (a + b + k)%Z with ((a + b - k) + 1 * (2 * k))%Z in Hs by lia.
    rewrite Z.mod_add in Hs by lia.
    rewrite Z.mod_small in Hs by lia. lia.
Qed.

Lemma busy_insert ws i w w' :
  ws !! i = Some w →
  (busy (<[i := w']> ws) + Nat.b2n (is_busy w) = busy ws + Nat.b2n (is_busy w'))%nat.
Proof.
  revert i. induction ws as [| x ws IH]; intros [| i] Hi; simpl in *; try discriminate.
  - injection Hi as ->. unfold busy. simpl.
    destruct (is_busy w), (is_busy w'); simpl; lia.
  - specialize (IH i Hi). unfold busy in *. simpl.
    destruct (is_busy x); simpl; lia.
Qed.

Lemma busy_replicate_idle n : busy (replicate n Idle) = 0%nat.
Proof. induction n; [reflexivity | exact IHn]. Qed.

Lemma len_push {A} (c : Chan A) x : len (push c x) = (len c + 1)%Z.
Proof. unfold len, push. simpl. rewrite length_app. simpl. lia. Qed.

Lemma len_pop {A} (c : Chan A) x l : buf c = x :: l → len (pop c) = (len c - 1)%Z.
Proof. unfold len, pop. simpl. intros ->. simpl. lia. Qed.

Lemma has_room_true {A} (c : Chan A) : has_room c = true ↔ (len c < cap c)%Z.
Proof. unfold has_room. apply Z.ltb_lt. Qed.

Lemma has_room_false {A} (c : Chan A) : has_room c = false ↔ (cap c ≤ len c)%Z.
Proof. unfold has_room. apply Z.ltb_ge. Qed.

Lemma NewPool_inv numCPU W Q timeout p :
  is_int W → is_int Q →
  NewPool numCPU W Q timeout = Some p → pool_inv p.
Proof.
  intros HW HQ. unfold NewPool.
  set (wc := if (W <=? 0)%Z then _ else _).
  set (qs := if (Q <=? 0)%Z then _ else _).
  assert (is_int wc) as Hwc.
  { subst wc. destruct (W <=? 0)%Z; [apply int_wrap_range | done]. }
  assert (is_int qs ∧ 0 ≤ qs)%Z as [Hqs Hqs0].
  { subst qs. destruct (Z.leb_spec Q 0); [unfold is_int; lia | split; [done | lia]]. }
  unfold make. destruct (qs <? 0)%Z eqn:Eq; [discriminate |]. simpl.
  destruct (int_add wc qs <? 0)%Z eqn:Ep; [discriminate |]. simpl.
  intros [= <-]. apply Z.ltb_ge in Ep.
  split; simpl; unfold capacity, outstanding, len; simpl; try lia; try done.
  unfold int_add in *. by apply int_wrap_nonneg.
Qed.

Ltac pool_inv_close Hopen Hnew :=
  split; simpl; unfold outstanding, capacity in *; simpl in *;
  repeat match goal with
         | H : buf ?c = _ |- context [buf ?c] => rewrite H
         | H : senders ?p = _ |- context [senders ?p] => rewrite H
         end;
  rewrite ?len_push, ?length_app, ?busy_replicate_idle; simpl;
  try match goal with
      | |- _ = false → _ =>
          let Hs := fresh "Hs" in
          intros Hs;
          try (destruct (Hopen Hs) as [? ?]);
          try (specialize (Hnew Hs))
      end;
  first [ lia | congruence | done | (split; [congruence | lia])
        | match goal with
          | H : workers _ = [], H' : workers _ !! _ = Some _ |- _ =>
              rewrite H in H'; discriminate
          end ].

Lemma step_inv l s s' : pool_inv (pool s) → step l s = Some s' → pool_inv (pool s').
Proof.
  intros [Hcap Hheld Hroom Hopen Hnew]. destruct s as [p m]. simpl in *.
  destruct l as [| j | i | i o | i | | timedOut]; simpl.
  - (* Start *)
    intros [= <-]. simpl. unfold Start.
    destruct (startOnce p) eqn:Es; [split; first [assumption | congruence] |].
    pose proof (Hnew eq_refl) as Hw.
    unfold outstanding in *. rewrite Hw in *. simpl in *.
    pool_inv_close Hopen Hnew.
  - (* SubmitJob *)
    intros [= <-]. simpl. unfold SubmitJob.
    destruct (has_room (permits p)) eqn:Er;
      [| split; first [assumption | congruence]].
    apply has_room_true in Er. simpl.
    destruct (closed (jobQueue p)) eqn:Ec; simpl.
    + pool_inv_close Hopen Hnew.
    + destruct (has_room (jobQueue p)) eqn:Eq; simpl; pool_inv_close Hopen Hnew.
  - (* a worker takes a job *)
    destruct (workers p !! i) as [[| |] |] eqn:Ew; try discriminate.
    unfold receive. destruct (buf (jobQueue p)) as [| j q] eqn:Eb; [discriminate |].
    pose proof (busy_insert (workers p) i Idle (Busy j) Ew) as Hb. simpl in Hb.
    unfold outstanding in *. rewrite Eb in *.
    destruct (senders p) as [| sd rest] eqn:Esd; simpl; intros [= <-]; simpl.
    + pool_inv_close Hopen Hnew.
    + pool_inv_close Hopen Hnew.
  - (* a worker finishes a job *)
    destruct (workers p !! i) as [[| j |] |] eqn:Ew; try discriminate.
    destruct (buf (permits p)) as [| u pm] eqn:Ep; [discriminate |].
    intros [= <-]. simpl.
    pose proof (busy_insert (workers p) i (Busy j) Idle Ew) as Hb. simpl in Hb.
    pose proof (len_pop _ _ _ Ep) as Hl.
    pool_inv_close Hopen Hnew.
  - (* a worker leaves its loop *)
    destruct (workers p !! i) as [[| |] |] eqn:Ew; try discriminate.
    destruct (buf (jobQueue p)) as [| ] eqn:Eb; [| discriminate].
    destruct (closed (jobQueue p)) eqn:Ec; [| discriminate].
    intros [= <-]. simpl.
    pose proof (busy_insert (workers p) i Idle Exited Ew) as Hb. simpl in Hb.
    unfold outstanding in *. rewrite Eb in *.
    pool_inv_close Hopen Hnew.
  - (* Stop *)
    intros [= <-]. simpl. unfold Stop.
    destruct (stopOnce p) eqn:Es; [split; first [assumption | congruence] |].
    pool_inv_close Hopen Hnew.
  - (* Stop returns *)
    destruct (stopWait p && _); [| discriminate].
    intros [= <-]. split; first [assumption | congruence].
Qed.

Lemma run_inv t s s' : pool_inv (pool s) → run t s = Some s' → pool_inv (pool s').
Proof.
  revert s. induction t as [| l t IH]; intros s Hinv; simpl.
  - by intros [= <-].
  - destruct (step l s) as [s1 |] eqn:Es; [| discriminate]. simpl.
    apply IH. eapply step_inv; eauto.
Qed.

End PoolInvariant.

Section PoolBound.
Import WorkerPool.

Lemma step_fixed l s s' :
  step l s = Some s' →
  workerCount (pool s') = workerCount (pool s) ∧
  cap (jobQueue (pool s')) = cap (jobQueue (pool s)).
Proof.
  destruct s as [p m]. destruct l as [| j | i | i o | i | | timedOut]; simpl.
  - intros [= <-]. simpl. unfold Start. by destruct (startOnce p).
  - intros [= <-]. simpl. unfold SubmitJob.
    destruct (has_room (permits p)); [| done]. simpl.
    destruct (closed (jobQueue p)); [done |].
    by destruct (has_room (jobQueue p)).
  - destruct (workers p !! i) as [[| |] |]; try discriminate.
    unfold receive. destruct (buf (jobQueue p)); [discriminate |].
    destruct (senders p); simpl; by intros [= <-].
  - destruct (workers p !! i) as [[| |] |]; try discriminate.
    destruct (buf (permits p)); [discriminate |]. by intros [= <-].
  - destruct (workers p !! i) as [[| |] |]; try discriminate.
    destruct (buf (jobQueue p)); [| discriminate].
    destruct (closed (jobQueue p)); [| discriminate]. by intros [= <-].
  - intros [= <-]. simpl. unfold Stop. by destruct (stopOnce p).
  - destruct (stopWait p && _); [| discriminate]. by intros [= <-].
Qed.

Lemma run_fixed t s s' :
  run t s = Some s' →
  workerCount (pool s') = workerCount (pool s) ∧
  cap (jobQueue (pool s')) = cap (jobQueue (pool s)).
Proof.
  revert s. induction t as [| l t IH]; intros s; simpl.
  - by intros [= <-].
  - destruct (step l s) as [s1 |] eqn:Es; [| discriminate]. simpl.
    intros Hr. destruct (IH _ Hr) as [-> ->]. by apply step_fixed in Es.
Qed.

Lemma NewPool_fields numCPU W Q timeout p :
  NewPool numCPU W Q timeout = Some p →
  workerCount p = (if (W <=? 0)%Z then int_mul 50 numCPU else W) ∧
  cap (jobQueue p) = (if (Q <=? 0)%Z then 10000%Z else Q).
Proof.
  unfold NewPool, make.
  destruct ((if (Q <=? 0)%Z then _ else _) <? 0)%Z; [discriminate |]. simpl.
  destruct (int_add _ _ <? 0)%Z; [discriminate |]. simpl.
  by intros [= <-].
Qed.

Lemma SubmitJob_rejects job p :
  (∃ e, (SubmitJob job p).1 = Returns (Some e)) ↔ has_room (permits p) = false.
Proof.
  unfold SubmitJob. destruct (has_room (permits p)); simpl.
  - split; [| done]. intros [e He].
    destruct (closed (jobQueue p)); [done |].
    by destruct (has_room (jobQueue p)).
  - split; [done |]. intros _. by eexists.
Qed.

Lemma NewPool_not_stopped numCPU W Q timeout p :
  NewPool numCPU W Q timeout = Some p → stopOnce p = false.
Proof.
  unfold NewPool, make.
  destruct ((if (Q <=? 0)%Z then _ else _) <? 0)%Z; [discriminate |]. simpl.
  destruct (int_add _ _ <? 0)%Z; [discriminate |]. simpl.
  by intros [= <-].
Qed.

Lemma pool_step_not_stopped l s s' :
  step l s = Some s' → l ≠ LStop → stopOnce (pool s) = false →
  stopOnce (pool s') = false.
Proof.
  destruct s as [p m]. destruct l as [| j | i | i o | i | | timedOut]; simpl.
  - intros [= <-] _. simpl. unfold Start. by destruct (startOnce p).
  - intros [= <-] _. simpl. unfold SubmitJob.
    destruct (has_room (permits p)); [| done]. simpl.
    destruct (closed (jobQueue p)); [done |].
    by destruct (has_room (jobQueue p)).
  - destruct (workers p !! i) as [[| |] |]; try discriminate.
    unfold receive. destruct (buf (jobQueue p)); [discriminate |].
    destruct (senders p); simpl; by intros [= <-].
  - destruct (workers p !! i) as [[| |] |]; try discriminate.
    destruct (buf (permits p)); [discriminate |]. by intros [= <-].
  - destruct (workers p !! i) as [[| |] |]; try discriminate.
    destruct (buf (jobQueue p)); [| discriminate].
    destruct (closed (jobQueue p)); [| discriminate]. by intros [= <-].
  - done.
  - destruct (stopWait p && _); [| discriminate]. by intros [= <-].
Qed.

Lemma pool_run_not_stopped t s s' :
  run t s = Some s' → LStop ∉ t → stopOnce (pool s) = false →
  stopOnce (pool s') = false.
Proof.
  revert s. induction t as [| l t IH]; intros s; simpl.
  - by intros [= <-].
  - destruct (step l s) as [s1 |] eqn:Es; [| discriminate]. simpl.
    intros Hr Hns Hs. apply not_elem_of_cons in Hns as [Hne Hns].
    apply (IH s1 Hr Hns). eapply pool_step_not_stopped; eauto.
Qed.

(** C1. For the pool built by [NewPool] the tasks that hold a permit
    (inside [SubmitJob], queued, or with a worker) never exceed the worker
    count plus the queue capacity, whatever sequence of submits, takes and
    completions has run; as long as [Stop] has not been called, as in
    every history made of submits and completions only, [SubmitJob]
    returns its rejection error exactly when that bound is reached; every submit that is not rejected acquires one permit, and
    every way a worker ends a task releases one. *)
Theorem pool_outstanding_bounded numCPU W Q timeout p t s :
  is_int W → is_int Q →
  NewPool numCPU W Q timeout = Some p →
  run t (init p) = Some s →
  workerCount (pool s) = (if (W <=? 0)%Z then int_mul 50 numCPU else W) ∧
  cap (jobQueue (pool s)) = (if (Q <=? 0)%Z then 10000%Z else Q) ∧
  (outstanding (pool s) ≤ workerCount (pool s) + cap (jobQueue (pool s)))%Z ∧
  (LStop ∉ t → stopOnce (pool s) = false) ∧
  (stopOnce (pool s) = false →
   ∀ job, (∃ e, (SubmitJob job (pool s)).1 = Returns (Some e)) ↔
          outstanding (pool s) = (workerCount (pool s) + cap (jobQueue (pool s)))%Z) ∧
  (∀ job, has_room (permits (pool s)) = true →
          len (permits (SubmitJob job (pool s)).2) = (len (permits (pool s)) + 1)%Z) ∧
  (∀ i o s', step (LFinish i o) s = Some s' →
             len (permits (pool s')) = (len (permits (pool s)) - 1)%Z).
Proof.
  intros HW HQ Hnew Hrun.
  pose proof (NewPool_inv _ _ _ _ _ HW HQ Hnew) as Hinv0.
  pose proof (run_inv t (init p) s Hinv0 Hrun) as [Hcap Hheld Hroom Hopen _].
  destruct (run_fixed _ _ _ Hrun) as [Hwc Hqc]. simpl in Hwc, Hqc.
  destruct (NewPool_fields _ _ _ _ _ Hnew) as [Hw Hq].
  unfold capacity in Hcap.
  split; [congruence |]. split; [congruence |]. split; [lia |].
  split; [intros Hns; apply (pool_run_not_stopped t (init p) s Hrun Hns);
          by apply (NewPool_not_stopped _ _ _ _ _ Hnew) |].
  split; [| split].
  - intros Hs job. destruct (Hopen Hs) as [_ Heq].
    rewrite SubmitJob_rejects, has_room_false. lia.
  - intros job Hr. unfold SubmitJob. rewrite Hr. simpl.
    destruct (closed (jobQueue (pool s))); simpl; [apply len_push |].
    destruct (has_room (jobQueue (pool s))); simpl; apply len_push.
  - intros i o s'. simpl.
    destruct (workers (pool s) !! i) as [[| j |] |]; try discriminate.
    destruct (buf (permits (pool s))) as [| u pm] eqn:Ep; [discriminate |].
    intros [= <-]. simpl. by eapply len_pop.
Qed.

End PoolBound.

(** ** Header copies *)

Section HeaderCopy.

Lemma Add_lookup h k v :
  Add h k v !! CanonicalMIMEHeaderKey k
  = Some (default [] (h !! CanonicalMIMEHeaderKey k) ++ [v]).
Proof. unfold Add. by rewrite lookup_insert_eq. Qed.

Lemma Add_lookup_ne h k v k' :
  k' ≠ CanonicalMIMEHeaderKey k → Add h k v !! k' = h !! k'.
Proof. intros Hne. unfold Add. by rewrite lookup_insert_ne. Qed.

Lemma add_all_lookup_ne h kv k' :
  k' ≠ CanonicalMIMEHeaderKey kv.1 → add_all h kv !! k' = h !! k'.
Proof.
  intros Hne. unfold add_all. generalize (kv.2) as vals. intros vals.
  revert h. induction vals as [| v vals IH]; intros h; simpl; [done |].
  by rewrite IH, Add_lookup_ne.
Qed.

Lemma add_all_default h kv :
  default [] (add_all h kv !! CanonicalMIMEHeaderKey kv.1)
  = default [] (h !! CanonicalMIMEHeaderKey kv.1) ++ kv.2.
Proof.
  unfold add_all. generalize (kv.2) as vals. intros vals.
  revert h. induction vals as [| v vals IH]; intros h; simpl.
  - by rewrite app_nil_r.
  - rewrite IH, Add_lookup. simpl. by rewrite <- app_assoc.
Qed.

Lemma add_all_is_Some h kv :
  kv.2 ≠ [] → is_Some (add_all h kv !! CanonicalMIMEHeaderKey kv.1).
Proof.
  intros Hne.
  destruct (add_all h kv !! CanonicalMIMEHeaderKey kv.1) as [l |] eqn:E; [by eexists |].
  pose proof (add_all_default h kv) as Hd. rewrite E in Hd. simpl in Hd.
  symmetry in Hd. apply app_eq_nil in Hd as [_ Hd]. done.
Qed.

(** A loop that, for each visited field, either skips it or appends all
    its values. *)
Context (skipb : string * list string → bool).
Context (f : Header → string * list string → Header).
Hypothesis f_spec : ∀ h kv, f h kv = if skipb kv then h else add_all h kv.

Lemma copy_lookup_other order acc k :
  (∀ kv, kv ∈ order → CanonicalMIMEHeaderKey kv.1 ≠ k ∨ skipb kv = true) →
  foldl f acc order !! k = acc !! k.
Proof.
  revert acc. induction order as [| kv order IH]; intros acc Hall; simpl; [done |].
  rewrite IH by (intros kv' Hin; apply Hall; by right).
  rewrite f_spec. destruct (Hall kv) as [Hne | ->]; [by left | | done].
  destruct (skipb kv); [done |]. by apply add_all_lookup_ne.
Qed.

Lemma copy_lookup_in order acc k vals :
  NoDup order.*1 →
  (∀ kv, kv ∈ order → CanonicalMIMEHeaderKey kv.1 = kv.1) →
  (k, vals) ∈ order →
  skipb (k, vals) = false →
  default [] (foldl f acc order !! k) = default [] (acc !! k) ++ vals ∧
  (vals ≠ [] → is_Some (foldl f acc order !! k)).
Proof.
  revert acc. induction order as [| kv order IH]; intros acc Hnd Hcan Hin Hskip.
  - by apply elem_of_nil in Hin.
  - simpl in *. apply NoDup_cons in Hnd as [Hfresh Hnd].
    apply elem_of_cons in Hin as [<- | Hin].
    + assert (CanonicalMIMEHeaderKey k = k) as Hk by (apply (Hcan (k, vals)); by left).
      rewrite copy_lookup_other.
      * rewrite f_spec, Hskip.
        pose proof (add_all_default acc (k, vals)) as Hd.
        pose proof (add_all_is_Some acc (k, vals)) as Hs.
        simpl in Hd, Hs. rewrite Hk in Hd, Hs. done.
      * intros kv' Hin'. left. rewrite Hcan by (by right).
        intros Heq. apply Hfresh. apply list_elem_of_fmap. by exists kv'.
    + destruct (IH (f acc kv) Hnd) as [Hd Hs]; try done.
      { intros kv' Hin'. apply Hcan. by right. }
      assert (f acc kv !! k = acc !! k) as Heq.
      { rewrite f_spec. destruct (skipb kv); [done |].
        apply add_all_lookup_ne. rewrite Hcan by (by left).
        intros Heq. apply Hfresh. apply list_elem_of_fmap.
        exists (k, vals). by split. }
      by rewrite Heq in Hd.
Qed.

(** The loop over a whole header map whose field names are canonical. *)
Lemma copy_range (h : Header) order acc k :
  map_Forall (λ k _, CanonicalMIMEHeaderKey k = k) h →
  range_order h order →
  match h !! k with
  | Some vals =>
      if skipb (k, vals) then foldl f acc order !! k = acc !! k
      else default [] (foldl f acc order !! k) = default [] (acc !! k) ++ vals ∧
           (vals ≠ [] → is_Some (foldl f acc order !! k))
  | None => foldl f acc order !! k = acc !! k
  end.
Proof.
  intros Hcan Hord. unfold range_order in Hord.
  assert (∀ kv, kv ∈ order → h !! kv.1 = Some kv.2) as Hin.
  { intros [k' v'] Hkv. rewrite Hord in Hkv. by apply elem_of_map_to_list in Hkv. }
  assert (NoDup order.*1) as Hnd.
  { rewrite Hord. apply NoDup_fst_map_to_list. }
  assert (∀ kv, kv ∈ order → CanonicalMIMEHeaderKey kv.1 = kv.1) as Hc.
  { intros kv Hkv. apply (Hcan kv.1 kv.2). by apply Hin. }
  destruct (h !! k) as [vals |] eqn:Hk.
  - destruct (skipb (k, vals)) eqn:Hskip.
    + apply copy_lookup_other. intros [k' v'] Hkv.
      destruct (decide (k' = k)) as [-> | Hne].
      * right. apply Hin in Hkv. simpl in Hkv. congruence.
      * left. by rewrite (Hc _ Hkv).
    + apply copy_lookup_in; try done.
      rewrite Hord. by apply elem_of_map_to_list.
  - apply copy_lookup_other. intros [k' v'] Hkv. left.
    rewrite (Hc _ Hkv). simpl. intros ->. apply Hin in Hkv. simpl in Hkv. congruence.
Qed.

End HeaderCopy.

(** ** The outbound header set of the ingress adapter *)

Section ForwardHeaders.
Import Proxy.

Lemma parsed_canonical (rh : Header) :
  parsed rh → map_Forall (λ k _, CanonicalMIMEHeaderKey k = k) rh.
Proof. intros Hp k vals Hk. by destruct (Hp k vals Hk) as (_ & ? & _). Qed.

Lemma canon_Content_Type : CanonicalMIMEHeaderKey "Content-Type" = "Content-Type"%string.
Proof. reflexivity. Qed.

Lemma canon_Authorization : CanonicalMIMEHeaderKey "Authorization" = "Authorization"%string.
Proof. reflexivity. Qed.

Lemma copy_field_spec h kv :
  copy_field h kv =
  if (length kv.2 =? 0)%nat || (EqualFold kv.1 "Host" || isHopByHop kv.1)
  then h else add_all h kv.
Proof.
  unfold copy_field, add_all.
  destruct (length kv.2 =? 0)%nat; [done |].
  by destruct (EqualFold kv.1 "Host" || isHopByHop kv.1).
Qed.

Lemma copied_lookup (rh : Header) order k :
  parsed rh → range_order rh order →
  foldl copy_field ∅ order !! k =
  if EqualFold k "Host" || isHopByHop k then None else rh !! k.
Proof.
  intros Hp Hord.
  pose proof (copy_range _ _ copy_field_spec rh order ∅ k
                (parsed_canonical _ Hp) Hord) as Hc.
  rewrite lookup_empty in Hc. simpl in Hc.
  destruct (rh !! k) as [vals |] eqn:Hk.
  - destruct (Hp k vals Hk) as (_ & _ & Hne).
    destruct vals as [| v vals]; [done |]. simpl in Hc.
    destruct (EqualFold k "Host" || isHopByHop k); [done |].
    destruct Hc as [Hd [l Hl]]; [done |]. rewrite Hl in Hd |- *. simpl in Hd.
    by rewrite Hd.
  - rewrite Hc. by destruct (EqualFold k "Host" || isHopByHop k).
Qed.

Lemma copied_Content_Type (rh : Header) order :
  parsed rh → range_order rh order →
  Get (foldl copy_field ∅ order) "Content-Type" = Get rh "Content-Type".
Proof.
  intros Hp Hord. unfold Get. rewrite canon_Content_Type.
  by rewrite (copied_lookup rh order "Content-Type" Hp Hord).
Qed.

(** Every lookup in the header set handed to the forwarder. *)
Lemma forward_headers_lookup h (rh : Header) order k :
  parsed rh → range_order rh order →
  forward_headers h rh order !! k =
  if negb (String.eqb (apiKey h) "") && String.eqb k "Authorization"
  then Some [apiKey h]
  else if String.eqb k "Content-Type" && String.eqb (Get rh "Content-Type") ""
  then Some ["application/x-protobuf"%string]
  else if EqualFold k "Host" || isHopByHop k then None
  else rh !! k.
Proof.
  intros Hp Hord. unfold forward_headers.
  rewrite (copied_Content_Type rh order Hp Hord).
  assert (∀ hs : Header, (if negb (String.eqb (apiKey h) "")
               then Set_ hs "Authorization" (apiKey h) else hs) !! k
          = if negb (String.eqb (apiKey h) "") && String.eqb k "Authorization"
            then Some [apiKey h] else hs !! k) as Hauth.
  { intros hs. destruct (negb (String.eqb (apiKey h) "")); simpl; [| done].
    unfold Set_. rewrite canon_Authorization.
    destruct (String.eqb_spec k "Authorization") as [-> | Hne].
    - by rewrite lookup_insert_eq.
    - by rewrite lookup_insert_ne. }
  rewrite Hauth.
  destruct (negb (String.eqb (apiKey h) "") && String.eqb k "Authorization"); [done |].
  destruct (String.eqb_spec (Get rh "Content-Type") "") as [Hct | Hct].
  - rewrite ?Hct. simpl. unfold Set_. rewrite canon_Content_Type.
    destruct (String.eqb_spec k "Content-Type") as [-> | Hne]; simpl.
    + by rewrite lookup_insert_eq.
    + rewrite lookup_insert_ne by done. by apply copied_lookup.
  - rewrite andb_false_r. by apply copied_lookup.
Qed.

(** The header set handed to the forwarder has canonical field names and
    no empty value list, so the sender's copy reproduces it. *)
Lemma forward_headers_canonical h (rh : Header) order :
  parsed rh → range_order rh order →
  map_Forall (λ k vals, CanonicalMIMEHeaderKey k = k ∧ vals ≠ [])
             (forward_headers h rh order).
Proof.
  intros Hp Hord k vals. rewrite (forward_headers_lookup h rh order k Hp Hord).
  destruct (negb _ && String.eqb k "Authorization") eqn:E1.
  { apply andb_prop in E1 as [_ ->%String.eqb_eq]. by intros [= <-]. }
  destruct (String.eqb k "Content-Type" && _) eqn:E2.
  { apply andb_prop in E2 as [->%String.eqb_eq _]. by intros [= <-]. }
  destruct (EqualFold k "Host" || isHopByHop k); [done |].
  intros Hk. by destruct (Hp k vals Hk) as (_ & ? & ?).
Qed.

Lemma add_all_spec h kv : add_all h kv = if false then h else add_all h kv.
Proof. done. Qed.

Lemma sender_copy (hs : Header) order :
  map_Forall (λ k vals, CanonicalMIMEHeaderKey k = k ∧ vals ≠ []) hs →
  range_order hs order →
  foldl add_all ∅ order = hs.
Proof.
  intros Hc Hord. apply map_eq. intros k.
  pose proof (copy_range (λ _, false) add_all add_all_spec hs order ∅ k) as Hr.
  rewrite lookup_empty in Hr. simpl in Hr.
  assert (map_Forall (λ k _, CanonicalMIMEHeaderKey k = k) hs) as Hc'.
  { intros k' v' Hk'. by destruct (Hc k' v' Hk'). }
  specialize (Hr Hc' Hord).
  destruct (hs !! k) as [vals |] eqn:Hk; [| done].
  destruct (Hc k vals Hk) as [_ Hne].
  destruct Hr as [Hd [l Hl]]; [done |]. rewrite Hl in Hd |- *. simpl in Hd.
  by rewrite Hd.
Qed.

End ForwardHeaders.

(** ** The asynchronous ingress path *)

Section AsyncIngress.
Import Proxy.

Lemma pool_keeps_accepted_job job p :
  (WorkerPool.SubmitJob job p).1 = Returns None →
  buf (WorkerPool.jobQueue (WorkerPool.SubmitJob job p).2)
  = buf (WorkerPool.jobQueue p) ++ [job].
Proof.
  unfold WorkerPool.SubmitJob.
  destruct (has_room (WorkerPool.permits p)); [| done]. simpl.
  destruct (closed (WorkerPool.jobQueue p)); [done |].
  by destruct (has_room (WorkerPool.jobQueue p)).
Qed.

Lemma pool_receive_head p j p' :
  WorkerPool.receive p = Some (j, p') →
  ∃ rest, buf (WorkerPool.jobQueue p) = j :: rest.
Proof.
  unfold WorkerPool.receive.
  destruct (buf (WorkerPool.jobQueue p)) as [| j0 rest]; [done |].
  destruct (WorkerPool.senders p); intros [= <- <-]; by eexists.
Qed.

Lemma handleAsync_submits {F} `{Forwarder F} h c order path body (fw : F) :
  ReqBody c = ReadOk body →
  (handleAsync h c order path fw).2
  = (Submit body (targetURL h ++ path)%string
            (forward_headers h (ReqHeader c) order) fw).2.
Proof.
  intros Hb. unfold handleAsync. rewrite Hb.
  destruct (Submit _ _ _ fw) as [[[e |] | msg |] fw']; reflexivity.
Qed.

(** C2, as amended. On the async path the body handed to the forwarder,
    and the body of the request a sender builds from the job, are the
    bytes read from the client; every client field other than Host and
    the hop-by-hop names reaches the upstream request with the same
    values, except that Authorization is the configured credential
    whenever that is non-empty, and that Content-Type is replaced by
    application/x-protobuf whenever the client's Content-Type is absent
    or has an empty first value. *)
Theorem async_request_preserved h c order order' path body :
  parsed (ReqHeader c) →
  range_order (ReqHeader c) order →
  ReqBody c = ReadOk body →
  range_order (Headers (async_job h c order path body)) order' →
  let job := async_job h c order path body in
  let req := sender_request job order' in
  (∀ F (HF : Forwarder F) (fw : F),
      (handleAsync h c order path fw).2
      = (Submit (Body job) (TargetURL job) (Headers job) fw).2) ∧
  (∀ p, (WorkerPool.SubmitJob job p).1 = Returns None →
        buf (WorkerPool.jobQueue (WorkerPool.SubmitJob job p).2)
        = buf (WorkerPool.jobQueue p) ++ [job]) ∧
  Body job = body ∧
  up_body req = body ∧
  up_url req = (targetURL h ++ path)%string ∧
  (∀ k vals,
      ReqHeader c !! k = Some vals →
      EqualFold k "Host" = false →
      isHopByHop k = false →
      (k = "Authorization"%string → apiKey h = ""%string) →
      (k = "Content-Type"%string → Get (ReqHeader c) "Content-Type" ≠ ""%string) →
      up_header req !! k = Some vals) ∧
  (apiKey h ≠ ""%string →
   up_header req !! "Authorization"%string = Some [apiKey h]) ∧
  (Get (ReqHeader c) "Content-Type" = ""%string →
   up_header req !! "Content-Type"%string = Some ["application/x-protobuf"%string]).
Proof.
  intros Hp Hord Hb Hord' job req.
  assert (up_header req = forward_headers h (ReqHeader c) order) as Hup.
  { unfold req, sender_request. simpl. apply sender_copy; [| exact Hord'].
    by apply forward_headers_canonical. }
  split; [intros F HF fw; by apply handleAsync_submits |].
  split; [intros p; apply pool_keeps_accepted_job |].
  split; [done |]. split; [done |]. split; [done |].
  rewrite Hup. split; [| split].
  - intros k vals Hk Hhost Hhop Hauth Hct.
    rewrite (forward_headers_lookup h _ order k Hp Hord), Hhost, Hhop. simpl.
    destruct (String.eqb_spec k "Authorization") as [-> | _].
    + rewrite (Hauth eq_refl). simpl. done.
    + rewrite andb_false_r.
      destruct (String.eqb_spec k "Content-Type") as [-> | _]; [| done].
      simpl. destruct (String.eqb_spec (Get (ReqHeader c) "Content-Type") "");
        [by destruct Hct | done].
  - intros Hkey.
    rewrite (forward_headers_lookup h _ order _ Hp Hord).
    destruct (String.eqb_spec (apiKey h) ""); done.
  - intros Hct.
    rewrite (forward_headers_lookup h _ order _ Hp Hord), Hct.
    by destruct (negb (String.eqb (apiKey h) "")).
Qed.

(** C9, as amended. With an empty credential nothing is injected: the
    Authorization field of the upstream request is exactly the client's,
    absent when the client sent none. *)
Theorem empty_credential_keeps_client_authorization h c order order' path body :
  parsed (ReqHeader c) →
  range_order (ReqHeader c) order →
  range_order (Headers (async_job h c order path body)) order' →
  apiKey h = ""%string →
  up_header (sender_request (async_job h c order path body) order')
    !! "Authorization"%string
  = ReqHeader c !! "Authorization"%string.
Proof.
  intros Hp Hord Hord' Hkey.
  unfold sender_request. simpl.
  rewrite (sender_copy (forward_headers h (ReqHeader c) order) order');
    [| by apply forward_headers_canonical | exact Hord'].
  rewrite (forward_headers_lookup h _ order _ Hp Hord), Hkey. done.
Qed.

End AsyncIngress.

Section AsyncIngressExamples.
Import Proxy.

Ltac parsed_by_computation :=
  apply map_Forall_to_list; vm_compute;
  repeat first [ apply Forall_nil_2 | apply Forall_cons_2 | split
               | reflexivity | discriminate ].

Lemma async_request_preserved_witness :
  up_header (Demo.upstream_of Demo.handler_key Demo.plain_request)
    !! "X-Trace"%string = Some ["a"%string; "b"%string].
Proof.
  assert (parsed (ReqHeader Demo.plain_request)) as Hp by parsed_by_computation.
  pose proof (async_request_preserved Demo.handler_key Demo.plain_request
                (map_to_list (ReqHeader Demo.plain_request))
                (map_to_list (Headers (async_job Demo.handler_key Demo.plain_request
                     (map_to_list (ReqHeader Demo.plain_request)) "/v1/logs" Demo.hello)))
                "/v1/logs" Demo.hello Hp
                (Permutation_refl _) eq_refl (Permutation_refl _)) as Hall.
  destruct Hall as (_ & _ & _ & _ & _ & Hcopy & _ & _).
  apply Hcopy; [reflexivity | reflexivity | reflexivity | discriminate | discriminate].
Defined.

(** C2 fails as stated: a client sends the Content-Type lines [""] and
    ["application/json"]; the field is neither Host nor hop-by-hop, and
    the upstream request carries application/x-protobuf in their place. *)
Lemma async_content_type_counterexample :
  parsed (ReqHeader Demo.empty_content_type_request) ∧
  ReqHeader Demo.empty_content_type_request !! "Content-Type"%string
    = Some [""%string; "application/json"%string] ∧
  EqualFold "Content-Type" "Host" = false ∧
  isHopByHop "Content-Type" = false ∧
  up_header (Demo.upstream_of Demo.handler_no_key Demo.empty_content_type_request)
    !! "Content-Type"%string = Some ["application/x-protobuf"%string] ∧
  up_header (Demo.upstream_of Demo.handler_no_key Demo.empty_content_type_request)
    !! "Content-Type"%string
  ≠ ReqHeader Demo.empty_content_type_request !! "Content-Type"%string.
Proof.
  split; [parsed_by_computation |].
  repeat split; try (vm_compute; reflexivity).
  vm_compute. discriminate.
Qed.

Lemma empty_credential_keeps_client_authorization_witness :
  up_header (Demo.upstream_of Demo.handler_no_key Demo.client_auth_request)
    !! "Authorization"%string
  = Some ["Bearer client"%string].
Proof.
  assert (parsed (ReqHeader Demo.client_auth_request)) as Hp by parsed_by_computation.
  exact (empty_credential_keeps_client_authorization
           Demo.handler_no_key Demo.client_auth_request
           (map_to_list (ReqHeader Demo.client_auth_request))
           (map_to_list (Headers (async_job Demo.handler_no_key Demo.client_auth_request
                (map_to_list (ReqHeader Demo.client_auth_request)) "/v1/logs" Demo.hello)))
           "/v1/logs" Demo.hello Hp
           (Permutation_refl _) (Permutation_refl _) eq_refl).
Defined.

(** C9 fails as stated: with an empty credential a client that sends its
    own Authorization field gets it forwarded to the upstream. *)
Lemma empty_credential_counterexample :
  apiKey Demo.handler_no_key = ""%string ∧
  parsed (ReqHeader Demo.client_auth_request) ∧
  up_header (Demo.upstream_of Demo.handler_no_key Demo.client_auth_request)
    !! "Authorization"%string
  = Some ["Bearer client"%string] ∧
  up_header (Demo.upstream_of Demo.handler_no_key Demo.client_auth_request)
    !! "Authorization"%string
  ≠ None.
Proof.
  split; [reflexivity |]. split; [parsed_by_computation |].
  split; [vm_compute; reflexivity | vm_compute; discriminate].
Qed.

End AsyncIngressExamples.

(** ** The synchronous logs path *)

Section SyncLogs.
Import Proxy.

Lemma copy_response_field_spec h kv :
  copy_response_field h kv =
  if skip_response_header kv.1 then h else add_all h kv.
Proof. reflexivity. Qed.

Lemma skip_response_header_true k :
  skip_response_header k = true ↔
  HasPrefix (ToLower k) "access-control-" = true ∨
  ToLower k ∈ dropped_response_names.
Proof.
  unfold skip_response_header, dropped_response_names.
  rewrite !orb_true_iff, !String.eqb_eq, !elem_of_cons, elem_of_nil. tauto.
Qed.

(** C10. In sync-debug mode the client receives the upstream status and
    body; an upstream response field whose lower-cased name starts with
    access-control-, or is vary, content-length, transfer-encoding or
    connection, adds nothing to the response headers, and every other
    upstream field has all its values appended, in order, to the values
    the response already holds under that name. *)
Theorem sync_response_passthrough {F} `{Forwarder F}
    h c order upstream resp_order payload resp (fw : F) :
  syncLogs h = true →
  ReqBody c = ReadOk payload →
  upstream (mkUpstreamRequest "POST" (targetURL h ++ "/v1/logs")%string payload
              (forward_headers h (ReqHeader c) order)) = Responded resp →
  map_Forall (λ k _, CanonicalMIMEHeaderKey k = k) (RespHeader resp) →
  range_order (RespHeader resp) resp_order →
  ∃ r,
    HandleLogs h c order upstream resp_order fw = (Reply r, fw) ∧
    status r = StatusCode resp ∧
    body r = unread (RespBody resp) ∧
    (∀ k vals,
        RespHeader resp !! k = Some vals →
        HasPrefix (ToLower k) "access-control-" = true ∨
        ToLower k ∈ dropped_response_names →
        header r !! k = ResponseHeader c !! k) ∧
    (∀ k vals,
        RespHeader resp !! k = Some vals →
        HasPrefix (ToLower k) "access-control-" = false →
        ToLower k ∉ dropped_response_names →
        default [] (header r !! k) = default [] (ResponseHeader c !! k) ++ vals) ∧
    (∀ k, RespHeader resp !! k = None → header r !! k = ResponseHeader c !! k).
Proof.
  intros Hsync Hb Hup Hcan Hord.
  exists (handleSync h c order upstream resp_order).
  split; [unfold HandleLogs; by rewrite Hsync |].
  unfold handleSync. rewrite Hb, Hup. simpl.
  split; [done |]. split; [done |].
  pose proof (λ k, copy_range (λ kv, skip_response_header kv.1) _
                     copy_response_field_spec (RespHeader resp) resp_order
                     (ResponseHeader c) k Hcan Hord) as Hr.
  split; [| split].
  - intros k vals Hk Hskip. specialize (Hr k). rewrite Hk in Hr. simpl in Hr.
    apply skip_response_header_true in Hskip. by rewrite Hskip in Hr.
  - intros k vals Hk Hpre Hnames. specialize (Hr k). rewrite Hk in Hr. simpl in Hr.
    destruct (skip_response_header k) eqn:Hskip; [| by destruct Hr].
    apply skip_response_header_true in Hskip as [Hskip | Hskip]; [congruence | done].
  - intros k Hk. specialize (Hr k). by rewrite Hk in Hr.
Qed.

Lemma sync_response_passthrough_witness :
  ∃ r,
    HandleLogs Demo.handler_sync Demo.plain_request
      (map_to_list Demo.plain_headers) (λ _, Responded Demo.teapot_response)
      (map_to_list Demo.teapot_headers) (PoolAdapter.mkPoolForwarder None)
    = (Reply r, PoolAdapter.mkPoolForwarder None) ∧
    status r = 418%Z ∧ body r = Demo.teapot.
Proof.
  destruct (sync_response_passthrough Demo.handler_sync Demo.plain_request
              (map_to_list Demo.plain_headers) (λ _, Responded Demo.teapot_response)
              (map_to_list Demo.teapot_headers) Demo.hello Demo.teapot_response
              (PoolAdapter.mkPoolForwarder None))
    as (r & Hr & Hs & Hbody & _).
  - reflexivity.
  - reflexivity.
  - reflexivity.
  - apply map_Forall_to_list; vm_compute;
      repeat first [ apply Forall_nil_2 | apply Forall_cons_2 | reflexivity ].
  - apply Permutation_refl.
  - exists r. auto.
Defined.

Example sync_teapot_headers :
  header (handleSync Demo.handler_sync Demo.plain_request
            (map_to_list Demo.plain_headers) (λ _, Responded Demo.teapot_response)
            (map_to_list Demo.teapot_headers))
  = <["Content-Type"%string := ["text/plain"%string]]> ∅.
Proof. vm_compute. reflexivity. Qed.

End SyncLogs.

(** ** The reply of the async path *)

Section AsyncReply.
Import Proxy.

Lemma pool_step_blind l1 l2 s s' s1 :
  WorkerPool.same_action l1 l2 →
  WorkerPool.pool s = WorkerPool.pool s' →
  WorkerPool.step l1 s = Some s1 →
  ∃ s2, WorkerPool.step l2 s' = Some s2 ∧ WorkerPool.pool s1 = WorkerPool.pool s2.
Proof.
  destruct s as [p m], s' as [p' m']. simpl. intros Hl <-.
  destruct l1, l2; simpl in Hl; try discriminate; try (injection Hl as <-); subst;
    simpl; try (intros [= <-]; by eexists).
  - destruct (WorkerPool.workers p !! i) as [[| |] |]; try discriminate.
    destruct (WorkerPool.receive p) as [[j p1] |]; [| discriminate]. simpl.
    intros [= <-]. by eexists.
  - destruct (WorkerPool.workers p !! i0) as [[| |] |]; try discriminate.
    destruct (buf (WorkerPool.permits p)); [discriminate |].
    intros [= <-]. by eexists.
  - destruct (WorkerPool.workers p !! i) as [[| |] |]; try discriminate.
    destruct (buf (WorkerPool.jobQueue p)); [| discriminate].
    destruct (closed (WorkerPool.jobQueue p)); [| discriminate].
    intros [= <-]. by eexists.
  - destruct (WorkerPool.stopWait p && _); [| discriminate].
    intros [= <-]. by eexists.
Qed.

Lemma pool_run_blind t1 t2 s s' s1 :
  Forall2 WorkerPool.same_action t1 t2 →
  WorkerPool.pool s = WorkerPool.pool s' →
  WorkerPool.run t1 s = Some s1 →
  ∃ s2, WorkerPool.run t2 s' = Some s2 ∧ WorkerPool.pool s1 = WorkerPool.pool s2.
Proof.
  intros Hall. revert s s'.
  induction Hall as [| l1 l2 t1 t2 Hl Hall IH]; intros s s' Hp; simpl.
  - intros [= <-]. by eexists.
  - destruct (WorkerPool.step l1 s) as [sa |] eqn:Ea; [| discriminate]. simpl.
    destruct (pool_step_blind _ _ _ _ _ Hl Hp Ea) as (sb & -> & Hp'). simpl.
    by apply IH.
Qed.

Lemma semaphore_step_blind l1 l2 s s' s1 :
  Semaphore.same_action l1 l2 →
  Semaphore.fwd s = Semaphore.fwd s' →
  Semaphore.step l1 s = Some s1 →
  ∃ s2, Semaphore.step l2 s' = Some s2 ∧ Semaphore.fwd s1 = Semaphore.fwd s2.
Proof.
  destruct s as [p m], s' as [p' m']. simpl. intros Hl <-.
  destruct l1, l2; simpl in Hl; try discriminate; try (injection Hl as <-); subst;
    simpl; try (intros [= <-]; by eexists).
  - destruct (Semaphore.units p !! i) as [[| |] |]; try discriminate.
    destruct (has_room (Semaphore.tokens p)); [| discriminate].
    intros [= <-]. by eexists.
  - destruct (Semaphore.units p !! i0) as [[| |] |]; try discriminate.
    destruct (buf (Semaphore.tokens p)); [discriminate |].
    intros [= <-]. by eexists.
  - destruct (Semaphore.stopWait p && _); [| discriminate].
    intros [= <-]. by eexists.
Qed.

Lemma semaphore_run_blind t1 t2 s s' s1 :
  Forall2 Semaphore.same_action t1 t2 →
  Semaphore.fwd s = Semaphore.fwd s' →
  Semaphore.run t1 s = Some s1 →
  ∃ s2, Semaphore.run t2 s' = Some s2 ∧ Semaphore.fwd s1 = Semaphore.fwd s2.
Proof.
  intros Hall. revert s s'.
  induction Hall as [| l1 l2 t1 t2 Hl Hall IH]; intros s s' Hp; simpl.
  - intros [= <-]. by eexists.
  - destruct (Semaphore.step l1 s) as [sa |] eqn:Ea; [| discriminate]. simpl.
    destruct (semaphore_step_blind _ _ _ _ _ Hl Hp Ea) as (sb & -> & Hp'). simpl.
    by apply IH.
Qed.

Lemma hybrid_step_blind l1 l2 s s' s1 :
  Hybrid.same_action l1 l2 →
  Hybrid.fwd s = Hybrid.fwd s' →
  Hybrid.step l1 s = Some s1 →
  ∃ s2, Hybrid.step l2 s' = Some s2 ∧ Hybrid.fwd s1 = Hybrid.fwd s2.
Proof.
  destruct s as [p m], s' as [p' m']. simpl. intros Hl <-.
  destruct l1, l2; simpl in Hl; try discriminate; try (injection Hl as <-); subst;
    simpl; try (intros [= <-]; by eexists).
  - destruct (Hybrid.workers p !! i) as [[| |] |]; try discriminate.
    destruct (buf (Hybrid.jobQueue p)); [discriminate |].
    intros [= <-]. by eexists.
  - destruct (Hybrid.workers p !! i) as [[| |] |]; try discriminate.
    destruct (has_room (Hybrid.tokens p)); [| discriminate].
    intros [= <-]. by eexists.
  - destruct (Hybrid.sends p !! k0) as [[|] |]; try discriminate.
    destruct (buf (Hybrid.tokens p)); [discriminate |].
    intros [= <-]. by eexists.
  - destruct (Hybrid.workers p !! i) as [[| |] |]; try discriminate.
    destruct (buf (Hybrid.jobQueue p)); [| discriminate].
    destruct (closed (Hybrid.jobQueue p)); [| discriminate].
    intros [= <-]. by eexists.
  - destruct (Hybrid.stopWait p && _); [| discriminate].
    intros [= <-]. by eexists.
Qed.

Lemma hybrid_run_blind t1 t2 s s' s1 :
  Forall2 Hybrid.same_action t1 t2 →
  Hybrid.fwd s = Hybrid.fwd s' →
  Hybrid.run t1 s = Some s1 →
  ∃ s2, Hybrid.run t2 s' = Some s2 ∧ Hybrid.fwd s1 = Hybrid.fwd s2.
Proof.
  intros Hall. revert s s'.
  induction Hall as [| l1 l2 t1 t2 Hl Hall IH]; intros s s' Hp; simpl.
  - intros [= <-]. by eexists.
  - destruct (Hybrid.step l1 s) as [sa |] eqn:Ea; [| discriminate]. simpl.
    destruct (hybrid_step_blind _ _ _ _ _ Hl Hp Ea) as (sb & -> & Hp'). simpl.
    by apply IH.
Qed.

(** C3. On the async path the reply is 400 when the body cannot be read,
    202 when the forwarder's submit returns no error and 503 when it
    returns one; and for each of the three forwarders the reply does not
    depend on what the collector answered to any earlier send: two
    histories that differ only in those answers lead to the same reply. *)
Theorem async_reply_decided h c order path :
  (∀ F (HF : Forwarder F) (fw : F),
      (ReqBody c = ReadFailed →
       handleAsync h c order path fw = (Reply (mkClientResponse 400 (ResponseHeader c) []), fw)) ∧
      (∀ payload fw',
          ReqBody c = ReadOk payload →
          Submit payload (targetURL h ++ path)%string
                 (forward_headers h (ReqHeader c) order) fw = (Returns None, fw') →
          handleAsync h c order path fw
          = (Reply (mkClientResponse 202 (ResponseHeader c) []), fw')) ∧
      (∀ payload e fw',
          ReqBody c = ReadOk payload →
          Submit payload (targetURL h ++ path)%string
                 (forward_headers h (ReqHeader c) order) fw = (Returns (Some e), fw') →
          handleAsync h c order path fw
          = (Reply (mkClientResponse 503 (ResponseHeader c) []), fw'))) ∧
  (∀ t1 t2 s s1,
      Forall2 WorkerPool.same_action t1 t2 →
      WorkerPool.run t1 s = Some s1 →
      ∃ s2, WorkerPool.run t2 s = Some s2 ∧
            handleAsync h c order path
              (PoolAdapter.mkPoolForwarder (Some (WorkerPool.pool s1)))
            = handleAsync h c order path
                (PoolAdapter.mkPoolForwarder (Some (WorkerPool.pool s2)))) ∧
  (∀ t1 t2 s s1,
      Forall2 Semaphore.same_action t1 t2 →
      Semaphore.run t1 s = Some s1 →
      ∃ s2, Semaphore.run t2 s = Some s2 ∧
            handleAsync h c order path (Semaphore.fwd s1)
            = handleAsync h c order path (Semaphore.fwd s2)) ∧
  (∀ t1 t2 s s1,
      Forall2 Hybrid.same_action t1 t2 →
      Hybrid.run t1 s = Some s1 →
      ∃ s2, Hybrid.run t2 s = Some s2 ∧
            handleAsync h c order path (Hybrid.fwd s1)
            = handleAsync h c order path (Hybrid.fwd s2)).
Proof.
  split; [| split; [| split]].
  - intros F HF fw. unfold handleAsync. split; [| split].
    + by intros ->.
    + intros payload fw' -> ->. reflexivity.
    + intros payload e fw' -> ->. reflexivity.
  - intros t1 t2 s s1 Hall Hrun.
    destruct (pool_run_blind t1 t2 s s s1 Hall eq_refl Hrun) as (s2 & Hrun2 & Heq).
    exists s2. by rewrite Heq.
  - intros t1 t2 s s1 Hall Hrun.
    destruct (semaphore_run_blind t1 t2 s s s1 Hall eq_refl Hrun) as (s2 & Hrun2 & Heq).
    exists s2. by rewrite Heq.
  - intros t1 t2 s s1 Hall Hrun.
    destruct (hybrid_run_blind t1 t2 s s s1 Hall eq_refl Hrun) as (s2 & Hrun2 & Heq).
    exists s2. by rewrite Heq.
Qed.

End AsyncReply.

(** ** Outcome counters *)

Section Counters.

Lemma processed_failed_total os : (processed_of os + failed_of os = length os)%nat.
Proof.
  unfold processed_of, failed_of. induction os as [| o os IH]; simpl; [done |].
  destruct (is_2xx o); simpl; lia.
Qed.

Lemma status_class resp :
  (StatusCode resp <? 200)%Z || (StatusCode resp >=? 300)%Z
  = negb (is_2xx (Responded resp)).
Proof.
  simpl. rewrite Z.geb_leb.
  destruct (Z.ltb_spec (StatusCode resp) 200), (Z.leb_spec 300 (StatusCode resp)),
    (Z.leb_spec 200 (StatusCode resp)), (Z.ltb_spec (StatusCode resp) 300);
    simpl; try reflexivity; lia.
Qed.

Lemma pool_after_send_counts o m :
  counts_one o m (WorkerPool.worker_after_send o m).1.
Proof.
  unfold counts_one, processed_of, failed_of.
  destruct o as [| | resp]; simpl; try lia.
  pose proof (status_class resp) as Hc. simpl in Hc. rewrite Hc.
  destruct (_ && _); simpl; lia.
Qed.

Lemma semaphore_after_send_counts o m :
  counts_one o m (Semaphore.unit_after_send o m).1.
Proof.
  unfold counts_one, processed_of, failed_of.
  destruct o as [| | resp]; simpl; try lia.
  pose proof (status_class resp) as Hc. simpl in Hc. rewrite Hc.
  destruct (_ && _); simpl; lia.
Qed.

Lemma hybrid_after_send_counts o m :
  counts_one o m (Hybrid.sender_after_send o m).1.
Proof.
  unfold counts_one, processed_of, failed_of.
  destruct o as [| | resp]; simpl; try lia.
  pose proof (status_class resp) as Hc. simpl in Hc. rewrite Hc.
  destruct (_ && _); simpl; lia.
Qed.

Lemma counted_cons o os m m1 m2 :
  counts_one o m m1 → counted os m1 m2 → counted (o :: os) m m2.
Proof.
  unfold counts_one, counted, processed_of, failed_of. simpl.
  destruct (is_2xx o); simpl; lia.
Qed.

Lemma counted_nil m : counted [] m m.
Proof. unfold counted, processed_of, failed_of. simpl. lia. Qed.

Lemma pool_step_counted l s s' :
  WorkerPool.step l s = Some s' →
  counted (WorkerPool.finished [l]) (WorkerPool.metrics s) (WorkerPool.metrics s').
Proof.
  destruct s as [p m]. destruct l as [| j | i | i o | i | | timedOut]; simpl;
    try (intros [= <-]; apply counted_nil).
  - destruct (WorkerPool.workers p !! i) as [[| |] |]; try discriminate.
    destruct (WorkerPool.receive p) as [[j p1] |]; [| discriminate]. simpl.
    intros [= <-]. simpl. unfold counted, processed_of, failed_of. simpl. lia.
  - destruct (WorkerPool.workers p !! i) as [[| |] |]; try discriminate.
    destruct (buf (WorkerPool.permits p)); [discriminate |].
    intros [= <-]. simpl.
    eapply counted_cons; [apply pool_after_send_counts | apply counted_nil].
  - destruct (WorkerPool.workers p !! i) as [[| |] |]; try discriminate.
    destruct (buf (WorkerPool.jobQueue p)); [| discriminate].
    destruct (closed (WorkerPool.jobQueue p)); [| discriminate].
    intros [= <-]. apply counted_nil.
  - destruct (WorkerPool.stopWait p && _); [| discriminate].
    intros [= <-]. apply counted_nil.
Qed.

Lemma counted_app os1 os2 m m1 m2 :
  counted os1 m m1 → counted os2 m1 m2 → counted (os1 ++ os2) m m2.
Proof.
  unfold counted, processed_of, failed_of.
  rewrite !List.filter_app, !length_app. lia.
Qed.

Lemma pool_run_counted t s s' :
  WorkerPool.run t s = Some s' →
  counted (WorkerPool.finished t) (WorkerPool.metrics s) (WorkerPool.metrics s').
Proof.
  revert s. induction t as [| l t IH]; intros s Hr.
  - injection Hr as <-. apply counted_nil.
  - replace (WorkerPool.finished (l :: t))
      with (WorkerPool.finished [l] ++ WorkerPool.finished t) by (by destruct l).
    simpl in Hr.
    destruct (WorkerPool.step l s) as [s1 |] eqn:Es; [| discriminate]. simpl in Hr.
    eapply counted_app; [by apply pool_step_counted | by apply IH].
Qed.

Lemma semaphore_step_counted l s s' :
  Semaphore.step l s = Some s' →
  counted (Semaphore.finished [l]) (Semaphore.metrics s) (Semaphore.metrics s').
Proof.
  destruct s as [p m]. destruct l as [| j | i | i o | | timedOut]; simpl;
    try (intros [= <-]; apply counted_nil).
  - destruct (Semaphore.units p !! i) as [[| |] |]; try discriminate.
    destruct (has_room (Semaphore.tokens p)); [| discriminate].
    intros [= <-]. simpl. unfold counted, processed_of, failed_of. simpl. lia.
  - destruct (Semaphore.units p !! i) as [[| |] |]; try discriminate.
    destruct (buf (Semaphore.tokens p)); [discriminate |].
    intros [= <-]. simpl.
    eapply counted_cons; [apply semaphore_after_send_counts | apply counted_nil].
  - destruct (Semaphore.stopWait p && _); [| discriminate].
    intros [= <-]. apply counted_nil.
Qed.

Lemma semaphore_run_counted t s s' :
  Semaphore.run t s = Some s' →
  counted (Semaphore.finished t) (Semaphore.metrics s) (Semaphore.metrics s').
Proof.
  revert s. induction t as [| l t IH]; intros s Hr.
  - injection Hr as <-. apply counted_nil.
  - replace (Semaphore.finished (l :: t))
      with (Semaphore.finished [l] ++ Semaphore.finished t) by (by destruct l).
    simpl in Hr.
    destruct (Semaphore.step l s) as [s1 |] eqn:Es; [| discriminate]. simpl in Hr.
    eapply counted_app; [by apply semaphore_step_counted | by apply IH].
Qed.

Lemma hybrid_step_counted l s s' :
  Hybrid.step l s = Some s' →
  counted (Hybrid.finished [l]) (Hybrid.metrics s) (Hybrid.metrics s').
Proof.
  destruct s as [p m]. destruct l as [| j | i | i | k o | i | | timedOut]; simpl;
    try (intros [= <-]; apply counted_nil).
  - destruct (Hybrid.workers p !! i) as [[| |] |]; try discriminate.
    destruct (buf (Hybrid.jobQueue p)); [discriminate |].
    intros [= <-]. apply counted_nil.
  - destruct (Hybrid.workers p !! i) as [[| |] |]; try discriminate.
    destruct (has_room (Hybrid.tokens p)); [| discriminate].
    intros [= <-]. simpl. unfold counted, processed_of, failed_of. simpl. lia.
  - destruct (Hybrid.sends p !! k) as [[|] |]; try discriminate.
    destruct (buf (Hybrid.tokens p)); [discriminate |].
    intros [= <-]. simpl.
    eapply counted_cons; [apply hybrid_after_send_counts | apply counted_nil].
  - destruct (Hybrid.workers p !! i) as [[| |] |]; try discriminate.
    destruct (buf (Hybrid.jobQueue p)); [| discriminate].
    destruct (closed (Hybrid.jobQueue p)); [| discriminate].
    intros [= <-]. apply counted_nil.
  - destruct (Hybrid.stopWait p && _); [| discriminate].
    intros [= <-]. apply counted_nil.
Qed.

Lemma hybrid_run_counted t s s' :
  Hybrid.run t s = Some s' →
  counted (Hybrid.finished t) (Hybrid.metrics s) (Hybrid.metrics s').
Proof.
  revert s. induction t as [| l t IH]; intros s Hr.
  - injection Hr as <-. apply counted_nil.
  - replace (Hybrid.finished (l :: t))
      with (Hybrid.finished [l] ++ Hybrid.finished t) by (by destruct l).
    simpl in Hr.
    destruct (Hybrid.step l s) as [s1 |] eqn:Es; [| discriminate]. simpl in Hr.
    eapply counted_app; [by apply hybrid_step_counted | by apply IH].
Qed.

End Counters.

Section CountersClaim.

Lemma counts_one_moves o m m' : counts_one o m m' → moves_one_counter o m m'.
Proof.
  unfold counts_one, moves_one_counter, processed_of, failed_of. simpl.
  destruct (is_2xx o); simpl; lia.
Qed.

Lemma counted_from_zero os m :
  counted os metrics0 m →
  JobsProcessedCounter m = processed_of os ∧
  JobsFailedCounter m = failed_of os ∧
  (JobsProcessedCounter m + JobsFailedCounter m = length os)%nat.
Proof.
  unfold counted. simpl. intros [-> ->].
  split; [done |]. split; [done |]. apply processed_failed_total.
Qed.

(** C5. In each of the three senders a send that ends moves exactly one
    counter by one: jobs_processed_total when the collector answered with
    a status in [200, 300), jobs_failed_total when the status is outside
    that range or the request could not be created or sent. Hence, from a
    fresh start, after any history the two counters hold the numbers of
    ended sends of either kind, and their sum is the number of tasks that
    have reached a terminal state. *)
Theorem counters_account_for_terminal_tasks :
  (∀ o m,
      moves_one_counter o m (WorkerPool.worker_after_send o m).1 ∧
      moves_one_counter o m (Semaphore.unit_after_send o m).1 ∧
      moves_one_counter o m (Hybrid.sender_after_send o m).1) ∧
  (∀ p t s,
      WorkerPool.run t (WorkerPool.init p) = Some s →
      JobsProcessedCounter (WorkerPool.metrics s)
        = processed_of (WorkerPool.finished t) ∧
      JobsFailedCounter (WorkerPool.metrics s)
        = failed_of (WorkerPool.finished t) ∧
      (JobsProcessedCounter (WorkerPool.metrics s)
       + JobsFailedCounter (WorkerPool.metrics s)
       = length (WorkerPool.finished t))%nat) ∧
  (∀ f t s,
      Semaphore.run t (Semaphore.init f) = Some s →
      JobsProcessedCounter (Semaphore.metrics s)
        = processed_of (Semaphore.finished t) ∧
      JobsFailedCounter (Semaphore.metrics s)
        = failed_of (Semaphore.finished t) ∧
      (JobsProcessedCounter (Semaphore.metrics s)
       + JobsFailedCounter (Semaphore.metrics s)
       = length (Semaphore.finished t))%nat) ∧
  (∀ f t s,
      Hybrid.run t (Hybrid.init f) = Some s →
      JobsProcessedCounter (Hybrid.metrics s)
        = processed_of (Hybrid.finished t) ∧
      JobsFailedCounter (Hybrid.metrics s)
        = failed_of (Hybrid.finished t) ∧
      (JobsProcessedCounter (Hybrid.metrics s)
       + JobsFailedCounter (Hybrid.metrics s)
       = length (Hybrid.finished t))%nat).
Proof.
  split; [| split; [| split]].
  - intros o m. split; [| split]; apply counts_one_moves.
    + apply pool_after_send_counts.
    + apply semaphore_after_send_counts.
    + apply hybrid_after_send_counts.
  - intros p t s Hr. apply counted_from_zero.
    by apply (pool_run_counted t (WorkerPool.init p) s).
  - intros f t s Hr. apply counted_from_zero.
    by apply (semaphore_run_counted t (Semaphore.init f) s).
  - intros f t s Hr. apply counted_from_zero.
    by apply (hybrid_run_counted t (Hybrid.init f) s).
Qed.

End CountersClaim.

(** ** The response body in the senders *)

Section ResponseBody.

(** C8, evaluated. The collector answers 200 with the body "ok". The pool
    worker, the semaphore goroutine and the hybrid sender close that body
    with both bytes unread and none consumed, where reading it to its end
    would have left none unread. In general, whenever a sender received a
    response, in each of the three forwarders and whatever the status, it
    closes the response body without reading it; when no response
    arrived there is no body. *)
Theorem response_body_closed_unread :
  ((WorkerPool.worker_after_send (Responded Demo.ok_response) metrics0).2
     = Some (mkBody (list_byte_of_string "ok") [] true) ∧
   (Semaphore.unit_after_send (Responded Demo.ok_response) metrics0).2
     = Some (mkBody (list_byte_of_string "ok") [] true) ∧
   (Hybrid.sender_after_send (Responded Demo.ok_response) metrics0).2
     = Some (mkBody (list_byte_of_string "ok") [] true) ∧
   (Body_ReadAll (RespBody Demo.ok_response)).2
     = mkBody [] (list_byte_of_string "ok") false ∧
   unread (Body_Close (RespBody Demo.ok_response)) ≠ []) ∧
  (∀ resp m,
      (WorkerPool.worker_after_send (Responded resp) m).2
        = Some (Body_Close (RespBody resp)) ∧
      (Semaphore.unit_after_send (Responded resp) m).2
        = Some (Body_Close (RespBody resp)) ∧
      (Hybrid.sender_after_send (Responded resp) m).2
        = Some (Body_Close (RespBody resp))) ∧
  (∀ b,
      body_closed (Body_Close b) = true ∧
      unread (Body_Close b) = unread b ∧
      consumed (Body_Close b) = consumed b) ∧
  (∀ m,
      (WorkerPool.worker_after_send NewRequestError m).2 = None ∧
      (WorkerPool.worker_after_send DoError m).2 = None ∧
      (Semaphore.unit_after_send NewRequestError m).2 = None ∧
      (Semaphore.unit_after_send DoError m).2 = None ∧
      (Hybrid.sender_after_send NewRequestError m).2 = None ∧
      (Hybrid.sender_after_send DoError m).2 = None).
Proof. repeat split; discriminate. Qed.

End ResponseBody.

(** ** Submitting after stop *)

Section SubmitAfterStop.

Lemma pool_submit_closed job p :
  closed (WorkerPool.jobQueue p) = true →
  (WorkerPool.SubmitJob job p).1 =
  if has_room (WorkerPool.permits p)
  then Panics "send on closed channel"
  else Returns (Some "worker pool queue full"%string).
Proof.
  intros Hc. unfold WorkerPool.SubmitJob.
  destruct (has_room (WorkerPool.permits p)); [| done]. simpl. by rewrite Hc.
Qed.

Lemma hybrid_submit_stopped payload url hd h :
  Hybrid.stopped h = true →
  Hybrid.Submit payload url hd h
  = (Returns (Some "hybrid forwarder stopped"%string), h).
Proof. intros Hs. unfold Hybrid.Submit. by rewrite Hs. Qed.

Lemma semaphore_submit_stopped payload url hd f :
  Semaphore.stopped f = true →
  Semaphore.Submit payload url hd f = (Returns None, f).
Proof. intros Hs. unfold Semaphore.Submit. by rewrite Hs. Qed.

(** C4, evaluated. A pool built by [NewPool(1, 1, 1s)] is started and
    stopped; the next [SubmitJob] takes a permit and panics on the closed
    job queue, and the handler above it panics with it. On the same
    calls the hybrid forwarder returns its error and the semaphore
    forwarder returns nil without keeping the task. *)
Theorem pool_submit_after_stop_panics :
  WorkerPool.NewPool 4 1 1 1000000000 = Some Demo.pool_1_1 ∧
  (WorkerPool.SubmitJob Demo.job0
     (WorkerPool.Stop (WorkerPool.Start Demo.pool_1_1))).1
    = Panics "send on closed channel" ∧
  len (WorkerPool.permits
         (WorkerPool.SubmitJob Demo.job0
            (WorkerPool.Stop (WorkerPool.Start Demo.pool_1_1))).2) = 1%Z ∧
  (Proxy.handleAsync Demo.handler_key Demo.plain_request
     (map_to_list Demo.plain_headers) "/v1/logs"
     (Stop (Start (PoolAdapter.mkPoolForwarder (Some Demo.pool_1_1))))).1
    = Proxy.HandlerPanics "send on closed channel" ∧
  Hybrid.NewHybridForwarder 1 1 1 1000000000 = Some Demo.hybrid_1_1_1 ∧
  Hybrid.Submit Demo.hello "http://collector:4318/v1/logs" ∅
                (Hybrid.Stop (Hybrid.Start Demo.hybrid_1_1_1))
    = (Returns (Some "hybrid forwarder stopped"%string),
       Hybrid.Stop (Hybrid.Start Demo.hybrid_1_1_1)) ∧
  Semaphore.NewSemaphoreForwarder 1 1000000000 = Some Demo.semaphore_1 ∧
  Semaphore.Submit Demo.hello "http://collector:4318/v1/logs" ∅
                   (Semaphore.Stop (Semaphore.Start Demo.semaphore_1))
    = (Returns None, Semaphore.Stop (Semaphore.Start Demo.semaphore_1)).
Proof. repeat split; vm_compute; reflexivity. Qed.

End SubmitAfterStop.

(** ** Stop *)

Section PoolStop.
Import WorkerPool.



Lemma pool_SubmitJob_workers job p :
  workers (SubmitJob job p).2 = workers p ∧
  startOnce (SubmitJob job p).2 = startOnce p.
Proof.
  unfold SubmitJob. destruct (has_room (permits p)); [| done]. simpl.
  destruct (closed (jobQueue p)); [done |].
  by destruct (has_room (jobQueue p)).
Qed.






Lemma pool_stop_keeps s s' :
  step LStop s = Some s' ∨ (∃ b, step (LStopReturn b) s = Some s') →
  metrics s' = metrics s ∧
  buf (jobQueue (pool s')) = buf (jobQueue (pool s)) ∧
  workers (pool s') = workers (pool s).
Proof.
  destruct s as [p m]. simpl. intros [Hs | [b Hs]].
  - injection Hs as <-. simpl. unfold Stop. by destruct (stopOnce p).
  - destruct (stopWait p && _); [| discriminate]. by injection Hs as <-.
Qed.

End PoolStop.

Section SemaphoreStop.
Import Semaphore.




Lemma semaphore_stop_keeps s s' :
  step LStop s = Some s' ∨ (∃ b, step (LStopReturn b) s = Some s') →
  metrics s' = metrics s ∧ units (fwd s') = units (fwd s).
Proof.
  destruct s as [f m]. simpl. intros [Hs | [b Hs]].
  - injection Hs as <-. simpl. unfold Stop. by destruct (stopOnce f).
  - destruct (stopWait f && _); [| discriminate]. by injection Hs as <-.
Qed.

End SemaphoreStop.

Section HybridStop.
Import Hybrid.


Lemma hybrid_Submit_workers payload url hd h :
  workers (Submit payload url hd h).2 = workers h ∧
  startOnce (Submit payload url hd h).2 = startOnce h.
Proof.
  unfold Submit. destruct (stopped h); [done |].
  destruct (closed (jobQueue h)); [done |].
  by destruct (has_room (jobQueue h)).
Qed.



Lemma hybrid_stop_keeps s s' :
  step LStop s = Some s' ∨ (∃ b, step (LStopReturn b) s = Some s') →
  metrics s' = metrics s ∧ pending (fwd s') = pending (fwd s).
Proof.
  destruct s as [h m]. simpl. intros [Hs | [b Hs]].
  - injection Hs as <-. simpl. unfold Stop. by destruct (stopOnce h).
  - destruct (stopWait h && _); [| discriminate]. by injection Hs as <-.
Qed.

End HybridStop.

(** ** After stop has returned *)

(** ** Calls of Submit in progress when Stop runs *)

Section SemaphoreCallsStop.
Import SemaphoreCalls.

(** A call that nothing interrupts is the check followed by the spawn. *)
Lemma semaphore_Submit_spawn j f :
  Semaphore.Submit (Body j) (TargetURL j) (Headers j) f
  = if Semaphore.stopped f then (Returns None, f)
    else (Returns None, spawn j f).
Proof. by destruct j. Qed.







End SemaphoreCallsStop.

Section HybridCallsStop.
Import HybridCalls.


(** A call that nothing interrupts is the check followed by the send. *)
Lemma hybrid_Submit_send j h :
  Hybrid.Submit (Body j) (TargetURL j) (Headers j) h
  = if Hybrid.stopped h
    then (Returns (Some "hybrid forwarder stopped"%string), h)
    else send j h.
Proof. by destruct j. Qed.







End HybridCallsStop.

(** ** What becomes of a task that waits for a sender *)

Section PendingTasks.

Lemma pool_finish_sender i o s s' :
  WorkerPool.step (WorkerPool.LFinish i o) s = Some s' →
  (∃ j, WorkerPool.workers (WorkerPool.pool s) !! i = Some (WorkerPool.Busy j)) ∧
  moves_one_counter o (WorkerPool.metrics s) (WorkerPool.metrics s').
Proof.
  intros Hs. split.
  - simpl in Hs.
    destruct (WorkerPool.workers (WorkerPool.pool s) !! i) as [[| j |] |];
      try discriminate.
    by exists j.
  - apply counts_one_moves.
    pose proof (pool_step_counted _ _ _ Hs) as Hc. exact Hc.
Qed.

Lemma pool_queued_until_taken l s s' j :
  WorkerPool.step l s = Some s' →
  j ∈ buf (WorkerPool.jobQueue (WorkerPool.pool s)) →
  j ∈ buf (WorkerPool.jobQueue (WorkerPool.pool s')) ∨
  (∃ i, l = WorkerPool.LTake i ∧
        WorkerPool.workers (WorkerPool.pool s') !! i = Some (WorkerPool.Busy j)).
Proof.
  destruct s as [p m]. simpl.
  destruct l as [| j0 | i | i o | i | | timedOut]; simpl.
  - intros [= <-] Hj. left. simpl. unfold WorkerPool.Start.
    by destruct (WorkerPool.startOnce p).
  - intros [= <-] Hj. left. simpl. unfold WorkerPool.SubmitJob.
    destruct (has_room (WorkerPool.permits p)); [| done]. simpl.
    destruct (closed (WorkerPool.jobQueue p)); [done |].
    destruct (has_room (WorkerPool.jobQueue p)); simpl; [| done].
    apply elem_of_app. by left.
  - destruct (WorkerPool.workers p !! i) as [[| |] |] eqn:Ew; try discriminate.
    unfold WorkerPool.receive.
    destruct (buf (WorkerPool.jobQueue p)) as [| j1 q] eqn:Eb; [discriminate |].
    intros Hs Hj. apply elem_of_cons in Hj as [-> | Hj].
    + right. exists i. split; [done |].
      destruct (WorkerPool.senders p); simpl in Hs; injection Hs as <-; simpl;
        apply list_lookup_insert_eq; apply lookup_lt_is_Some; by eexists.
    + left.
      destruct (WorkerPool.senders p); simpl in Hs; injection Hs as <-; simpl;
        rewrite Eb; simpl; [done |]. apply elem_of_app. by left.
  - destruct (WorkerPool.workers p !! i) as [[| |] |]; try discriminate.
    destruct (buf (WorkerPool.permits p)); [discriminate |].
    intros [= <-] Hj. by left.
  - destruct (WorkerPool.workers p !! i) as [[| |] |]; try discriminate.
    destruct (buf (WorkerPool.jobQueue p)); [| discriminate].
    destruct (closed (WorkerPool.jobQueue p)); [| discriminate].
    intros [= <-] Hj. by apply elem_of_nil in Hj.
  - intros [= <-] Hj. left. simpl. unfold WorkerPool.Stop.
    by destruct (WorkerPool.stopOnce p).
  - destruct (WorkerPool.stopWait p && _); [| discriminate].
    intros [= <-] Hj. by left.
Qed.

Lemma semaphore_finish_sender i o s s' :
  Semaphore.step (Semaphore.LFinish i o) s = Some s' →
  (∃ j, Semaphore.units (Semaphore.fwd s) !! i = Some (Semaphore.Sending j)) ∧
  moves_one_counter o (Semaphore.metrics s) (Semaphore.metrics s').
Proof.
  intros Hs. split.
  - simpl in Hs.
    destruct (Semaphore.units (Semaphore.fwd s) !! i) as [[| j |] |];
      try discriminate.
    by exists j.
  - apply counts_one_moves.
    pose proof (semaphore_step_counted _ _ _ Hs) as Hc. exact Hc.
Qed.

Lemma semaphore_waiting_until_acquired l s s' k j :
  Semaphore.step l s = Some s' →
  Semaphore.units (Semaphore.fwd s) !! k = Some (Semaphore.Waiting j) →
  Semaphore.units (Semaphore.fwd s') !! k = Some (Semaphore.Waiting j) ∨
  (l = Semaphore.LAcquire k ∧
   Semaphore.units (Semaphore.fwd s') !! k = Some (Semaphore.Sending j)).
Proof.
  destruct s as [f m]. simpl.
  destruct l as [| j0 | i | i o | | timedOut]; simpl.
  - intros [= <-] Hk. by left.
  - intros [= <-] Hk. left. simpl. unfold Semaphore.Submit.
    destruct (Semaphore.stopped f); simpl; [done |].
    by apply lookup_app_l_Some.
  - destruct (Semaphore.units f !! i) as [[j1 | |] |] eqn:Ei; try discriminate.
    destruct (has_room (Semaphore.tokens f)); [| discriminate].
    intros [= <-] Hk. simpl. destruct (decide (i = k)) as [-> | Hne].
    + right. split; [done |]. rewrite Hk in Ei. injection Ei as ->.
      apply list_lookup_insert_eq. apply lookup_lt_is_Some. by eexists.
    + left. by rewrite list_lookup_insert_ne.
  - destruct (Semaphore.units f !! i) as [[| j1 |] |] eqn:Ei; try discriminate.
    destruct (buf (Semaphore.tokens f)); [discriminate |].
    intros [= <-] Hk. simpl. left.
    rewrite list_lookup_insert_ne; [done |]. intros ->. congruence.
  - intros [= <-] Hk. left. simpl. unfold Semaphore.Stop.
    by destruct (Semaphore.stopOnce f).
  - destruct (Semaphore.stopWait f && _); [| discriminate].
    intros [= <-] Hk. by left.
Qed.

Lemma hybrid_finish_sender k o s s' :
  Hybrid.step (Hybrid.LFinish k o) s = Some s' →
  (∃ j, Hybrid.sends (Hybrid.fwd s) !! k = Some (Some j)) ∧
  moves_one_counter o (Hybrid.metrics s) (Hybrid.metrics s').
Proof.
  intros Hs. split.
  - simpl in Hs.
    destruct (Hybrid.sends (Hybrid.fwd s) !! k) as [[j |] |]; try discriminate.
    by exists j.
  - apply counts_one_moves.
    pose proof (hybrid_step_counted _ _ _ Hs) as Hc. exact Hc.
Qed.

Lemma hybrid_queued_until_taken l s s' j :
  Hybrid.step l s = Some s' →
  j ∈ buf (Hybrid.jobQueue (Hybrid.fwd s)) →
  j ∈ buf (Hybrid.jobQueue (Hybrid.fwd s')) ∨
  (∃ i, l = Hybrid.LTake i ∧
        Hybrid.workers (Hybrid.fwd s') !! i = Some (Hybrid.Holding j)).
Proof.
  destruct s as [h m]. simpl.
  destruct l as [| j0 | i | i | k o | i | | timedOut]; simpl.
  - intros [= <-] Hj. left. simpl. unfold Hybrid.Start.
    by destruct (Hybrid.startOnce h).
  - intros [= <-] Hj. left. simpl. unfold Hybrid.Submit.
    destruct (Hybrid.stopped h); [done |].
    destruct (closed (Hybrid.jobQueue h)); [done |].
    destruct (has_room (Hybrid.jobQueue h)); simpl; [| done].
    apply elem_of_app. by left.
  - destruct (Hybrid.workers h !! i) as [[| |] |] eqn:Ew; try discriminate.
    destruct (buf (Hybrid.jobQueue h)) as [| j1 q] eqn:Eb; [discriminate |].
    intros [= <-] Hj. simpl. rewrite Eb. simpl.
    apply elem_of_cons in Hj as [-> | Hj]; [| by left].
    right. exists i. split; [done |].
    apply list_lookup_insert_eq. apply lookup_lt_is_Some. by eexists.
  - destruct (Hybrid.workers h !! i) as [[| |] |]; try discriminate.
    destruct (has_room (Hybrid.tokens h)); [| discriminate].
    intros [= <-] Hj. by left.
  - destruct (Hybrid.sends h !! k) as [[|] |]; try discriminate.
    destruct (buf (Hybrid.tokens h)); [discriminate |].
    intros [= <-] Hj. by left.
  - destruct (Hybrid.workers h !! i) as [[| |] |]; try discriminate.
    destruct (buf (Hybrid.jobQueue h)); [| discriminate].
    destruct (closed (Hybrid.jobQueue h)); [| discriminate].
    intros [= <-] Hj. by apply elem_of_nil in Hj.
  - intros [= <-] Hj. left. simpl. unfold Hybrid.Stop.
    by destruct (Hybrid.stopOnce h).
  - destruct (Hybrid.stopWait h && _); [| discriminate].
    intros [= <-] Hj. by left.
Qed.

Lemma hybrid_held_until_dispatched l s s' i j :
  Hybrid.startOnce (Hybrid.fwd s) = true →
  Hybrid.step l s = Some s' →
  Hybrid.workers (Hybrid.fwd s) !! i = Some (Hybrid.Holding j) →
  Hybrid.workers (Hybrid.fwd s') !! i = Some (Hybrid.Holding j) ∨
  (l = Hybrid.LDispatch i ∧
   Hybrid.sends (Hybrid.fwd s') = Hybrid.sends (Hybrid.fwd s) ++ [Some j]).
Proof.
  destruct s as [h m]. simpl. intros Hst.
  destruct l as [| j0 | i0 | i0 | k o | i0 | | timedOut]; simpl.
  - intros [= <-] Hi. left. simpl. unfold Hybrid.Start. by rewrite Hst.
  - intros [= <-] Hi. left. simpl.
    by rewrite (proj1 (hybrid_Submit_workers _ _ _ h)).
  - destruct (Hybrid.workers h !! i0) as [[| |] |] eqn:Ew; try discriminate.
    destruct (buf (Hybrid.jobQueue h)); [discriminate |].
    intros [= <-] Hi. left. simpl.
    rewrite list_lookup_insert_ne; [done |]. intros ->. congruence.
  - destruct (Hybrid.workers h !! i0) as [[| j1 |] |] eqn:Ew; try discriminate.
    destruct (has_room (Hybrid.tokens h)); [| discriminate].
    intros [= <-] Hi. simpl. destruct (decide (i0 = i)) as [-> | Hne].
    + right. rewrite Hi in Ew. by injection Ew as ->.
    + left. by rewrite list_lookup_insert_ne.
  - destruct (Hybrid.sends h !! k) as [[|] |]; try discriminate.
    destruct (buf (Hybrid.tokens h)); [discriminate |].
    intros [= <-] Hi. by left.
  - destruct (Hybrid.workers h !! i0) as [[| |] |] eqn:Ew; try discriminate.
    destruct (buf (Hybrid.jobQueue h)); [| discriminate].
    destruct (closed (Hybrid.jobQueue h)); [| discriminate].
    intros [= <-] Hi. left. simpl.
    rewrite list_lookup_insert_ne; [done |]. intros ->. congruence.
  - intros [= <-] Hi. left. simpl. unfold Hybrid.Stop.
    by destruct (Hybrid.stopOnce h).
  - destruct (Hybrid.stopWait h && _); [| discriminate].
    intros [= <-] Hi. by left.
Qed.

End PendingTasks.

Section AfterStop.




(** C7, as amended. [Stop], and its return on the shutdown timeout, change
    no counter and leave every accepted task that no sender has picked up
    where it is: in the job queue (pool), waiting for a token (semaphore),
    queued or held by a dispatcher (hybrid). From then on, as in every
    history, the counters move only when a send ends: along any history
    they grow by the outcomes of the sends that ended in it, a send that
    ends is the send of a task that a sender held, and it moves one
    counter, chosen by its outcome. A task that waits stays where it is
    until a sender takes it: a step leaves a queued task in the queue or
    hands it to a worker (pool) or dispatcher (hybrid), leaves a task
    that waits for a token waiting or lets its goroutine send it
    (semaphore), and leaves a task held by a dispatcher with it or passes
    it to a new sender (hybrid). *)
Theorem stop_timeout_keeps_pending_tasks :
  (∀ s s',
      WorkerPool.step WorkerPool.LStop s = Some s' ∨
      (∃ b, WorkerPool.step (WorkerPool.LStopReturn b) s = Some s') →
      WorkerPool.metrics s' = WorkerPool.metrics s ∧
      buf (WorkerPool.jobQueue (WorkerPool.pool s'))
        = buf (WorkerPool.jobQueue (WorkerPool.pool s)) ∧
      WorkerPool.workers (WorkerPool.pool s') = WorkerPool.workers (WorkerPool.pool s)) ∧
  (∀ s s',
      Semaphore.step Semaphore.LStop s = Some s' ∨
      (∃ b, Semaphore.step (Semaphore.LStopReturn b) s = Some s') →
      Semaphore.metrics s' = Semaphore.metrics s ∧
      Semaphore.units (Semaphore.fwd s') = Semaphore.units (Semaphore.fwd s)) ∧
  (∀ s s',
      Hybrid.step Hybrid.LStop s = Some s' ∨
      (∃ b, Hybrid.step (Hybrid.LStopReturn b) s = Some s') →
      Hybrid.metrics s' = Hybrid.metrics s ∧
      Hybrid.pending (Hybrid.fwd s') = Hybrid.pending (Hybrid.fwd s)) ∧
  ((∀ t s s',
       WorkerPool.run t s = Some s' →
       counted (WorkerPool.finished t) (WorkerPool.metrics s) (WorkerPool.metrics s')) ∧
   (∀ i o s s',
       WorkerPool.step (WorkerPool.LFinish i o) s = Some s' →
       (∃ j, WorkerPool.workers (WorkerPool.pool s) !! i
             = Some (WorkerPool.Busy j)) ∧
       moves_one_counter o (WorkerPool.metrics s) (WorkerPool.metrics s')) ∧
   (∀ l s s' j,
       WorkerPool.step l s = Some s' →
       j ∈ buf (WorkerPool.jobQueue (WorkerPool.pool s)) →
       j ∈ buf (WorkerPool.jobQueue (WorkerPool.pool s')) ∨
       (∃ i, l = WorkerPool.LTake i ∧
             WorkerPool.workers (WorkerPool.pool s') !! i
             = Some (WorkerPool.Busy j)))) ∧
  ((∀ t s s',
       Semaphore.run t s = Some s' →
       counted (Semaphore.finished t) (Semaphore.metrics s) (Semaphore.metrics s')) ∧
   (∀ i o s s',
       Semaphore.step (Semaphore.LFinish i o) s = Some s' →
       (∃ j, Semaphore.units (Semaphore.fwd s) !! i
             = Some (Semaphore.Sending j)) ∧
       moves_one_counter o (Semaphore.metrics s) (Semaphore.metrics s')) ∧
   (∀ l s s' k j,
       Semaphore.step l s = Some s' →
       Semaphore.units (Semaphore.fwd s) !! k = Some (Semaphore.Waiting j) →
       Semaphore.units (Semaphore.fwd s') !! k = Some (Semaphore.Waiting j) ∨
       (l = Semaphore.LAcquire k ∧
        Semaphore.units (Semaphore.fwd s') !! k = Some (Semaphore.Sending j)))) ∧
  ((∀ t s s',
       Hybrid.run t s = Some s' →
       counted (Hybrid.finished t) (Hybrid.metrics s) (Hybrid.metrics s')) ∧
   (∀ k o s s',
       Hybrid.step (Hybrid.LFinish k o) s = Some s' →
       (∃ j, Hybrid.sends (Hybrid.fwd s) !! k = Some (Some j)) ∧
       moves_one_counter o (Hybrid.metrics s) (Hybrid.metrics s')) ∧
   (∀ l s s' j,
       Hybrid.step l s = Some s' →
       j ∈ buf (Hybrid.jobQueue (Hybrid.fwd s)) →
       j ∈ buf (Hybrid.jobQueue (Hybrid.fwd s')) ∨
       (∃ i, l = Hybrid.LTake i ∧
             Hybrid.workers (Hybrid.fwd s') !! i = Some (Hybrid.Holding j))) ∧
   (∀ l s s' i j,
       Hybrid.startOnce (Hybrid.fwd s) = true →
       Hybrid.step l s = Some s' →
       Hybrid.workers (Hybrid.fwd s) !! i = Some (Hybrid.Holding j) →
       Hybrid.workers (Hybrid.fwd s') !! i = Some (Hybrid.Holding j) ∨
       (l = Hybrid.LDispatch i ∧
        Hybrid.sends (Hybrid.fwd s') = Hybrid.sends (Hybrid.fwd s) ++ [Some j]))).
Proof.
  split; [| split; [| split; [| split; [| split]]]].
  - apply pool_stop_keeps.
  - apply semaphore_stop_keeps.
  - apply hybrid_stop_keeps.
  - split; [| split].
    + apply pool_run_counted.
    + apply pool_finish_sender.
    + apply pool_queued_until_taken.
  - split; [| split].
    + apply semaphore_run_counted.
    + apply semaphore_finish_sender.
    + apply semaphore_waiting_until_acquired.
  - split; [| split; [| split]].
    + apply hybrid_run_counted.
    + apply hybrid_finish_sender.
    + apply hybrid_queued_until_taken.
    + apply hybrid_held_until_dispatched.
Qed.

(** What the amended C7 says of the task queued when [Stop] timed out in
    the history of the counterexample below: the timeout left it queued
    with the counters as they were, the worker took it later, and only
    the end of that send counted it. *)
Lemma stop_timeout_keeps_pending_tasks_witness :
  buf (WorkerPool.jobQueue (WorkerPool.Stop (WorkerPool.pool Demo.pool_saturated_state)))
  = [Demo.job1] ∧
  counted [Responded Demo.ok_response; Responded Demo.ok_response]
          (mkMetrics 1 0 0) (mkMetrics 0 2 0).
Proof.
  split.
  - destruct (proj1 stop_timeout_keeps_pending_tasks Demo.pool_saturated_state
                (WorkerPool.mkState
                   (WorkerPool.Stop (WorkerPool.pool Demo.pool_saturated_state))
                   (WorkerPool.metrics Demo.pool_saturated_state)))
      as (_ & Hq & _).
    + left. reflexivity.
    + exact Hq.
  - refine (proj1 (proj1 (proj2 (proj2 (proj2 stop_timeout_keeps_pending_tasks))))
              Demo.pool_after_timeout
              (WorkerPool.mkState
                 (WorkerPool.mkPool 1 (mkChan [Demo.job1] 1 true)
                    (mkChan [(); ()] 2 false) 1000000000 true true
                    [WorkerPool.Busy Demo.job0] [] false)
                 (mkMetrics 1 0 0))
              (WorkerPool.mkState
                 (WorkerPool.mkPool 1 (mkChan [] 1 true)
                    (mkChan [] 2 false) 1000000000 true true
                    [WorkerPool.Idle] [] false)
                 (mkMetrics 0 2 0)) _).
    vm_compute. reflexivity.
Defined.

(** C7 fails as stated: when [Stop] returns on its timeout with one task
    still queued, jobs_failed_total is 0 and the task is still in the
    queue; the worker later sends it and it is counted as processed. *)
Lemma stop_timeout_counterexample :
  (λ s, (buf (WorkerPool.jobQueue (WorkerPool.pool s)),
         JobsFailedCounter (WorkerPool.metrics s)))
    <$> WorkerPool.run Demo.pool_stop_times_out (WorkerPool.init Demo.pool_1_1)
  = Some ([Demo.job1], 0%nat) ∧
  (λ s, (buf (WorkerPool.jobQueue (WorkerPool.pool s)),
         JobsProcessedCounter (WorkerPool.metrics s),
         JobsFailedCounter (WorkerPool.metrics s)))
    <$> WorkerPool.run (Demo.pool_stop_times_out ++ Demo.pool_after_timeout)
                       (WorkerPool.init Demo.pool_1_1)
  = Some ([], 2%nat, 0%nat).
Proof. split; vm_compute; reflexivity. Qed.

End AfterStop.

Section Witnesses.

Lemma pool_outstanding_bounded_witness :
  (WorkerPool.outstanding (WorkerPool.pool Demo.pool_saturated_state) ≤ 1 + 1)%Z ∧
  ∃ e, (WorkerPool.SubmitJob Demo.job0
          (WorkerPool.pool Demo.pool_saturated_state)).1 = Returns (Some e).
Proof.
  destruct (pool_outstanding_bounded 4 1 1 1000000000 Demo.pool_1_1
              Demo.pool_saturated Demo.pool_saturated_state)
    as (_ & _ & Hle & _ & Hiff & _).
  - unfold is_int. split; [vm_compute; discriminate | reflexivity].
  - unfold is_int. split; [vm_compute; discriminate | reflexivity].
  - vm_compute. reflexivity.
  - vm_compute. reflexivity.
  - split; [exact Hle |].
    apply (Hiff eq_refl Demo.job0). vm_compute. reflexivity.
Defined.

Lemma async_reply_decided_witness :
  Proxy.handleAsync Demo.handler_key Demo.plain_request
    (map_to_list Demo.plain_headers) "/v1/logs"
    (PoolAdapter.mkPoolForwarder (Some (WorkerPool.pool Demo.pool_saturated_state)))
  = (Proxy.Reply (Proxy.mkClientResponse 503 ∅ []),
     PoolAdapter.mkPoolForwarder (Some (WorkerPool.pool Demo.pool_saturated_state))).
Proof.
  refine (proj2 (proj2 (proj1 (async_reply_decided Demo.handler_key Demo.plain_request
            (map_to_list Demo.plain_headers) "/v1/logs") _ _ _))
            Demo.hello "worker pool queue full"%string _ _ _).
  - reflexivity.
  - vm_compute. reflexivity.
Defined.

Lemma counters_account_for_terminal_tasks_witness :
  (λ s, (JobsProcessedCounter (WorkerPool.metrics s),
         JobsFailedCounter (WorkerPool.metrics s)))
    <$> WorkerPool.run (Demo.pool_stop_times_out ++ Demo.pool_after_timeout)
                       (WorkerPool.init Demo.pool_1_1)
  = Some (2%nat, 0%nat).
Proof.
  destruct (WorkerPool.run (Demo.pool_stop_times_out ++ Demo.pool_after_timeout)
              (WorkerPool.init Demo.pool_1_1)) as [s |] eqn:Hr;
    [| vm_compute in Hr; discriminate].
  destruct (proj1 (proj2 counters_account_for_terminal_tasks)
              Demo.pool_1_1 _ s Hr) as (Hp & Hf & _).
  simpl. rewrite Hp, Hf. reflexivity.
Defined.

End Witnesses.

(** ** The pool at its boundary *)

Section PoolBoundary.
Import WorkerPool.

Lemma busy_lookup ws i j : ws !! i = Some (Busy j) → (1 ≤ busy ws)%nat.
Proof.
  revert i. induction ws as [| w ws IH]; intros [| i] Hi; simpl in *; try discriminate.
  - injection Hi as ->. unfold busy. simpl. lia.
  - specialize (IH i Hi). unfold busy in *. simpl. destruct (is_busy w); simpl; lia.
Qed.

(** The release of the permit at the end of a task never blocks: in a
    pool that satisfies the invariant every busy worker can end its task,
    whatever the collector answered. *)
Lemma pool_finish_enabled p m i j o :
  pool_inv p → workers p !! i = Some (Busy j) →
  is_Some (step (LFinish i o) (mkState p m)).
Proof.
  intros [_ Hheld _ _ _] Hi. simpl. rewrite Hi.
  pose proof (busy_lookup _ _ _ Hi) as Hb.
  unfold outstanding, len in Hheld.
  destruct (buf (permits p)) as [| u pm]; [simpl in Hheld; lia | by eexists].
Qed.

(** One worker, one queue slot, a slow collector: the first two submits
    are accepted, the third is rejected. Once the first send has ended and
    the worker has taken the queued task, a further submit is accepted at
    once; a submit that comes between the two is accepted as well, waits
    inside [SubmitJob] for the queue slot, and gets it when the worker
    takes the queued task. *)
Example pool_one_worker_one_slot :
  run Demo.pool_saturated (init Demo.pool_1_1) = Some Demo.pool_saturated_state ∧
  (SubmitJob Demo.job0 (pool Demo.pool_saturated_state)).1
    = Returns (Some "worker pool queue full"%string) ∧
  (λ s, (SubmitJob Demo.job0 (pool s)).1)
    <$> run [LFinish 0 (Responded Demo.ok_response); LTake 0]
            Demo.pool_saturated_state
    = Some (Returns None) ∧
  (λ s, (SubmitJob Demo.job0 (pool s)).1)
    <$> run [LFinish 0 (Responded Demo.ok_response)] Demo.pool_saturated_state
    = Some Blocks ∧
  (λ s, (senders (pool s), buf (jobQueue (pool s)), workers (pool s)))
    <$> run [LFinish 0 (Responded Demo.ok_response); LSubmit Demo.job0; LTake 0]
            Demo.pool_saturated_state
    = Some ([], [Demo.job0], [Busy Demo.job1]).
Proof. repeat split; vm_compute; reflexivity. Qed.

End PoolBoundary.

(** * Further properties of the code *)

(** ** The pool: queue depth, active workers, order of service *)

Section PoolShape.
Import WorkerPool PoolHistory.

Lemma busy_le_length ws : (busy ws ≤ length ws)%nat.
Proof.
  unfold busy. induction ws as [| w ws IH]; simpl; [lia |].
  destruct (is_busy w); simpl; lia.
Qed.

Lemma worker_after_send_gauge o m :
  ActiveWorkersGauge (worker_after_send o m).1 = (ActiveWorkersGauge m - 1)%Z.
Proof.
  destruct o as [| | resp]; simpl; try reflexivity.
  by destruct (_ || _).
Qed.

Lemma NewPool_shape numCPU W Q timeout p :
  NewPool numCPU W Q timeout = Some p → shape (init p).
Proof.
  unfold NewPool, make.
  destruct ((if (Q <=? 0)%Z then _ else _) <? 0)%Z eqn:Eq; [discriminate |]. simpl.
  destruct (int_add _ _ <? 0)%Z; [discriminate |]. simpl.
  intros [= <-]. apply Z.ltb_ge in Eq.
  split; simpl; unfold len; simpl; try done; lia.
Qed.

Ltac shape_close Hw Hn :=
  split; simpl;
  rewrite ?len_push, ?length_insert, ?worker_after_send_gauge,
    ?length_replicate, ?busy_replicate_idle;
  auto; try lia; try done;
  try (let Hx := fresh "Hx" in
       intros Hx;
       first [ destruct (Hw Hx) as [? ?]; split; first [lia | done | congruence]
             | split; first [lia | done | congruence]
             | match goal with
               | H : workers _ !! _ = Some _ |- _ =>
                   rewrite (Hn Hx) in H; discriminate
               end
             | congruence ]).

Lemma pool_step_shape l s s' : shape s → step l s = Some s' → shape s'.
Proof.
  intros [Hd Hw Hn Hl Hg]. destruct s as [p m]. simpl in *.
  destruct l as [| j | i | i o | i | | timedOut]; simpl.
  - intros [= <-]. unfold Start. destruct (startOnce p) eqn:Es.
    + shape_close Hw Hn.
    + specialize (Hn eq_refl). rewrite Hn in Hg. shape_close Hw Hn.
  - intros [= <-]. unfold SubmitJob.
    destruct (has_room (permits p)) eqn:Er; [| shape_close Hw Hn]. simpl.
    destruct (closed (jobQueue p)) eqn:Ec; simpl; [shape_close Hw Hn |].
    destruct (has_room (jobQueue p)) eqn:Eq; simpl.
    + apply has_room_true in Eq.
      assert (senders p = []) as Hs.
      { destruct (senders p) eqn:E; [done |]. destruct Hw as [Hw _]; [done | lia]. }
      shape_close Hw Hn.
    + apply has_room_false in Eq. shape_close Hw Hn.
  - destruct (workers p !! i) as [[| |] |] eqn:Ew; try discriminate.
    unfold receive. destruct (buf (jobQueue p)) as [| j q] eqn:Eb; [discriminate |].
    pose proof (busy_insert (workers p) i Idle (Busy j) Ew) as Hb. simpl in Hb.
    pose proof (len_pop _ _ _ Eb) as Hp.
    assert (len (jobQueue p) = Z.of_nat (S (length q))) as Hlen
      by (unfold len; by rewrite Eb).
    destruct (senders p) as [| sd rest] eqn:Esd; simpl; intros [= <-].
    + shape_close Hw Hn.
    + destruct Hw as [Hf Hc]; [done |]. shape_close Hf Hn.
  - destruct (workers p !! i) as [[| j |] |] eqn:Ew; try discriminate.
    destruct (buf (permits p)); [discriminate |].
    pose proof (busy_insert (workers p) i (Busy j) Idle Ew) as Hb. simpl in Hb.
    intros [= <-]. shape_close Hw Hn.
  - destruct (workers p !! i) as [[| |] |] eqn:Ew; try discriminate.
    destruct (buf (jobQueue p)); [| discriminate].
    destruct (closed (jobQueue p)); [| discriminate].
    pose proof (busy_insert (workers p) i Idle Exited Ew) as Hb. simpl in Hb.
    intros [= <-]. shape_close Hw Hn.
  - intros [= <-]. unfold Stop. destruct (stopOnce p); shape_close Hw Hn.
  - destruct (stopWait p && _); [| discriminate]. intros [= <-]. shape_close Hw Hn.
Qed.

Lemma pool_run_shape t s s' : shape s → run t s = Some s' → shape s'.
Proof.
  revert s. induction t as [| l t IH]; intros s Hs; simpl.
  - by intros [= <-].
  - destruct (step l s) as [s1 |] eqn:Es; [| discriminate]. simpl.
    apply IH. eapply pool_step_shape; eauto.
Qed.

(** X1. In every state a pool built by [NewPool] reaches, the queue depth
    it reports lies between 0 and the capacity of the job queue (the
    configured size, or 10000 for a size that is not positive), and a
    caller waits inside [SubmitJob] only while the queue is full. *)
Theorem pool_queue_depth_bounded numCPU W Q timeout p t s :
  NewPool numCPU W Q timeout = Some p →
  run t (init p) = Some s →
  cap (jobQueue (pool s)) = (if (Q <=? 0)%Z then 10000%Z else Q) ∧
  (0 ≤ GetQueueDepth (pool s) ≤ cap (jobQueue (pool s)))%Z ∧
  (senders (pool s) ≠ [] → GetQueueDepth (pool s) = cap (jobQueue (pool s))).
Proof.
  intros Hnew Hrun.
  destruct (pool_run_shape t _ s (NewPool_shape _ _ _ _ _ Hnew) Hrun)
    as [Hd Hw _ _ _].
  destruct (run_fixed _ _ _ Hrun) as [_ Hqc]. simpl in Hqc.
  destruct (NewPool_fields _ _ _ _ _ Hnew) as [_ Hq].
  unfold GetQueueDepth. split; [congruence |]. split; [done |].
  intros Hs. by destruct (Hw Hs).
Qed.

Lemma pool_queue_depth_bounded_witness :
  (0 ≤ GetQueueDepth (pool Demo.pool_saturated_state) ≤ 1)%Z.
Proof.
  exact (proj1 (proj2 (pool_queue_depth_bounded 4 1 1 1000000000
                         Demo.pool_1_1 Demo.pool_saturated
                         Demo.pool_saturated_state eq_refl eq_refl))).
Defined.

(** X2. In every state a pool built by [NewPool] reaches, from a gauge at
    0, the active-workers gauge equals the number of workers that hold a
    task, and never exceeds the worker count (the configured one, or
    50 x NumCPU). *)
Theorem pool_active_workers_bounded numCPU W Q timeout p t s :
  NewPool numCPU W Q timeout = Some p →
  run t (init p) = Some s →
  workerCount (pool s) = (if (W <=? 0)%Z then int_mul 50 numCPU else W) ∧
  ActiveWorkersGauge (metrics s) = Z.of_nat (busy (workers (pool s))) ∧
  (0 ≤ ActiveWorkersGauge (metrics s) ≤ Z.max 0 (workerCount (pool s)))%Z.
Proof.
  intros Hnew Hrun.
  destruct (pool_run_shape t _ s (NewPool_shape _ _ _ _ _ Hnew) Hrun)
    as [_ _ _ Hl Hg].
  destruct (run_fixed _ _ _ Hrun) as [Hwc _]. simpl in Hwc.
  destruct (NewPool_fields _ _ _ _ _ Hnew) as [Hw _].
  split; [congruence |]. split; [done |].
  pose proof (busy_le_length (workers (pool s))). lia.
Qed.

Lemma pool_active_workers_bounded_witness :
  (0 ≤ ActiveWorkersGauge (metrics Demo.pool_saturated_state) ≤ 1)%Z.
Proof.
  exact (proj2 (proj2 (pool_active_workers_bounded 4 1 1 1000000000
                         Demo.pool_1_1 Demo.pool_saturated
                         Demo.pool_saturated_state eq_refl eq_refl))).
Defined.

End PoolShape.

Section PoolFifo.
Import WorkerPool PoolHistory.

Lemma pool_step_stopped l s s' :
  step l s = Some s' → stopOnce (pool s) = true → stopOnce (pool s') = true.
Proof.
  destruct s as [p m]. destruct l as [| j | i | i o | i | | timedOut]; simpl.
  - intros [= <-]. simpl. unfold Start. by destruct (startOnce p).
  - intros [= <-]. simpl. unfold SubmitJob.
    destruct (has_room (permits p)); [| done]. simpl.
    destruct (closed (jobQueue p)); [done |].
    by destruct (has_room (jobQueue p)).
  - destruct (workers p !! i) as [[| |] |]; try discriminate.
    unfold receive. destruct (buf (jobQueue p)); [discriminate |].
    destruct (senders p); simpl; by intros [= <-].
  - destruct (workers p !! i) as [[| |] |]; try discriminate.
    destruct (buf (permits p)); [discriminate |]. by intros [= <-].
  - destruct (workers p !! i) as [[| |] |]; try discriminate.
    destruct (buf (jobQueue p)); [| discriminate].
    destruct (closed (jobQueue p)); [| discriminate]. by intros [= <-].
  - intros [= <-]. simpl. unfold Stop. by destruct (stopOnce p) eqn:E.
  - destruct (stopWait p && _); [| discriminate]. by intros [= <-].
Qed.

Lemma pool_run_stopped t s s' :
  run t s = Some s' → stopOnce (pool s) = true → stopOnce (pool s') = true.
Proof.
  revert s. induction t as [| l t IH]; intros s; simpl.
  - by intros [= <-].
  - destruct (step l s) as [s1 |] eqn:Es; [| discriminate]. simpl.
    intros Hr Hs. apply (IH s1 Hr). eapply pool_step_stopped; eauto.
Qed.

Lemma pool_fifo_step l s s' :
  shape s → step l s = Some s' → stopOnce (pool s') = false →
  pending (pool s) ++ accepted_by l s = taken_by l s ++ pending (pool s').
Proof.
  intros [Hd Hw _ _ _]. destruct s as [p m]. simpl in *.
  unfold pending.
  destruct l as [| j | i | i o | i | | timedOut]; simpl.
  - intros [= <-] _. simpl. unfold Start.
    destruct (startOnce p); simpl; by rewrite app_nil_r.
  - intros [= <-] _. simpl. unfold SubmitJob.
    destruct (has_room (permits p)); simpl; [| by rewrite app_nil_r].
    destruct (closed (jobQueue p)); simpl; [by rewrite app_nil_r |].
    destruct (has_room (jobQueue p)) eqn:Eq; simpl.
    + apply has_room_true in Eq.
      assert (senders p = []) as ->.
      { destruct (senders p) eqn:E; [done |]. destruct Hw as [Hw _]; [done | lia]. }
      by rewrite !app_nil_r.
    + by rewrite app_assoc.
  - destruct (workers p !! i) as [[| |] |] eqn:Ew; try discriminate.
    unfold receive. destruct (buf (jobQueue p)) as [| j q] eqn:Eb; [discriminate |].
    destruct (senders p) as [| sd rest] eqn:Esd; simpl; intros [= <-] _; simpl.
    + by rewrite Eb, Esd, !app_nil_r.
    + rewrite Eb, app_nil_r. simpl. by rewrite <- app_assoc.
  - destruct (workers p !! i) as [[| |] |]; try discriminate.
    destruct (buf (permits p)); [discriminate |].
    intros [= <-] _. simpl. by rewrite app_nil_r.
  - destruct (workers p !! i) as [[| |] |]; try discriminate.
    destruct (buf (jobQueue p)) eqn:Eb; [| discriminate].
    destruct (closed (jobQueue p)); [| discriminate].
    intros [= <-] _. simpl. by rewrite Eb, app_nil_r.
  - intros [= <-]. simpl. unfold Stop.
    destruct (stopOnce p); simpl; [by rewrite app_nil_r | done].
  - destruct (stopWait p && _); [| discriminate].
    intros [= <-] _. simpl. by rewrite app_nil_r.
Qed.

Lemma pool_fifo_run t s s' :
  shape s → run t s = Some s' → stopOnce (pool s') = false →
  pending (pool s) ++ accepted t s = taken t s ++ pending (pool s').
Proof.
  revert s. induction t as [| l t IH]; intros s Hs; simpl.
  - intros [= <-] _. by rewrite app_nil_r.
  - destruct (step l s) as [s1 |] eqn:Es; [| discriminate]. simpl.
    intros Hr Hns.
    assert (stopOnce (pool s1) = false) as Hns1.
    { destruct (stopOnce (pool s1)) eqn:E; [| done].
      by rewrite (pool_run_stopped t s1 s' Hr E) in Hns. }
    rewrite app_assoc, (pool_fifo_step l s s1 Hs Es Hns1), <- !app_assoc.
    f_equal. apply (IH s1); [| done | done]. eapply pool_step_shape; eauto.
Qed.

(** X3. The pool serves first in, first out: in every history of a pool
    built by [NewPool] that [Stop] has not ended, the tasks handed to
    workers, in the order they were handed out, followed by the tasks
    still queued and those whose submitter waits for a slot, are exactly
    the accepted tasks in the order of their submits. *)
Theorem pool_serves_in_order numCPU W Q timeout p t s :
  NewPool numCPU W Q timeout = Some p →
  run t (init p) = Some s →
  stopOnce (pool s) = false →
  accepted t (init p) = taken t (init p) ++ pending (pool s) ∧
  taken t (init p) `prefix_of` accepted t (init p).
Proof.
  intros Hnew Hrun Hns.
  pose proof (pool_fifo_run t (init p) s (NewPool_shape _ _ _ _ _ Hnew) Hrun Hns) as H.
  assert (pending (pool (init p)) = []) as Hp0.
  { unfold NewPool, make in Hnew.
    destruct ((if (Q <=? 0)%Z then _ else _) <? 0)%Z; [discriminate |]. simpl in Hnew.
    destruct (int_add _ _ <? 0)%Z; [discriminate |]. simpl in Hnew.
    by injection Hnew as <-. }
  rewrite Hp0 in H. simpl in H. split; [done |].
  rewrite H. by eexists.
Qed.

Lemma pool_serves_in_order_witness :
  accepted Demo.pool_saturated (init Demo.pool_1_1)
  = taken Demo.pool_saturated (init Demo.pool_1_1) ++ [Demo.job1].
Proof.
  exact (proj1 (pool_serves_in_order 4 1 1 1000000000 Demo.pool_1_1
                  Demo.pool_saturated Demo.pool_saturated_state
                  eq_refl eq_refl eq_refl)).
Defined.

End PoolFifo.

(** ** Start and Stop run once *)

Section Idempotence.


End Idempotence.

(** ** The semaphore forwarder: waiters and tokens *)

Section SemaphoreShape.
Import Semaphore SemaphoreHistory.

Lemma count_insert {A} (f : A → bool) (ws : list A) i w w' :
  ws !! i = Some w →
  (length (List.filter f (<[i := w']> ws)) + Nat.b2n (f w)
   = length (List.filter f ws) + Nat.b2n (f w'))%nat.
Proof.
  revert i. induction ws as [| x ws IH]; intros [| i] Hi; simpl in *; try discriminate.
  - injection Hi as ->. destruct (f w), (f w'); simpl; lia.
  - specialize (IH i Hi). destruct (f x); simpl; lia.
Qed.

Lemma count_snoc {A} (f : A → bool) (ws : list A) x :
  length (List.filter f (ws ++ [x])) = (length (List.filter f ws) + Nat.b2n (f x))%nat.
Proof. rewrite List.filter_app, length_app. simpl. destruct (f x); simpl; lia. Qed.

Lemma unit_after_send_gauge o m :
  ActiveWorkersGauge (unit_after_send o m).1 = (ActiveWorkersGauge m - 1)%Z.
Proof.
  destruct o as [| | resp]; simpl; try reflexivity.
  by destruct (_ || _).
Qed.

Lemma NewSemaphoreForwarder_fields mc timeout f :
  NewSemaphoreForwarder mc timeout = Some f →
  maxConcurrent f = (if (mc <=? 0)%Z then 10000%Z else mc) ∧
  cap (tokens f) = maxConcurrent f ∧
  shape (init f).
Proof.
  unfold NewSemaphoreForwarder, make.
  destruct ((if (mc <=? 0)%Z then _ else _) <? 0)%Z eqn:E; [discriminate |]. simpl.
  intros [= <-]. apply Z.ltb_ge in E. simpl.
  split; [done |]. split; [done |].
  split; simpl; unfold len; simpl; try done; lia.
Qed.

Lemma semaphore_step_shape l s s' :
  shape s → step l s = Some s' →
  shape s' ∧
  maxConcurrent (fwd s') = maxConcurrent (fwd s) ∧
  cap (tokens (fwd s')) = cap (tokens (fwd s)).
Proof.
  intros [Hw Ht Hc Hg]. destruct s as [f m]. simpl in *.
  unfold waiting, sending in *.
  destruct l as [| j | i | i o | | timedOut]; simpl.
  - intros [= <-]. by repeat split.
  - intros [= <-]. unfold Submit. destruct (stopped f); [by repeat split |].
    split; [| done].
    split; simpl; unfold waiting, sending; rewrite ?count_snoc; simpl; try done; lia.
  - destruct (units f !! i) as [[j | |] |] eqn:Eu; try discriminate.
    destruct (has_room (tokens f)) eqn:Er; [| discriminate].
    apply has_room_true in Er. intros [= <-]. split; [| done].
    pose proof (count_insert is_waiting _ i _ (Sending j) Eu) as H1.
    pose proof (count_insert is_sending _ i _ (Sending j) Eu) as H2.
    simpl in H1, H2.
    split; simpl; unfold waiting, sending; rewrite ?len_push; lia.
  - destruct (units f !! i) as [[| j |] |] eqn:Eu; try discriminate.
    destruct (buf (tokens f)) as [| u tk] eqn:Eb; [discriminate |].
    intros [= <-]. split; [| done].
    pose proof (count_insert is_waiting _ i _ Done Eu) as H1.
    pose proof (count_insert is_sending _ i _ Done Eu) as H2.
    pose proof (len_pop _ _ _ Eb) as Hp.
    simpl in H1, H2.
    split; simpl; unfold waiting, sending; rewrite ?unit_after_send_gauge; lia.
  - intros [= <-]. unfold Stop. destruct (stopOnce f); by repeat split.
  - destruct (stopWait f && _); [| discriminate]. intros [= <-]. by repeat split.
Qed.

Lemma semaphore_run_shape t s s' :
  shape s → run t s = Some s' →
  shape s' ∧
  maxConcurrent (fwd s') = maxConcurrent (fwd s) ∧
  cap (tokens (fwd s')) = cap (tokens (fwd s)).
Proof.
  revert s. induction t as [| l t IH]; intros s Hs; simpl.
  - by intros [= <-].
  - destruct (step l s) as [s1 |] eqn:Es; [| discriminate]. simpl. intros Hr.
    destruct (semaphore_step_shape l s s1 Hs Es) as (Hs1 & Hm & Hc).
    destruct (IH s1 Hs1 Hr) as (Hs' & Hm' & Hc').
    split; [done |]. split; congruence.
Qed.

(** X5. The semaphore forwarder never refuses: in every state it reaches,
    [Submit] returns nil. The queue depth it reports is the number of
    spawned goroutines that wait for a token (capped at the largest int),
    so it is never negative. *)
Theorem semaphore_queue_depth_counts_waiters mc timeout f t s :
  NewSemaphoreForwarder mc timeout = Some f →
  run t (init f) = Some s →
  GetQueueDepth (fwd s) = Z.min (Z.of_nat (waiting (units (fwd s)))) max_int ∧
  (0 ≤ GetQueueDepth (fwd s))%Z ∧
  (∀ payload url hd, (Submit payload url hd (fwd s)).1 = Returns None).
Proof.
  intros Hnew Hrun.
  destruct (NewSemaphoreForwarder_fields _ _ _ Hnew) as (_ & _ & Hs0).
  destruct (semaphore_run_shape t _ s Hs0 Hrun) as ([Hw _ _ _] & _ & _).
  unfold GetQueueDepth. rewrite Hw.
  assert (0 < max_int)%Z as Hm by reflexivity.
  split; [| split].
  - destruct (Z.ltb_spec (Z.of_nat (waiting (units (fwd s)))) 0); [lia |].
    rewrite Z.gtb_ltb.
    destruct (Z.ltb_spec max_int (Z.of_nat (waiting (units (fwd s))))); lia.
  - destruct (Z.ltb_spec (Z.of_nat (waiting (units (fwd s)))) 0); [lia |].
    rewrite Z.gtb_ltb.
    destruct (Z.ltb_spec max_int (Z.of_nat (waiting (units (fwd s))))); lia.
  - intros payload url hd. unfold Submit. by destruct (stopped (fwd s)).
Qed.

Lemma semaphore_queue_depth_counts_waiters_witness :
  GetQueueDepth (fwd Scenarios.semaphore_one_waiting_state) =
  Z.min 1 max_int.
Proof.
  exact (proj1 (semaphore_queue_depth_counts_waiters 1 1000000000
                  Demo.semaphore_1 Scenarios.semaphore_one_waiting
                  Scenarios.semaphore_one_waiting_state eq_refl eq_refl)).
Defined.

(** X6. In every state the semaphore forwarder reaches, from a gauge at 0,
    the tokens in use, the goroutines that are sending and the
    active-workers gauge are the same number, and it never exceeds the
    concurrency ceiling (the configured one, or 10000). *)
Theorem semaphore_concurrency_bounded mc timeout f t s :
  NewSemaphoreForwarder mc timeout = Some f →
  run t (init f) = Some s →
  maxConcurrent (fwd s) = (if (mc <=? 0)%Z then 10000%Z else mc) ∧
  len (tokens (fwd s)) = Z.of_nat (sending (units (fwd s))) ∧
  ActiveWorkersGauge (metrics s) = Z.of_nat (sending (units (fwd s))) ∧
  (Z.of_nat (sending (units (fwd s))) ≤ maxConcurrent (fwd s))%Z.
Proof.
  intros Hnew Hrun.
  destruct (NewSemaphoreForwarder_fields _ _ _ Hnew) as (Hmc & Hcap & Hs0).
  destruct (semaphore_run_shape t _ s Hs0 Hrun) as ([_ Ht Hc Hg] & Hm & Hcp).
  simpl in Hm, Hcp. split; [congruence |]. split; [done |]. split; [done |].
  rewrite <- Ht. rewrite Hm, <- Hcap, <- Hcp. done.
Qed.

Lemma semaphore_concurrency_bounded_witness :
  len (tokens (fwd Scenarios.semaphore_one_waiting_state)) = 1%Z ∧
  ActiveWorkersGauge (metrics Scenarios.semaphore_one_waiting_state) = 1%Z.
Proof.
  destruct (semaphore_concurrency_bounded 1 1000000000
              Demo.semaphore_1 Scenarios.semaphore_one_waiting
              Scenarios.semaphore_one_waiting_state eq_refl eq_refl)
    as (_ & Ht & Hg & _).
  split; [exact Ht | exact Hg].
Defined.

End SemaphoreShape.

(** ** The hybrid forwarder: queue and tokens *)

Section HybridShape.
Import Hybrid HybridHistory.

Lemma sender_after_send_gauge o m :
  ActiveWorkersGauge (sender_after_send o m).1 = (ActiveWorkersGauge m - 1)%Z.
Proof.
  destruct o as [| | resp]; simpl; try reflexivity.
  by destruct (_ || _).
Qed.

Lemma NewHybridForwarder_fields W Q mc timeout h :
  NewHybridForwarder W Q mc timeout = Some h →
  cap (jobQueue h) = (if (Q <=? 0)%Z then 10000%Z else Q) ∧
  cap (tokens h) = (if (mc <=? 0)%Z then 10000%Z else mc) ∧
  shape (init h).
Proof.
  unfold NewHybridForwarder, make.
  destruct ((if (Q <=? 0)%Z then _ else _) <? 0)%Z eqn:E1; [discriminate |]. simpl.
  destruct ((if (mc <=? 0)%Z then _ else _) <? 0)%Z eqn:E2; [discriminate |]. simpl.
  intros [= <-]. apply Z.ltb_ge in E1, E2. simpl.
  split; [done |]. split; [done |].
  split; simpl; unfold len; simpl; try done; lia.
Qed.

Ltac hybrid_close :=
  repeat split; simpl; unfold running;
  rewrite ?len_push, ?count_snoc, ?sender_after_send_gauge; simpl;
  first [ done | lia | congruence ].

Lemma hybrid_step_shape l s s' :
  shape s → step l s = Some s' →
  shape s' ∧
  cap (jobQueue (fwd s')) = cap (jobQueue (fwd s)) ∧
  cap (tokens (fwd s')) = cap (tokens (fwd s)).
Proof.
  intros [Hd Ht Hc Hg Hst]. destruct s as [h m]. simpl in *.
  unfold running in *.
  destruct l as [| j | i | i | k o | i | | timedOut]; simpl.
  - intros [= <-]. unfold Start. destruct (startOnce h); hybrid_close.
  - intros [= <-]. unfold Submit. destruct (stopped h) eqn:Es; [hybrid_close |].
    rewrite <- Hst. destruct (has_room (jobQueue h)) eqn:Er; [| hybrid_close].
    apply has_room_true in Er. hybrid_close.
  - destruct (workers h !! i) as [[| |] |]; try discriminate.
    destruct (buf (jobQueue h)) as [| j q] eqn:Eb; [discriminate |].
    intros [= <-].
    pose proof (len_pop _ _ _ Eb) as Hp.
    assert (len (jobQueue h) = Z.of_nat (S (length q))) as Hlen
      by (unfold len; by rewrite Eb).
    hybrid_close.
  - destruct (workers h !! i) as [[| j |] |]; try discriminate.
    destruct (has_room (tokens h)) eqn:Er; [| discriminate].
    apply has_room_true in Er. intros [= <-]. hybrid_close.
  - destruct (sends h !! k) as [[j |] |] eqn:Ek; try discriminate.
    destruct (buf (tokens h)) as [| u tk] eqn:Eb; [discriminate |].
    intros [= <-].
    pose proof (count_insert is_running _ k _ None Ek) as H1. simpl in H1.
    pose proof (len_pop _ _ _ Eb) as Hp.
    hybrid_close.
  - destruct (workers h !! i) as [[| |] |]; try discriminate.
    destruct (buf (jobQueue h)); [| discriminate].
    destruct (closed (jobQueue h)) eqn:Ec; [| discriminate].
    intros [= <-]. hybrid_close.
  - intros [= <-]. unfold Stop.
    destruct (stopOnce h); repeat split; simpl; unfold close, len, running in *;
      simpl; first [ done | lia | congruence ].
  - destruct (stopWait h && _); [| discriminate]. intros [= <-]. hybrid_close.
Qed.

Lemma hybrid_run_shape t s s' :
  shape s → run t s = Some s' →
  shape s' ∧
  cap (jobQueue (fwd s')) = cap (jobQueue (fwd s)) ∧
  cap (tokens (fwd s')) = cap (tokens (fwd s)).
Proof.
  revert s. induction t as [| l t IH]; intros s Hs; simpl.
  - by intros [= <-].
  - destruct (step l s) as [s1 |] eqn:Es; [| discriminate]. simpl. intros Hr.
    destruct (hybrid_step_shape l s s1 Hs Es) as (Hs1 & Hq & Hc).
    destruct (IH s1 Hs1 Hr) as (Hs' & Hq' & Hc').
    split; [done |]. split; congruence.
Qed.

(** X8. In every state the hybrid forwarder reaches, from a gauge at 0, the
    tokens in use, the detached senders still running and the
    active-workers gauge are the same number, and it never exceeds the
    concurrency ceiling (the configured one, or 10000). *)
Theorem hybrid_concurrency_bounded W Q mc timeout h t s :
  NewHybridForwarder W Q mc timeout = Some h →
  run t (init h) = Some s →
  cap (tokens (fwd s)) = (if (mc <=? 0)%Z then 10000%Z else mc) ∧
  len (tokens (fwd s)) = Z.of_nat (running (sends (fwd s))) ∧
  ActiveWorkersGauge (metrics s) = Z.of_nat (running (sends (fwd s))) ∧
  (Z.of_nat (running (sends (fwd s))) ≤ cap (tokens (fwd s)))%Z.
Proof.
  intros Hnew Hrun.
  destruct (NewHybridForwarder_fields _ _ _ _ _ Hnew) as (_ & Hc0 & Hs0).
  destruct (hybrid_run_shape t _ s Hs0 Hrun) as ([_ Ht Hc Hg _] & _ & Hcp).
  simpl in Hcp. split; [congruence |]. split; [done |]. split; [done |]. lia.
Qed.

Lemma hybrid_concurrency_bounded_witness :
  len (tokens (fwd Scenarios.hybrid_full_state)) = 1%Z ∧
  ActiveWorkersGauge (metrics Scenarios.hybrid_full_state) = 1%Z.
Proof.
  destruct (hybrid_concurrency_bounded 1 1 1 1000000000
              Demo.hybrid_1_1_1 Scenarios.hybrid_full
              Scenarios.hybrid_full_state eq_refl eq_refl)
    as (_ & Ht & Hg & _).
  split; [exact Ht | exact Hg].
Defined.

End HybridShape.

(** ** The hybrid forwarder when calls of Submit pause *)

Section HybridCallsShape.
Import Hybrid HybridHistory.

(** The queue and the tokens keep their shape when calls pause. *)
Lemma hybrid_calls_step_shape l s s' :
  shape (HybridCalls.base s) → HybridCalls.step l s = Some s' →
  shape (HybridCalls.base s') ∧
  cap (jobQueue (fwd (HybridCalls.base s')))
  = cap (jobQueue (fwd (HybridCalls.base s))) ∧
  cap (tokens (fwd (HybridCalls.base s')))
  = cap (tokens (fwd (HybridCalls.base s))).
Proof.
  intros Hs. destruct l as [l0 | j | k]; simpl.
  - destruct (step l0 (HybridCalls.base s)) as [b |] eqn:Eb; [| discriminate].
    simpl. intros [= <-]. simpl.
    exact (hybrid_step_shape l0 (HybridCalls.base s) b Hs Eb).
  - by destruct (stopped (fwd (HybridCalls.base s))); intros [= <-].
  - destruct (HybridCalls.calls s !! k) as [[j |] |] eqn:Ek; try discriminate.
    intros [= <-]. simpl.
    destruct Hs as [Hd Ht Hc Hg Hst]. destruct (HybridCalls.base s) as [h m].
    simpl in *. unfold HybridCalls.send.
    destruct (closed (jobQueue h)) eqn:Ec; simpl.
    { split; [| done]. split; simpl; rewrite ?Ec; done. }
    destruct (has_room (jobQueue h)) eqn:Er; simpl.
    + apply has_room_true in Er.
      split; [| done]. split; simpl; rewrite ?len_push, ?Ec; try done. lia.
    + split; [| done]. split; simpl; rewrite ?Ec; done.
Qed.

Lemma hybrid_calls_run_shape t s s' :
  shape (HybridCalls.base s) → HybridCalls.run t s = Some s' →
  shape (HybridCalls.base s') ∧
  cap (jobQueue (fwd (HybridCalls.base s')))
  = cap (jobQueue (fwd (HybridCalls.base s))) ∧
  cap (tokens (fwd (HybridCalls.base s')))
  = cap (tokens (fwd (HybridCalls.base s))).
Proof.
  revert s. induction t as [| l t IH]; intros s Hs; simpl.
  - by intros [= <-].
  - destruct (HybridCalls.step l s) as [s1 |] eqn:Es; [| discriminate].
    simpl. intros Hr.
    destruct (hybrid_calls_step_shape l s s1 Hs Es) as (Hs1 & Hq & Hc).
    destruct (IH s1 Hs1 Hr) as (Hs' & Hq' & Hc').
    split; [done |]. split; congruence.
Qed.

(** X7. In every state the hybrid forwarder reaches, also when calls of
    [Submit] pause between their read of the [stopped] flag and their
    send, the queue depth it reports lies between 0 and the queue
    capacity (the configured size, or 10000). A call of [Submit] that
    nothing interrupts returns, and while the forwarder is not stopped it
    returns an error exactly when the queue is full. A call that has read
    the flag as false never blocks at its send; it panics there exactly
    when [Stop] has run in between, and otherwise returns nil if the
    queue has room and an error if it is full. *)
Theorem hybrid_queue_depth_bounded W Q mc timeout h t s :
  NewHybridForwarder W Q mc timeout = Some h →
  HybridCalls.run t (HybridCalls.init h) = Some s →
  let f := fwd (HybridCalls.base s) in
  cap (jobQueue f) = (if (Q <=? 0)%Z then 10000%Z else Q) ∧
  (0 ≤ GetQueueDepth f ≤ cap (jobQueue f))%Z ∧
  (∀ payload url hd, ∃ e, (Submit payload url hd f).1 = Returns e) ∧
  (stopped f = false →
   ∀ payload url hd,
     (∃ e, (Submit payload url hd f).1 = Returns (Some e)) ↔
     GetQueueDepth f = cap (jobQueue f)) ∧
  (∀ k j,
      HybridCalls.calls s !! k = Some (Some j) →
      (HybridCalls.send j f).1 ≠ Blocks ∧
      ((HybridCalls.send j f).1 = Panics "send on closed channel" ↔
       stopped f = true) ∧
      (stopped f = false →
       (HybridCalls.send j f).1
       = if (GetQueueDepth f <? cap (jobQueue f))%Z then Returns None
         else Returns (Some "hybrid queue full"%string))).
Proof.
  intros Hnew Hrun.
  destruct (NewHybridForwarder_fields _ _ _ _ _ Hnew) as (Hq & _ & Hs0).
  destruct (hybrid_calls_run_shape t (HybridCalls.init h) s Hs0 Hrun)
    as ([Hd _ _ _ Hst] & Hcq & _).
  simpl in Hcq. cbv zeta. unfold GetQueueDepth.
  split; [congruence |]. split; [done |]. split; [| split].
  - intros payload url hd. unfold Submit.
    destruct (stopped (fwd (HybridCalls.base s))) eqn:Es; [by eexists |].
    rewrite <- Hst.
    destruct (has_room (jobQueue (fwd (HybridCalls.base s)))); by eexists.
  - intros Hns payload url hd. unfold Submit. rewrite Hns, <- Hst, Hns.
    destruct (has_room (jobQueue (fwd (HybridCalls.base s)))) eqn:Er; simpl.
    + apply has_room_true in Er. split; [by intros [e He] | lia].
    + apply has_room_false in Er. split; [lia | by eexists].
  - intros k j _. unfold HybridCalls.send. rewrite <- Hst.
    destruct (stopped (fwd (HybridCalls.base s))) eqn:Es; simpl.
    { split; [done |]. split; [done |]. done. }
    unfold has_room.
    destruct (len (jobQueue (fwd (HybridCalls.base s)))
              <? cap (jobQueue (fwd (HybridCalls.base s))))%Z; simpl;
      (split; [done |]; split; [by split |]; done).
Qed.

Lemma hybrid_queue_depth_bounded_witness :
  (∃ e, (Submit Demo.hello "http://collector:4318/v1/logs" ∅
           (fwd Scenarios.hybrid_full_state)).1 = Returns (Some e)) ∧
  (HybridCalls.send Demo.job0
     (fwd (HybridCalls.base StopRaces.hybrid_overtaken_state))).1
  = Panics "send on closed channel".
Proof.
  split.
  - assert (HybridCalls.run (HybridCalls.LStep <$> Scenarios.hybrid_full)
              (HybridCalls.init Demo.hybrid_1_1_1)
            = Some (HybridCalls.mkState Scenarios.hybrid_full_state []))
      as Hrun by (vm_compute; reflexivity).
    destruct (hybrid_queue_depth_bounded 1 1 1 1000000000
                Demo.hybrid_1_1_1
                (HybridCalls.LStep <$> Scenarios.hybrid_full)
                (HybridCalls.mkState Scenarios.hybrid_full_state [])
                eq_refl Hrun)
      as (_ & _ & _ & H & _).
    exact (proj2 (H eq_refl Demo.hello "http://collector:4318/v1/logs"%string ∅)
                 eq_refl).
  - destruct (hybrid_queue_depth_bounded 1 1 1 1000000000
                Demo.hybrid_1_1_1 StopRaces.hybrid_overtaken
                StopRaces.hybrid_overtaken_state eq_refl eq_refl)
      as (_ & _ & _ & _ & H).
    destruct (H 0%nat Demo.job0 eq_refl) as (_ & Hp & _).
    exact (proj2 Hp eq_refl).
Defined.

End HybridCallsShape.
(** ** The outbound header set, for any request *)

Section OutboundHeaders.
Import Proxy.

Lemma lower_byte_upper c : lower_byte (upper_byte c) = lower_byte c.
Proof. by destruct c as [[] [] [] [] [] [] [] []]. Qed.

Lemma lower_byte_lower c : lower_byte (lower_byte c) = lower_byte c.
Proof. by destruct c as [[] [] [] [] [] [] [] []]. Qed.

Lemma upper_byte_lower c : upper_byte (lower_byte c) = upper_byte c.
Proof. by destruct c as [[] [] [] [] [] [] [] []]. Qed.

Lemma upper_byte_upper c : upper_byte (upper_byte c) = upper_byte c.
Proof. by destruct c as [[] [] [] [] [] [] [] []]. Qed.

Lemma valid_lower_byte c :
  validHeaderFieldByte (lower_byte c) = validHeaderFieldByte c.
Proof. by destruct c as [[] [] [] [] [] [] [] []]. Qed.

Lemma valid_upper_byte c :
  validHeaderFieldByte (upper_byte c) = validHeaderFieldByte c.
Proof. by destruct c as [[] [] [] [] [] [] [] []]. Qed.

Lemma ToLower_canon_loop b s : ToLower (canon_loop b s) = ToLower s.
Proof.
  revert b. induction s as [| c s IH]; intros b; simpl; [done |].
  rewrite IH. by destruct b; rewrite ?lower_byte_upper, ?lower_byte_lower.
Qed.

Lemma ToLower_Canonical k : ToLower (CanonicalMIMEHeaderKey k) = ToLower k.
Proof.
  unfold CanonicalMIMEHeaderKey. destruct (all_valid k); [| done].
  apply ToLower_canon_loop.
Qed.

Lemma canon_loop_ToLower b s : canon_loop b (ToLower s) = canon_loop b s.
Proof.
  revert b. induction s as [| c s IH]; intros b; simpl; [done |].
  destruct b; rewrite ?upper_byte_lower, ?lower_byte_lower, IH; done.
Qed.

Lemma all_valid_ToLower s : all_valid (ToLower s) = all_valid s.
Proof.
  induction s as [| c s IH]; simpl; [done |]. by rewrite valid_lower_byte, IH.
Qed.

Lemma all_valid_canon_loop b s : all_valid (canon_loop b s) = all_valid s.
Proof.
  revert b. induction s as [| c s IH]; intros b; simpl; [done |].
  rewrite IH. by destruct b; rewrite ?valid_upper_byte, ?valid_lower_byte.
Qed.

Lemma canon_loop_idem b s : canon_loop b (canon_loop b s) = canon_loop b s.
Proof.
  revert b. induction s as [| c s IH]; intros b; simpl; [done |].
  destruct b; rewrite ?upper_byte_upper, ?lower_byte_lower, IH; done.
Qed.

(** Canonical names are fixed points of the canonicalisation. *)
Lemma Canonical_idem k :
  CanonicalMIMEHeaderKey (CanonicalMIMEHeaderKey k) = CanonicalMIMEHeaderKey k.
Proof.
  unfold CanonicalMIMEHeaderKey. destruct (all_valid k) eqn:E.
  - by rewrite all_valid_canon_loop, E, canon_loop_idem.
  - by rewrite E.
Qed.

(** Names that differ only in case have the same canonical form, when
    they are tokens. *)
Lemma Canonical_fold k t :
  EqualFold k t = true → all_valid t = true →
  CanonicalMIMEHeaderKey k = CanonicalMIMEHeaderKey t.
Proof.
  unfold EqualFold. intros Heq%String.eqb_eq Ht. unfold CanonicalMIMEHeaderKey.
  assert (all_valid k = true) as ->
    by (by rewrite <- all_valid_ToLower, Heq, all_valid_ToLower).
  rewrite Ht. by rewrite <- (canon_loop_ToLower _ k), Heq, canon_loop_ToLower.
Qed.

Lemma EqualFold_Canonical k t :
  EqualFold (CanonicalMIMEHeaderKey k) t = EqualFold k t.
Proof. unfold EqualFold. by rewrite ToLower_Canonical. Qed.

Lemma isHopByHop_Canonical k :
  isHopByHop (CanonicalMIMEHeaderKey k) = isHopByHop k.
Proof. unfold isHopByHop. by rewrite ToLower_Canonical. Qed.

Lemma skip_response_header_Canonical k :
  skip_response_header (CanonicalMIMEHeaderKey k) = skip_response_header k.
Proof. unfold skip_response_header. by rewrite ToLower_Canonical. Qed.

Lemma forwardable_Canonical k :
  EqualFold k "Host" || isHopByHop k = false →
  forwardable (CanonicalMIMEHeaderKey k).
Proof.
  intros [H1 H2]%orb_false_elim. unfold forwardable.
  by rewrite Canonical_idem, EqualFold_Canonical, isHopByHop_Canonical.
Qed.

Lemma fields_satisfy_empty P : fields_satisfy P ∅.
Proof. intros k vals. by rewrite lookup_empty. Qed.

Lemma fields_satisfy_Add P h k v :
  fields_satisfy P h → P (CanonicalMIMEHeaderKey k) →
  fields_satisfy P (Add h k v).
Proof.
  intros Hh Hk k' vals. unfold Add.
  destruct (decide (k' = CanonicalMIMEHeaderKey k)) as [-> | Hne].
  - rewrite lookup_insert_eq. intros [= <-]. split; [done |].
    by destruct (default [] _).
  - rewrite lookup_insert_ne by done. apply Hh.
Qed.

Lemma fields_satisfy_Set P h k v :
  fields_satisfy P h → P (CanonicalMIMEHeaderKey k) →
  fields_satisfy P (Set_ h k v).
Proof.
  intros Hh Hk k' vals. unfold Set_.
  destruct (decide (k' = CanonicalMIMEHeaderKey k)) as [-> | Hne].
  - rewrite lookup_insert_eq. by intros [= <-].
  - rewrite lookup_insert_ne by done. apply Hh.
Qed.

Lemma fields_satisfy_add_all P h kv :
  fields_satisfy P h → (kv.2 ≠ [] → P (CanonicalMIMEHeaderKey kv.1)) →
  fields_satisfy P (add_all h kv).
Proof.
  unfold add_all. destruct kv as [k vals]. simpl. revert h.
  induction vals as [| v vals IH]; intros h Hh Hk; simpl; [done |].
  apply IH; [| intros _; by apply Hk].
  apply fields_satisfy_Add; [done | by apply Hk].
Qed.

Lemma fields_satisfy_copy P order acc :
  fields_satisfy P acc →
  (∀ kv, kv ∈ order → EqualFold kv.1 "Host" || isHopByHop kv.1 = false →
         P (CanonicalMIMEHeaderKey kv.1)) →
  fields_satisfy P (foldl copy_field acc order).
Proof.
  revert acc. induction order as [| kv order IH]; intros acc Hacc Hall; simpl;
    [done |].
  apply IH; [| intros kv' Hin; apply Hall; by right].
  rewrite copy_field_spec.
  destruct (length kv.2 =? 0)%nat; simpl; [done |].
  destruct (EqualFold kv.1 "Host" || isHopByHop kv.1) eqn:E; [done |].
  apply fields_satisfy_add_all; [done |]. intros _. apply Hall; [by left | done].
Qed.

Lemma forward_headers_forwardable h (rh : Header) order :
  fields_satisfy forwardable (forward_headers h rh order).
Proof.
  unfold forward_headers.
  assert (fields_satisfy forwardable (foldl copy_field ∅ order)) as Hc.
  { apply fields_satisfy_copy; [apply fields_satisfy_empty |].
    intros kv _. apply forwardable_Canonical. }
  assert (∀ v, fields_satisfy forwardable
                 (if String.eqb (Get (foldl copy_field ∅ order) "Content-Type") ""
                  then Set_ (foldl copy_field ∅ order) "Content-Type" v
                  else foldl copy_field ∅ order)) as Hct.
  { intros v. destruct (String.eqb _ ""); [| done].
    by apply fields_satisfy_Set. }
  destruct (negb (String.eqb (apiKey h) "")); [| apply Hct].
  apply fields_satisfy_Set; [apply Hct | done].
Qed.

(** X9. Whatever the client sent and in whatever order the fields are
    visited, every field of the header set the ingress adapter builds has
    a canonical name that is neither [Host] nor a hop-by-hop name (in any
    letter case), and carries at least one value. *)
Theorem outbound_fields_forwardable h (rh : Header) order k vals :
  forward_headers h rh order !! k = Some vals →
  CanonicalMIMEHeaderKey k = k ∧
  EqualFold k "Host" = false ∧
  isHopByHop k = false ∧
  vals ≠ [].
Proof.
  intros Hk. destruct (forward_headers_forwardable h rh order k vals Hk)
    as [(H1 & H2 & H3) H4]. done.
Qed.

Lemma outbound_fields_forwardable_witness :
  CanonicalMIMEHeaderKey "X-Trace" = "X-Trace"%string ∧
  EqualFold "X-Trace" "Host" = false ∧
  isHopByHop "X-Trace" = false ∧
  ["a"%string; "b"%string] ≠ [].
Proof.
  exact (outbound_fields_forwardable Demo.handler_key Demo.plain_headers
           (map_to_list Demo.plain_headers) "X-Trace"%string
           ["a"%string; "b"%string] eq_refl).
Defined.

(** X10. The header set the ingress adapter builds always has a
    [Content-Type] whose first value is not empty. *)
Theorem outbound_content_type_present h (rh : Header) order :
  Get (forward_headers h rh order) "Content-Type" ≠ ""%string.
Proof.
  unfold forward_headers.
  set (copied := foldl copy_field ∅ order).
  set (ct := if String.eqb (Get rh "Content-Type") ""
             then "application/x-protobuf"%string else Get rh "Content-Type").
  assert (ct ≠ ""%string) as Hct.
  { unfold ct. destruct (String.eqb_spec (Get rh "Content-Type") ""); done. }
  assert (Get (if String.eqb (Get copied "Content-Type") ""
               then Set_ copied "Content-Type" ct else copied) "Content-Type"
          ≠ ""%string) as Hset.
  { destruct (String.eqb_spec (Get copied "Content-Type") "") as [He | Hne];
      [| done].
    unfold Get, Set_. rewrite canon_Content_Type. by rewrite lookup_insert_eq. }
  destruct (negb (String.eqb (apiKey h) "")); [| done].
  unfold Get in *. rewrite canon_Content_Type in *.
  unfold Set_ at 1. rewrite canon_Authorization.
  by rewrite lookup_insert_ne.
Qed.

(** X11. With a non-empty credential, the header set the ingress adapter
    builds has [Authorization] set to the credential alone, and no other
    field whose name is [Authorization] in another letter case: no client
    value reaches the collector under that name. *)
Theorem outbound_authorization_is_credential h (rh : Header) order :
  apiKey h ≠ ""%string →
  forward_headers h rh order !! "Authorization"%string = Some [apiKey h] ∧
  (∀ k vals, forward_headers h rh order !! k = Some vals →
             EqualFold k "Authorization" = true →
             k = "Authorization"%string ∧ vals = [apiKey h]).
Proof.
  intros Hkey.
  assert (forward_headers h rh order !! "Authorization"%string
          = Some [apiKey h]) as Hauth.
  { unfold forward_headers.
    destruct (String.eqb_spec (apiKey h) "") as [He | _]; [done |]. simpl.
    unfold Set_. rewrite canon_Authorization. by rewrite lookup_insert_eq. }
  split; [done |]. intros k vals Hk Hfold.
  destruct (forward_headers_forwardable h rh order k vals Hk) as [(Hc & _) _].
  assert (k = "Authorization"%string) as ->.
  { rewrite <- Hc. by rewrite (Canonical_fold k "Authorization" Hfold). }
  split; [done | congruence].
Qed.

Lemma outbound_authorization_is_credential_witness :
  forward_headers Demo.handler_key Demo.client_auth_headers
    (map_to_list Demo.client_auth_headers) !! "Authorization"%string
  = Some ["k"%string].
Proof.
  refine (proj1 (outbound_authorization_is_credential Demo.handler_key
                   Demo.client_auth_headers
                   (map_to_list Demo.client_auth_headers) _)).
  discriminate.
Defined.

(** X12. For any request, the copy a sender makes of a task's headers
    reproduces the header set the ingress adapter built: the request sent
    for a task accepted by [handleAsync] is the POST to the target URL
    with the body read from the client and exactly those headers (the
    request the synchronous branch of [HandleLogs] builds itself). *)
Theorem sender_rebuilds_outbound_headers h c order path payload order' :
  range_order (forward_headers h (ReqHeader c) order) order' →
  sender_request (async_job h c order path payload) order' =
  mkUpstreamRequest "POST" (targetURL h ++ path)%string payload
                    (forward_headers h (ReqHeader c) order).
Proof.
  intros Hord. unfold sender_request, async_job. simpl. f_equal.
  apply sender_copy; [| done].
  intros k vals Hk.
  by destruct (forward_headers_forwardable h (ReqHeader c) order k vals Hk)
    as [(? & _) ?].
Qed.

Lemma sender_rebuilds_outbound_headers_witness :
  up_header (sender_request
               (async_job Demo.handler_key Demo.plain_request
                  (map_to_list Demo.plain_headers) "/v1/logs" Demo.hello)
               (map_to_list
                  (forward_headers Demo.handler_key Demo.plain_headers
                     (map_to_list Demo.plain_headers))))
  = forward_headers Demo.handler_key Demo.plain_headers
      (map_to_list Demo.plain_headers).
Proof.
  exact (f_equal up_header
           (sender_rebuilds_outbound_headers Demo.handler_key
              Demo.plain_request (map_to_list Demo.plain_headers)
              "/v1/logs"%string Demo.hello _ (reflexivity _))).
Defined.

End OutboundHeaders.

(** ** The synchronous reply and the headers set before the handler *)

Section SyncReply.
Import Proxy.

Lemma add_all_prefix h kv k :
  default [] (h !! k) `prefix_of` default [] (add_all h kv !! k).
Proof.
  destruct (decide (k = CanonicalMIMEHeaderKey kv.1)) as [-> | Hne].
  - rewrite add_all_default. by eexists.
  - by rewrite add_all_lookup_ne.
Qed.

Lemma response_copy_prefix order acc k :
  default [] (acc !! k)
  `prefix_of` default [] (foldl copy_response_field acc order !! k).
Proof.
  revert acc. induction order as [| kv order IH]; intros acc; simpl; [done |].
  etrans; [| apply IH]. rewrite copy_response_field_spec.
  destruct (skip_response_header kv.1); [done | apply add_all_prefix].
Qed.

Lemma response_copy_skipped order acc k :
  skip_response_header k = true →
  foldl copy_response_field acc order !! k = acc !! k.
Proof.
  intros Hk.
  apply (copy_lookup_other (λ kv, skip_response_header kv.1) _
           copy_response_field_spec).
  intros kv _. destruct (skip_response_header kv.1) eqn:E; [by right | left].
  intros <-. rewrite skip_response_header_Canonical in Hk. congruence.
Qed.

(** X13. With synchronous logs, [HandleLogs] always replies and never
    touches the forwarder. Whatever the collector answers, a header set
    on the response before the handler ran keeps its values in front of
    any that are added, and the names the handler filters (the
    [Access-Control-] ones, [Vary], [Content-Length],
    [Transfer-Encoding], [Connection], in any letter case) keep exactly
    the values they had. When no response arrives, the reply is 400 or
    502 with no body and the headers as they were. *)
Theorem sync_reply_keeps_earlier_headers {F} `{Forwarder F}
    h c order upstream resp_order (fw : F) :
  syncLogs h = true →
  ∃ r,
    HandleLogs h c order upstream resp_order fw = (Reply r, fw) ∧
    (∀ k, skip_response_header k = true →
          header r !! k = ResponseHeader c !! k) ∧
    (∀ k, default [] (ResponseHeader c !! k)
          `prefix_of` default [] (header r !! k)) ∧
    ((∀ payload resp,
         ReqBody c = ReadOk payload →
         upstream (mkUpstreamRequest "POST" (targetURL h ++ "/v1/logs")%string
                     payload (forward_headers h (ReqHeader c) order))
         ≠ Responded resp) →
     (status r = StatusBadRequest ∨ status r = StatusBadGateway) ∧
     header r = ResponseHeader c ∧ body r = []).
Proof.
  intros Hsync. unfold HandleLogs. rewrite Hsync. simpl.
  eexists. split; [reflexivity |]. unfold handleSync.
  destruct (ReqBody c) as [payload |] eqn:Eb; simpl; [| by auto].
  destruct (upstream _) as [| | resp] eqn:Eu; simpl; [by auto | by auto |].
  split; [| split].
  - intros k Hk. by apply response_copy_skipped.
  - intros k. apply response_copy_prefix.
  - intros Hno. by destruct (Hno payload resp eq_refl).
Qed.

Lemma sync_reply_keeps_earlier_headers_witness :
  ∃ r,
    HandleLogs Demo.handler_sync
      (mkContext Demo.plain_headers (ReadOk Demo.hello)
         (<["Vary"%string := ["Origin"%string]]> ∅))
      (map_to_list Demo.plain_headers)
      (λ _, Responded Demo.teapot_response)
      (map_to_list Demo.teapot_headers) Demo.semaphore_1
    = (Reply r, Demo.semaphore_1) ∧
    header r !! "Vary"%string = Some ["Origin"%string].
Proof.
  destruct (sync_reply_keeps_earlier_headers Demo.handler_sync
              (mkContext Demo.plain_headers (ReadOk Demo.hello)
                 (<["Vary"%string := ["Origin"%string]]> ∅))
              (map_to_list Demo.plain_headers)
              (λ _, Responded Demo.teapot_response)
              (map_to_list Demo.teapot_headers) Demo.semaphore_1 eq_refl)
    as (r & Hr & Hskip & _).
  exists r. split; [exact Hr |]. exact (Hskip "Vary"%string eq_refl).
Defined.

End SyncReply.

(** ** Where the accepted tasks are *)

Section PoolAccounting.
Import WorkerPool PoolHistory Accounting.

Lemma worker_after_send_ended o m :
  ended (worker_after_send o m).1 = S (ended m).
Proof.
  unfold ended. destruct o as [| | resp]; simpl; try lia.
  destruct (_ || _); simpl; lia.
Qed.

Lemma receive_workers p j p' :
  receive p = Some (j, p') → workers p' = workers p.
Proof.
  unfold receive. destruct (buf (jobQueue p)); [discriminate |].
  by destruct (senders p); intros [= _ <-].
Qed.

Lemma pool_taken_step l s s' :
  shape s → step l s = Some s' →
  (length (taken_by l s) + busy (workers (pool s)) + ended (metrics s)
   = busy (workers (pool s')) + ended (metrics s'))%nat.
Proof.
  intros [_ _ Hnew _ _]. destruct s as [p m]. simpl in *.
  destruct l as [| j | i | i o | i | | timedOut]; simpl.
  - intros [= <-]. simpl. unfold Start.
    destruct (startOnce p) eqn:Es; [done |]. simpl.
    by rewrite busy_replicate_idle, (Hnew eq_refl).
  - intros [= <-]. simpl. by rewrite (proj1 (pool_SubmitJob_workers j p)).
  - destruct (workers p !! i) as [[| |] |] eqn:Ew; try discriminate.
    destruct (receive p) as [[j p'] |] eqn:Er; [| discriminate]. simpl.
    intros [= <-]. simpl.
    pose proof (receive_workers _ _ _ Er) as Hw. rewrite Hw.
    pose proof (busy_insert (workers p) i Idle (Busy j) Ew) as Hb.
    simpl in Hb. unfold ended. simpl. lia.
  - destruct (workers p !! i) as [[| j |] |] eqn:Ew; try discriminate.
    destruct (buf (permits p)); [discriminate |].
    intros [= <-]. simpl.
    pose proof (busy_insert (workers p) i (Busy j) Idle Ew) as Hb.
    simpl in Hb. rewrite worker_after_send_ended. lia.
  - destruct (workers p !! i) as [[| |] |] eqn:Ew; try discriminate.
    destruct (buf (jobQueue p)); [| discriminate].
    destruct (closed (jobQueue p)); [| discriminate].
    intros [= <-]. simpl.
    pose proof (busy_insert (workers p) i Idle Exited Ew) as Hb.
    simpl in Hb. lia.
  - intros [= <-]. simpl. unfold Stop. by destruct (stopOnce p).
  - destruct (stopWait p && _); [| discriminate]. by intros [= <-].
Qed.

Lemma pool_taken_run t s s' :
  shape s → run t s = Some s' →
  (length (taken t s) + busy (workers (pool s)) + ended (metrics s)
   = busy (workers (pool s')) + ended (metrics s'))%nat.
Proof.
  revert s. induction t as [| l t IH]; intros s Hs; simpl.
  - by intros [= <-].
  - destruct (step l s) as [s1 |] eqn:Es; [| discriminate]. simpl. intros Hr.
    pose proof (pool_taken_step l s s1 Hs Es) as H1.
    pose proof (IH s1 (pool_step_shape l s s1 Hs Es) Hr) as H2.
    rewrite length_app. lia.
Qed.

(** X14. In every history of a pool built by [NewPool], with the counters
    at 0 at the start, each task a worker has taken is either still with
    that worker or was counted once: the tasks taken are as many as the
    busy workers plus [jobs_processed_total] plus [jobs_failed_total].
    While [Stop] has not been called, the same holds of the accepted
    tasks, with those still queued or held by a waiting submitter
    added. *)
Theorem pool_tasks_accounted numCPU W Q timeout p t s :
  NewPool numCPU W Q timeout = Some p →
  run t (init p) = Some s →
  (length (taken t (init p))
   = busy (workers (pool s)) + JobsProcessedCounter (metrics s)
     + JobsFailedCounter (metrics s))%nat ∧
  (stopOnce (pool s) = false →
   (length (accepted t (init p))
    = length (pending (pool s)) + busy (workers (pool s))
      + JobsProcessedCounter (metrics s) + JobsFailedCounter (metrics s))%nat).
Proof.
  intros Hnew Hrun.
  pose proof (NewPool_shape _ _ _ _ _ Hnew) as Hs0.
  pose proof (pool_taken_run t _ s Hs0 Hrun) as Ht.
  assert (workers p = [] ∧ pending p = []) as [Hw Hp].
  { unfold NewPool, make in Hnew.
    destruct ((if (Q <=? 0)%Z then _ else _) <? 0)%Z; [discriminate |].
    simpl in Hnew.
    destruct (int_add _ _ <? 0)%Z; [discriminate |]. simpl in Hnew.
    by injection Hnew as <-. }
  simpl in Ht. rewrite Hw in Ht. unfold ended in Ht. simpl in Ht.
  change (busy []) with 0%nat in Ht.
  split; [lia |]. intros Hns.
  pose proof (pool_fifo_run t _ s Hs0 Hrun Hns) as Hf. simpl in Hf.
  rewrite Hp in Hf. simpl in Hf. rewrite Hf, length_app. lia.
Qed.

Lemma pool_tasks_accounted_witness :
  (length (taken Demo.pool_saturated (init Demo.pool_1_1))
   = busy (workers (pool Demo.pool_saturated_state)) + 0 + 0)%nat.
Proof.
  exact (proj1 (pool_tasks_accounted 4 1 1 1000000000 Demo.pool_1_1
                  Demo.pool_saturated Demo.pool_saturated_state
                  eq_refl eq_refl)).
Defined.

End PoolAccounting.

Section SemaphoreAccounting.
Import Semaphore SemaphoreHistory Accounting.

Lemma unit_after_send_ended o m :
  ended (unit_after_send o m).1 = S (ended m).
Proof.
  unfold ended. destruct o as [| | resp]; simpl; try lia.
  destruct (_ || _); simpl; lia.
Qed.

Lemma semaphore_spawned_step l s s' :
  step l s = Some s' →
  (semaphore_spawns l s + length (units (fwd s)) = length (units (fwd s')))%nat ∧
  (length (List.filter is_done (units (fwd s'))) + ended (metrics s)
   = length (List.filter is_done (units (fwd s))) + ended (metrics s'))%nat.
Proof.
  destruct s as [f m]. simpl.
  destruct l as [| j | i | i o | | timedOut]; simpl.
  - by intros [= <-].
  - intros [= <-]. unfold Submit. destruct (stopped f); simpl; [done |].
    rewrite length_app, count_snoc. simpl. lia.
  - destruct (units f !! i) as [[j | |] |] eqn:Eu; try discriminate.
    destruct (has_room (tokens f)); [| discriminate].
    intros [= <-]. simpl. rewrite length_insert.
    pose proof (count_insert is_done (units f) i _ (Sending j) Eu) as Hc.
    simpl in Hc. unfold ended. simpl. lia.
  - destruct (units f !! i) as [[| j |] |] eqn:Eu; try discriminate.
    destruct (buf (tokens f)); [discriminate |].
    intros [= <-]. simpl. rewrite length_insert.
    pose proof (count_insert is_done (units f) i _ Done Eu) as Hc.
    simpl in Hc. rewrite unit_after_send_ended. lia.
  - intros [= <-]. unfold Stop. by destruct (stopOnce f).
  - destruct (stopWait f && _); [| discriminate]. by intros [= <-].
Qed.

Lemma semaphore_spawned_run t s s' :
  run t s = Some s' →
  (semaphore_spawned t s + length (units (fwd s)) = length (units (fwd s')))%nat ∧
  (length (List.filter is_done (units (fwd s'))) + ended (metrics s)
   = length (List.filter is_done (units (fwd s))) + ended (metrics s'))%nat.
Proof.
  revert s. induction t as [| l t IH]; intros s; simpl.
  - by intros [= <-].
  - destruct (step l s) as [s1 |] eqn:Es; [| discriminate]. simpl. intros Hr.
    destruct (semaphore_spawned_step l s s1 Es) as [H1 H2].
    destruct (IH s1 Hr) as [H3 H4]. lia.
Qed.

Lemma unit_states_partition us :
  length us
  = (waiting us + sending us + length (List.filter is_done us))%nat.
Proof.
  unfold waiting, sending.
  induction us as [| [j | j |] us IH]; simpl; lia.
Qed.

Lemma semaphore_dropped_run t s s' :
  run t s = Some s' →
  (semaphore_spawned t s + semaphore_dropped t s
   = length (List.filter (λ l, match l with LSubmit _ => true | _ => false end) t))%nat.
Proof.
  revert s. induction t as [| l t IH]; intros s; simpl; [done |].
  destruct (step l s) as [s1 |] eqn:Es; [| discriminate]. simpl. intros Hr.
  specialize (IH s1 Hr).
  destruct l; simpl; try lia. destruct (stopped (fwd s)); simpl; lia.
Qed.

(** X15. In every history of a semaphore forwarder, with the counters at
    0 at the start, each submit made before [Stop] spawned one goroutine,
    and each of them waits for a token, is sending, or was counted once
    as processed or failed. Every submit made after [Stop] is answered
    with nil like the others, but spawns nothing: such a task is never
    sent and never counted. *)
Theorem semaphore_tasks_accounted mc timeout f t s :
  NewSemaphoreForwarder mc timeout = Some f →
  run t (init f) = Some s →
  (semaphore_spawned t (init f)
   = waiting (units (fwd s)) + sending (units (fwd s))
     + JobsProcessedCounter (metrics s) + JobsFailedCounter (metrics s))%nat ∧
  (semaphore_spawned t (init f) + semaphore_dropped t (init f)
   = length (List.filter (λ l, match l with LSubmit _ => true | _ => false end) t))%nat.
Proof.
  intros Hnew Hrun.
  destruct (semaphore_spawned_run t _ s Hrun) as [H1 H2].
  pose proof (unit_states_partition (units (fwd s))) as Hp.
  assert (units f = []) as Hu.
  { unfold NewSemaphoreForwarder, make in Hnew.
    destruct ((if (mc <=? 0)%Z then _ else _) <? 0)%Z; [discriminate |].
    by injection Hnew as <-. }
  simpl in H1, H2. rewrite Hu in H1, H2. unfold ended in H2. simpl in H1, H2.
  split; [lia |]. by apply (semaphore_dropped_run t (init f) s).
Qed.

Lemma semaphore_tasks_accounted_witness :
  (semaphore_spawned Demo.semaphore_stop_times_out (init Demo.semaphore_1)
   = 2)%nat.
Proof.
  destruct (run Demo.semaphore_stop_times_out (init Demo.semaphore_1))
    as [s |] eqn:Hrun; [| discriminate].
  destruct (semaphore_tasks_accounted 1 1000000000 Demo.semaphore_1
              Demo.semaphore_stop_times_out s eq_refl Hrun) as [H _].
  injection Hrun as <-. exact H.
Defined.

End SemaphoreAccounting.

Section HybridAccounting.
Import Hybrid HybridHistory Accounting.

Lemma sender_after_send_ended o m :
  ended (sender_after_send o m).1 = S (ended m).
Proof.
  unfold ended. destruct o as [| | resp]; simpl; try lia.
  destruct (_ || _); simpl; lia.
Qed.

Lemma holding_replicate_idle n : holding (replicate n Idle) = 0%nat.
Proof. induction n; [reflexivity | exact IHn]. Qed.

(** The tasks inside the forwarder and those that left it counted. *)
Lemma hybrid_accepted_step l s s' :
  (startOnce (fwd s) = false → workers (fwd s) = []) →
  step l s = Some s' →
  (startOnce (fwd s') = false → workers (fwd s') = []) ∧
  (hybrid_accepts l s + length (buf (jobQueue (fwd s)))
   + holding (workers (fwd s)) + length (sends (fwd s))
   = length (buf (jobQueue (fwd s'))) + holding (workers (fwd s'))
     + length (sends (fwd s')))%nat ∧
  (ended (metrics s')
   + length (List.filter (λ x, negb (is_running x)) (sends (fwd s)))
   = ended (metrics s)
     + length (List.filter (λ x, negb (is_running x)) (sends (fwd s'))))%nat.
Proof.
  intros Hnew. destruct s as [h m]. simpl in *.
  destruct l as [| j | i | i | k o | i | | timedOut]; simpl.
  - intros [= <-]. unfold Start. destruct (startOnce h) eqn:Es; simpl.
    + split; [by rewrite Es |]. split; lia.
    + split; [done |]. rewrite holding_replicate_idle, (Hnew eq_refl).
      change (holding []) with 0%nat. split; lia.
  - intros [= <-]. unfold Submit.
    destruct (stopped h); simpl; [split; [done |]; split; lia |].
    destruct (closed (jobQueue h)); simpl; [split; [done |]; split; lia |].
    destruct (has_room (jobQueue h)); simpl; [| split; [done |]; split; lia].
    split; [done |]. rewrite length_app. simpl. split; lia.
  - destruct (workers h !! i) as [[| |] |] eqn:Ew; try discriminate.
    destruct (buf (jobQueue h)) as [| j q] eqn:Eb; [discriminate |].
    intros [= <-]. simpl.
    pose proof (count_insert is_holding (workers h) i _ (Holding j) Ew) as Hc.
    simpl in Hc. unfold holding. split.
    { intros Hs. specialize (Hnew Hs). by rewrite Hnew in Ew. }
    rewrite Eb. simpl. split; lia.
  - destruct (workers h !! i) as [[| j |] |] eqn:Ew; try discriminate.
    destruct (has_room (tokens h)); [| discriminate].
    intros [= <-]. simpl.
    pose proof (count_insert is_holding (workers h) i _ Idle Ew) as Hc.
    simpl in Hc. unfold holding, ended. simpl. split.
    { intros Hs. specialize (Hnew Hs). by rewrite Hnew in Ew. }
    rewrite length_app, count_snoc. simpl. split; lia.
  - destruct (sends h !! k) as [[j |] |] eqn:Ek; try discriminate.
    destruct (buf (tokens h)); [discriminate |].
    intros [= <-]. simpl. split; [done |].
    pose proof (count_insert (λ x, negb (is_running x)) (sends h) k _ None Ek)
      as Hc.
    simpl in Hc. rewrite length_insert, sender_after_send_ended. split; lia.
  - destruct (workers h !! i) as [[| |] |] eqn:Ew; try discriminate.
    destruct (buf (jobQueue h)) eqn:Eb; [| discriminate].
    destruct (closed (jobQueue h)); [| discriminate].
    intros [= <-]. simpl.
    pose proof (count_insert is_holding (workers h) i _ Exited Ew) as Hc.
    simpl in Hc. unfold holding. split.
    { intros Hs. specialize (Hnew Hs). by rewrite Hnew in Ew. }
    rewrite Eb. simpl. split; lia.
  - intros [= <-]. unfold Stop. destruct (stopOnce h); simpl; split; try done;
      split; lia.
  - destruct (stopWait h && _); [| discriminate]. intros [= <-]. simpl.
    split; [done |]. split; lia.
Qed.

Lemma hybrid_accepted_run t s s' :
  (startOnce (fwd s) = false → workers (fwd s) = []) →
  run t s = Some s' →
  (hybrid_accepted t s + length (buf (jobQueue (fwd s)))
   + holding (workers (fwd s)) + length (sends (fwd s))
   = length (buf (jobQueue (fwd s'))) + holding (workers (fwd s'))
     + length (sends (fwd s')))%nat ∧
  (ended (metrics s')
   + length (List.filter (λ x, negb (is_running x)) (sends (fwd s)))
   = ended (metrics s)
     + length (List.filter (λ x, negb (is_running x)) (sends (fwd s'))))%nat.
Proof.
  revert s. induction t as [| l t IH]; intros s Hs; simpl.
  - intros [= <-]. split; lia.
  - destruct (step l s) as [s1 |] eqn:Es; [| discriminate]. simpl. intros Hr.
    destruct (hybrid_accepted_step l s s1 Hs Es) as (Hs1 & H1 & H2).
    destruct (IH s1 Hs1 Hr) as [H3 H4]. split; lia.
Qed.

Lemma sends_partition (l : list (option Job)) :
  length l
  = (running l + length (List.filter (λ x, negb (is_running x)) l))%nat.
Proof.
  unfold running. induction l as [| [j |] l IH]; simpl; lia.
Qed.

(** X16. In every history of a hybrid forwarder, with the counters at 0
    at the start, each task [Submit] accepted is in exactly one place: in
    the job queue, held by a dispatcher that waits for a token, with a
    detached sender, or counted once as processed or failed. *)
Theorem hybrid_tasks_accounted W Q mc timeout h t s :
  NewHybridForwarder W Q mc timeout = Some h →
  run t (init h) = Some s →
  (hybrid_accepted t (init h)
   = length (buf (jobQueue (fwd s))) + holding (workers (fwd s))
     + running (sends (fwd s))
     + JobsProcessedCounter (metrics s) + JobsFailedCounter (metrics s))%nat.
Proof.
  intros Hnew Hrun.
  assert (workers h = [] ∧ sends h = [] ∧ buf (jobQueue h) = [])
    as (Hw & Hsd & Hq).
  { unfold NewHybridForwarder, make in Hnew.
    destruct ((if (Q <=? 0)%Z then _ else _) <? 0)%Z; [discriminate |].
    simpl in Hnew.
    destruct ((if (mc <=? 0)%Z then _ else _) <? 0)%Z; [discriminate |].
    simpl in Hnew. by injection Hnew as <-. }
  destruct (hybrid_accepted_run t (init h) s (λ _, Hw) Hrun) as [H1 H2].
  pose proof (sends_partition (sends (fwd s))) as Hp.
  simpl in H1, H2. rewrite Hw, Hsd, Hq in H1. rewrite Hsd in H2.
  unfold ended in H2. simpl in H1, H2.
  change (holding []) with 0%nat in H1. lia.
Qed.

Lemma hybrid_tasks_accounted_witness :
  (hybrid_accepted Scenarios.hybrid_full (init Demo.hybrid_1_1_1) = 2)%nat.
Proof.
  exact (hybrid_tasks_accounted 1 1 1 1000000000 Demo.hybrid_1_1_1
           Scenarios.hybrid_full Scenarios.hybrid_full_state
           eq_refl eq_refl).
Defined.

End HybridAccounting.

(** ** Configuration and wiring *)

Section Wiring.
Import Config App.

Lemma Load_Unmarshalled c cfg :
  Load (Unmarshalled c) = Loaded cfg →
  OtelCollectorTargetURL c ≠ ""%string ∧
  cfg = mkConfig (OtelCollectorTargetURL c) (OtelCollectorAPIKey c)
          (ShutdownDrainSeconds c) (ShutdownTimeoutSeconds c) (ServerPort c)
          (WorkerPoolSize c) (JobQueueSize c) (AllowedOrigins c)
          (MaxRequestSizeMB c)
          (if String.eqb (ForwardingMode c) "semaphore" then "semaphore"
           else if String.eqb (ForwardingMode c) "hybrid" then "hybrid"
           else "pool")%string
          (if (SemaphoreMaxConcurrent c <=? 0)%Z then 10000%Z
           else SemaphoreMaxConcurrent c)
          (SyncLogsDebug c).
Proof.
  unfold Load. destruct (String.eqb_spec (OtelCollectorTargetURL c) "") as [| Hu];
    [discriminate |].
  intros [= <-]. split; [done |]. destruct c as [u k d tm pt w q ao mx md sm sy].
  simpl.
  destruct (String.eqb_spec md "pool") as [-> | H1]; simpl.
  { by destruct (sm <=? 0)%Z. }
  destruct (String.eqb_spec md "semaphore") as [-> | H2]; simpl.
  { by destruct (sm <=? 0)%Z. }
  destruct (String.eqb_spec md "hybrid") as [-> | H3]; simpl.
  { by destruct (sm <=? 0)%Z. }
  destruct (String.eqb md ""); unfold set_ForwardingMode; simpl;
    by destruct (sm <=? 0)%Z.
Qed.

Lemma Load_mode_ceiling v cfg :
  Load v = Loaded cfg →
  ForwardingMode cfg ∈ ["pool"; "semaphore"; "hybrid"]%string ∧
  (0 < SemaphoreMaxConcurrent cfg)%Z.
Proof.
  destruct v as [err | err | c]; try discriminate. intros Hl.
  destruct (Load_Unmarshalled c cfg Hl) as [_ ->]. simpl. split.
  - destruct (String.eqb _ "semaphore"); [set_solver |].
    destruct (String.eqb _ "hybrid"); set_solver.
  - destruct (Z.leb_spec (SemaphoreMaxConcurrent c) 0); lia.
Qed.

(** X17. A configuration [Load] returns has a target URL, a forwarding
    mode that is one of pool, semaphore and hybrid and a positive
    concurrency ceiling. The mode is the one read when that is one of
    the three, and pool for any other value; the ceiling is the one read
    when that is positive, and 10000 otherwise; the other fields are as
    read. Loading the result again changes nothing. *)
Theorem Load_normalises v cfg :
  Load v = Loaded cfg →
  OtelCollectorTargetURL cfg ≠ ""%string ∧
  ForwardingMode cfg ∈ ["pool"; "semaphore"; "hybrid"]%string ∧
  (0 < SemaphoreMaxConcurrent cfg)%Z ∧
  Load (Unmarshalled cfg) = Loaded cfg ∧
  ∃ c, v = Unmarshalled c ∧
       OtelCollectorTargetURL cfg = OtelCollectorTargetURL c ∧
       OtelCollectorAPIKey cfg = OtelCollectorAPIKey c ∧
       ShutdownDrainSeconds cfg = ShutdownDrainSeconds c ∧
       ShutdownTimeoutSeconds cfg = ShutdownTimeoutSeconds c ∧
       ServerPort cfg = ServerPort c ∧
       WorkerPoolSize cfg = WorkerPoolSize c ∧
       JobQueueSize cfg = JobQueueSize c ∧
       AllowedOrigins cfg = AllowedOrigins c ∧
       MaxRequestSizeMB cfg = MaxRequestSizeMB c ∧
       SyncLogsDebug cfg = SyncLogsDebug c ∧
       (ForwardingMode c ∈ ["pool"; "semaphore"; "hybrid"]%string →
        ForwardingMode cfg = ForwardingMode c) ∧
       (ForwardingMode c ∉ ["pool"; "semaphore"; "hybrid"]%string →
        ForwardingMode cfg = "pool"%string) ∧
       ((0 < SemaphoreMaxConcurrent c)%Z →
        SemaphoreMaxConcurrent cfg = SemaphoreMaxConcurrent c) ∧
       ((SemaphoreMaxConcurrent c ≤ 0)%Z →
        SemaphoreMaxConcurrent cfg = 10000%Z).
Proof.
  destruct v as [err | err | c]; try discriminate. intros Hl.
  destruct (Load_mode_ceiling _ _ Hl) as [Hm Hs].
  destruct (Load_Unmarshalled c cfg Hl) as [Hu ->]. simpl in *.
  split; [done |]. split; [done |]. split; [done |]. split.
  - unfold Load. simpl.
    destruct (String.eqb_spec (OtelCollectorTargetURL c) ""); [done |].
    destruct (String.eqb (ForwardingMode c) "semaphore"); simpl.
    { destruct (Z.leb_spec (SemaphoreMaxConcurrent c) 0); simpl; [done |].
      by destruct (Z.leb_spec (SemaphoreMaxConcurrent c) 0); [lia |]. }
    destruct (String.eqb (ForwardingMode c) "hybrid"); simpl.
    { destruct (Z.leb_spec (SemaphoreMaxConcurrent c) 0); simpl; [done |].
      by destruct (Z.leb_spec (SemaphoreMaxConcurrent c) 0); [lia |]. }
    destruct (Z.leb_spec (SemaphoreMaxConcurrent c) 0); simpl; [done |].
    by destruct (Z.leb_spec (SemaphoreMaxConcurrent c) 0); [lia |].
  - exists c. repeat (split; [done |]). split; [| split; [| split]].
    + rewrite !elem_of_cons, elem_of_nil. intros [-> | [-> | [-> | []]]]; done.
    + rewrite !elem_of_cons, elem_of_nil. intros Hn.
      destruct (String.eqb_spec (ForwardingMode c) "semaphore") as [E | _];
        [exfalso; apply Hn; auto |].
      destruct (String.eqb_spec (ForwardingMode c) "hybrid") as [E | _];
        [exfalso; apply Hn; auto | done].
    + intros Hpos. by destruct (Z.leb_spec (SemaphoreMaxConcurrent c) 0); [lia |].
    + intros Hneg. by destruct (Z.leb_spec (SemaphoreMaxConcurrent c) 0); [| lia].
Qed.

Lemma Load_normalises_witness :
  Load (Unmarshalled WiringDemo.from_file) = Loaded WiringDemo.loaded ∧
  ForwardingMode WiringDemo.loaded = "pool"%string ∧
  SemaphoreMaxConcurrent WiringDemo.loaded = 10000%Z.
Proof.
  split; [reflexivity |].
  destruct (Load_normalises (Unmarshalled WiringDemo.from_file)
              WiringDemo.loaded eq_refl)
    as (_ & _ & _ & _ & c & Hc & _ & _ & _ & _ & _ & _ & _ & _ & _ & _ & _
        & Hm & _ & Hs).
  injection Hc as <-. split.
  - apply Hm. simpl. rewrite !elem_of_cons, elem_of_nil.
    intros [H | [H | [H | []]]]; discriminate.
  - apply Hs. simpl. lia.
Defined.

(** X18. For a configuration [Load] returned, [injectDependency] wires
    the proxy handler with the configured URL, credential and sync flag
    and a forwarder that is never nil, which [preProcess] then starts. The
    forwarder is the semaphore or hybrid one exactly when the mode says
    so, and the pool behind its adapter otherwise; the concurrency
    ceiling of the semaphore and hybrid forwarders is the configured one,
    their constructors' own fallback to 10000 never applies. In semaphore
    mode the wiring cannot panic. *)
Theorem injectDependency_after_Load v cfg numCPU :
  Load v = Loaded cfg →
  (ForwardingMode cfg = "semaphore"%string →
   is_Some (injectDependency numCPU (NewApp cfg))) ∧
  (∀ a,
      injectDependency numCPU (NewApp cfg) = Some a →
      proxyHandler a
      = Some (Proxy.mkProxyHandler (OtelCollectorTargetURL cfg)
                (OtelCollectorAPIKey cfg) (SyncLogsDebug cfg)) ∧
      forwarder (preProcess a) = impl_Start <$> forwarder a ∧
      match forwarder a with
      | Some (SemaphoreFwd f) =>
          ForwardingMode cfg = "semaphore"%string ∧
          Semaphore.maxConcurrent f = SemaphoreMaxConcurrent cfg ∧
          cap (Semaphore.tokens f) = SemaphoreMaxConcurrent cfg ∧
          Semaphore.shutdownTimeout f
          = int_mul (ShutdownTimeoutSeconds cfg) Second
      | Some (HybridFwd h) =>
          ForwardingMode cfg = "hybrid"%string ∧
          cap (Hybrid.tokens h) = SemaphoreMaxConcurrent cfg ∧
          Hybrid.shutdownTimeout h
          = int_mul (ShutdownTimeoutSeconds cfg) Second
      | Some (PoolFwd pf) =>
          ForwardingMode cfg = "pool"%string ∧
          ∃ p, PoolAdapter.pool pf = Some p ∧
               WorkerPool.NewPool numCPU (WorkerPoolSize cfg) (JobQueueSize cfg)
                 (int_mul (ShutdownTimeoutSeconds cfg) Second) = Some p
      | None => False
      end).
Proof.
  intros Hl.
  destruct (Load_mode_ceiling v cfg Hl) as [Hmode Hpos].
  assert ((SemaphoreMaxConcurrent cfg <=? 0)%Z = false) as Hle
    by (apply Z.leb_gt; lia).
  assert ((SemaphoreMaxConcurrent cfg <? 0)%Z = false) as Hlt
    by (apply Z.ltb_ge; lia).
  unfold injectDependency, NewApp. simpl. split.
  - intros ->. simpl.
    unfold Semaphore.NewSemaphoreForwarder, make. rewrite Hle, Hlt. simpl.
    by eexists.
  - intros a.
    destruct (String.eqb_spec (ForwardingMode cfg) "semaphore") as [Hs | Hs].
    + unfold Semaphore.NewSemaphoreForwarder, make. rewrite Hle, Hlt. simpl.
      intros [= <-]. simpl. done.
    + destruct (String.eqb_spec (ForwardingMode cfg) "hybrid") as [Hh | Hh].
      * unfold Hybrid.NewHybridForwarder, make.
        destruct ((if (JobQueueSize cfg <=? 0)%Z then _ else _) <? 0)%Z;
          [discriminate |].
        simpl. rewrite Hle, Hlt. simpl. intros [= <-]. simpl. done.
      * destruct (WorkerPool.NewPool _ _ _ _) as [p |] eqn:Ep; [| discriminate].
        simpl. intros [= <-]. simpl. split; [done |]. split; [done |].
        split; [| by exists p].
        revert Hmode. rewrite !elem_of_cons, elem_of_nil.
        intros [? | [? | [? | []]]]; done.
Qed.

Lemma injectDependency_after_Load_witness :
  is_Some (injectDependency 4 (NewApp WiringDemo.semaphore_mode)).
Proof.
  exact (proj1 (injectDependency_after_Load
                  (Unmarshalled WiringDemo.semaphore_mode)
                  WiringDemo.semaphore_mode 4 eq_refl) eq_refl).
Defined.

End Wiring.

(** ** The summary of the load generator *)

Section LoadTestSummary.
Import LoadTest.

Lemma total_bump `{Countable K} (m : gmap K nat) (k : K) :
  total (bump m k) = S (total m).
Proof.
  unfold total, bump. destruct (m !! k) as [v |] eqn:Ek; simpl.
  - rewrite <- (insert_delete_eq m) at 1.
    rewrite map_to_list_insert by apply lookup_delete_eq.
    rewrite <- (map_to_list_delete m k v Ek). simpl. done.
  - by rewrite map_to_list_insert.
Qed.

Lemma tally_one_counts t r :
  let t' := tally_one t r in
  latencies t' = latencies t ++ [latency r] ∧
  (successCount t' = successCount t + Nat.b2n (succeeded r))%nat ∧
  (errorCount t' = errorCount t + Nat.b2n (negb (succeeded r)))%nat ∧
  (total (statusCounters t') = total (statusCounters t) + Nat.b2n (answered r))%nat ∧
  (total (errorKinds t') = total (errorKinds t) + Nat.b2n (negb (succeeded r)))%nat.
Proof.
  unfold tally_one, succeeded, answered. destruct (err r) as [e |]; simpl.
  - rewrite total_bump. repeat split; lia.
  - rewrite Z.geb_leb.
    destruct ((200 <=? statusCode r)%Z && (statusCode r <? 400)%Z); simpl;
      rewrite !total_bump; repeat split; lia.
Qed.

Lemma tally_counts results t :
  let t' := foldl tally_one t results in
  latencies t' = latencies t ++ (latency <$> results) ∧
  (successCount t' = successCount t + length (List.filter succeeded results))%nat ∧
  (errorCount t'
   = errorCount t + length (List.filter (λ r, negb (succeeded r)) results))%nat ∧
  (total (statusCounters t')
   = total (statusCounters t) + length (List.filter answered results))%nat ∧
  (total (errorKinds t')
   = total (errorKinds t)
     + length (List.filter (λ r, negb (succeeded r)) results))%nat.
Proof.
  revert t. induction results as [| r results IH]; intros t; simpl.
  - rewrite app_nil_r. repeat split; lia.
  - destruct (IH (tally_one t r)) as (H1 & H2 & H3 & H4 & H5).
    destruct (tally_one_counts t r) as (G1 & G2 & G3 & G4 & G5).
    rewrite H1, H2, H3, H4, H5, G1, G2, G3, G4, G5, <- app_assoc. simpl.
    destruct (succeeded r), (answered r); simpl; repeat split; lia.
Qed.

(** X19. The summary loop of the load generator counts every result
    once: successes and errors add up to the number of results, which is
    also the number of latencies kept, in the order received; a result is
    a success exactly when it has no transport error and a status in
    [200, 400); the status counts add up to the results that were
    answered, and the counts per error kind add up to the errors. *)
Theorem tally_accounts_for_every_result results :
  let t := tally results in
  latencies t = latency <$> results ∧
  (successCount t + errorCount t = length results)%nat ∧
  successCount t = length (List.filter succeeded results) ∧
  total (statusCounters t) = length (List.filter answered results) ∧
  total (errorKinds t) = errorCount t.
Proof.
  destruct (tally_counts results tally0) as (H1 & H2 & H3 & H4 & H5).
  cbv zeta. unfold tally. simpl in *.
  change (total ∅) with 0%nat in *.
  split; [done |]. split; [| split; [lia | split; lia]].
  rewrite H2, H3. clear. induction results as [| r results IH]; simpl; [done |].
  destruct (succeeded r); simpl; lia.
Qed.

Lemma substring_length n s :
  (n ≤ String.length s)%nat → String.length (String.substring 0 n s) = n.
Proof.
  revert s. induction n as [| n IH]; intros [| c s] Hn; simpl in *;
    try done; try lia.
  rewrite IH; lia.
Qed.

Lemma string_length_app (s1 s2 : string) :
  String.length (s1 ++ s2) = (String.length s1 + String.length s2)%nat.
Proof. induction s1 as [| c s1 IH]; simpl; [done | by rewrite IH]. Qed.

Lemma substring_app n (s s2 : string) :
  (n ≤ String.length s)%nat →
  String.substring 0 n (String.substring 0 n s ++ s2) = String.substring 0 n s.
Proof.
  revert s. induction n as [| n IH]; intros [| c s] Hn; simpl in *;
    try lia.
  - by destruct s2.
  - by destruct s2.
  - rewrite IH; [done | lia].
Qed.

(** X20. [truncateForPrint] with a positive limit returns at most limit
    + 3 bytes, whose first limit bytes are those of its argument; a
    string within the limit comes back unchanged, a longer one cut to the
    limit and followed by three dots; truncating twice is truncating
    once. With a limit that is not positive nothing is cut. *)
Theorem truncateForPrint_bounded s max :
  (0 < max)%Z →
  (Z.of_nat (String.length (truncateForPrint s max)) ≤ max + 3)%Z ∧
  String.substring 0 (Z.to_nat max) (truncateForPrint s max)
  = String.substring 0 (Z.to_nat max) s ∧
  ((Z.of_nat (String.length s) ≤ max)%Z → truncateForPrint s max = s) ∧
  ((max < Z.of_nat (String.length s))%Z →
   truncateForPrint s max
   = (String.substring 0 (Z.to_nat max) s ++ "...")%string) ∧
  truncateForPrint (truncateForPrint s max) max = truncateForPrint s max.
Proof.
  intros Hmax.
  assert ((max <=? 0)%Z = false) as Hle by (apply Z.leb_gt; lia).
  unfold truncateForPrint. rewrite Hle. simpl.
  destruct (Z.leb_spec (Z.of_nat (String.length s)) max) as [Hs | Hs].
  - rewrite (proj2 (Z.leb_le _ _) Hs). repeat split; try done; lia.
  - assert (Z.to_nat max ≤ String.length s)%nat as Hn by lia.
    pose proof (substring_length _ _ Hn) as Hl.
    assert (String.length (String.substring 0 (Z.to_nat max) s ++ "...")
            = (Z.to_nat max + 3)%nat) as Hl'
      by (by rewrite string_length_app, Hl).
    rewrite Hl'.
    assert ((Z.of_nat (Z.to_nat max + 3) <=? max)%Z = false) as ->
      by (apply Z.leb_gt; lia).
    rewrite !substring_app by done.
    repeat split; try done; lia.
Qed.

Lemma truncateForPrint_bounded_witness :
  truncateForPrint "queue full" 5 = "queue..."%string.
Proof.
  refine (proj1 (proj2 (proj2 (proj2
            (truncateForPrint_bounded "queue full" 5 _)))) _);
    reflexivity.
Defined.

End LoadTestSummary.

(** ** The asynchronous reply, by forwarder *)

Section AsyncReplyByForwarder.
Import Proxy.

Lemma handleAsync_reply_of {F} `{Forwarder F} h c order path payload (fw : F) :
  ReqBody c = ReadOk payload →
  (handleAsync h c order path fw).1
  = reply_of c (Submit payload (targetURL h ++ path)%string
                       (forward_headers h (ReqHeader c) order) fw).1.
Proof.
  intros Hb. unfold handleAsync. rewrite Hb.
  by destruct (Submit _ _ _ fw) as [[[e |] | msg |] fw'].
Qed.

(** X21. A request whose body could be read, in every state the
    forwarder reaches, also when calls of [Submit] pause between their
    read of the [stopped] flag and what follows. With the semaphore
    forwarder [handleAsync] answers 202 in every state, also after
    [Stop]: it exerts no back-pressure. With the hybrid forwarder a
    handler whose call of [Submit] nothing interrupts answers 503 when
    the forwarder is stopped or its queue is full, and 202 otherwise; a
    handler whose call has read the flag as false panics when [Stop] has
    run in between, and otherwise answers 202 if the queue has room and
    503 if it is full. *)
Theorem async_reply_by_forwarder h c order path payload :
  ReqBody c = ReadOk payload →
  (∀ mc timeout f t s,
      Semaphore.NewSemaphoreForwarder mc timeout = Some f →
      SemaphoreCalls.run t (SemaphoreCalls.init f) = Some s →
      (handleAsync h c order path (Semaphore.fwd (SemaphoreCalls.base s))).1
      = Reply (NoContent c StatusAccepted)) ∧
  (∀ W Q mc timeout hf t s,
      Hybrid.NewHybridForwarder W Q mc timeout = Some hf →
      HybridCalls.run t (HybridCalls.init hf) = Some s →
      let f := Hybrid.fwd (HybridCalls.base s) in
      (handleAsync h c order path f).1
      = Reply (NoContent c
                 (if Hybrid.stopped f
                     || (Hybrid.GetQueueDepth f =? cap (Hybrid.jobQueue f))%Z
                  then StatusServiceUnavailable else StatusAccepted)) ∧
      (∀ k, HybridCalls.calls s !! k
            = Some (Some (async_job h c order path payload)) →
            reply_of c (HybridCalls.send (async_job h c order path payload) f).1
            = if Hybrid.stopped f then HandlerPanics "send on closed channel"
              else Reply (NoContent c
                            (if (Hybrid.GetQueueDepth f
                                 =? cap (Hybrid.jobQueue f))%Z
                             then StatusServiceUnavailable
                             else StatusAccepted)))).
Proof.
  intros Hb. split.
  - intros mc timeout f t s _ _. unfold handleAsync. rewrite Hb. simpl.
    unfold Semaphore.Submit.
    by destruct (Semaphore.stopped (Semaphore.fwd (SemaphoreCalls.base s))).
  - intros W Q mc timeout hf t s Hnew Hrun. cbv zeta.
    destruct (NewHybridForwarder_fields _ _ _ _ _ Hnew) as (_ & _ & Hs0).
    destruct (hybrid_calls_run_shape t (HybridCalls.init hf) s Hs0 Hrun)
      as ([Hd _ _ _ Hst] & _ & _).
    set (f := Hybrid.fwd (HybridCalls.base s)) in *.
    assert (has_room (Hybrid.jobQueue f)
            = negb (Hybrid.GetQueueDepth f =? cap (Hybrid.jobQueue f))%Z)
      as Hroom.
    { unfold Hybrid.GetQueueDepth.
      destruct (has_room (Hybrid.jobQueue f)) eqn:Er.
      - apply has_room_true in Er.
        by destruct (Z.eqb_spec (len (Hybrid.jobQueue f))
                                (cap (Hybrid.jobQueue f))); [lia |].
      - apply has_room_false in Er.
        by destruct (Z.eqb_spec (len (Hybrid.jobQueue f))
                                (cap (Hybrid.jobQueue f))); [| lia]. }
    split.
    + unfold handleAsync. rewrite Hb. simpl. unfold Hybrid.Submit.
      destruct (Hybrid.stopped f) eqn:Es; simpl; [done |].
      rewrite <- Hst, Hroom.
      by destruct (Hybrid.GetQueueDepth f =? cap (Hybrid.jobQueue f))%Z.
    + intros k _. unfold HybridCalls.send. rewrite <- Hst.
      destruct (Hybrid.stopped f) eqn:Es; simpl; [done |].
      rewrite Hroom.
      by destruct (Hybrid.GetQueueDepth f =? cap (Hybrid.jobQueue f))%Z.
Qed.

Lemma async_reply_by_forwarder_witness :
  (handleAsync Demo.handler_key Demo.plain_request
     (map_to_list Demo.plain_headers) "/v1/traces"
     (Hybrid.fwd Scenarios.hybrid_full_state)).1
  = Reply (NoContent Demo.plain_request StatusServiceUnavailable).
Proof.
  assert (HybridCalls.run (HybridCalls.LStep <$> Scenarios.hybrid_full)
            (HybridCalls.init Demo.hybrid_1_1_1)
          = Some (HybridCalls.mkState Scenarios.hybrid_full_state []))
    as Hrun by (vm_compute; reflexivity).
  exact (proj1 (proj2 (async_reply_by_forwarder Demo.handler_key
                         Demo.plain_request (map_to_list Demo.plain_headers)
                         "/v1/traces"%string Demo.hello eq_refl)
                      1%Z 1%Z 1%Z 1000000000%Z Demo.hybrid_1_1_1
                      (HybridCalls.LStep <$> Scenarios.hybrid_full)
                      (HybridCalls.mkState Scenarios.hybrid_full_state [])
                      eq_refl Hrun)).
Defined.

End AsyncReplyByForwarder.
